(** * VLabsExperiment_1: moment tensor, radiation amplitude and synthetic seismograms

    A shallow embedding of the numerical core of the repository:

    - [src/data/tensors.js]                  [strikeDipRakeToMomentTensor]
    - [src/components/SeismicPlot.jsx]       [generateWaveforms]
    - [src/components/SeismicSimulator.jsx]  [generateWaveforms] (a second copy)
    - [src/components/BeachBallDiagram.jsx]  the eigen-pair sort and the
                                             radiation amplitude [u]

    The JavaScript code computes on Numbers.  The embedding is written once,
    over an interface of the Number operations ([JsNumber]) and of the [Math]
    functions ([JsMath]) the code uses, and read in two ways:

    - [Float64], [FloatMath L]: IEEE-754 binary64 (Rocq's primitive floats,
      which are what a JavaScript engine computes with for [+ - * /], unary
      minus and comparison), with the transcendental functions of [Math]
      taken from a record [L : Libm], because ECMAScript leaves their values
      implementation-approximated;
    - [Exact], [ExactMath]: real numbers extended with a NaN, the arithmetic
      the formulas are meant to approximate. *)

From Stdlib Require Import ZArith QArith Reals Floats Lia Lra.
From stdpp Require Import gmap strings list sorting.

Set Warnings "-abstract-large-number".

Set Default Proof Using "Type".

(** ** The Number interface *)

Class JsNumber (F : Type) := {
  num     : Q -> F;            (* a numeric literal of the source text *)
  js_nan  : F;                 (* NaN, what [undefined] is as a number *)
  js_add  : F -> F -> F;
  js_sub  : F -> F -> F;
  js_mul  : F -> F -> F;
  js_div  : F -> F -> F;
  js_neg  : F -> F;
  js_lt   : F -> F -> bool     (* the relational operator [<] *)
}.

(** The part of [Math] the code uses. *)
Class JsMath (F : Type) `{JsNumber F} := {
  Math_PI  : F;
  Math_cos : F -> F;
  Math_sin : F -> F;
  Math_pow : F -> F -> F
}.

Arguments num {F _} q%_Q.

Declare Scope js_scope.
Delimit Scope js_scope with js.
Notation "x + y" := (js_add x y) : js_scope.
Notation "x - y" := (js_sub x y) : js_scope.
Notation "x * y" := (js_mul x y) : js_scope.
Notation "x / y" := (js_div x y) : js_scope.
Notation "- x" := (js_neg x) : js_scope.
Notation "x < y" := (js_lt x y) : js_scope.

(** [arr[i]] read as a number: an index past the end gives [undefined], and
    every use below is arithmetic, where [undefined] is NaN. *)
Definition at_index {F : Type} {number : JsNumber F} (arr : list F) (i : nat) : F :=
  default js_nan (arr !! i).

(** ** src/data/tensors.js *)

Record MomentTensor (F : Type) := {
  Mrr : F; Mtt : F; Mpp : F; Mrp : F; Mtp : F; Mrt : F
}.
Arguments Mrr {F}. Arguments Mtt {F}. Arguments Mpp {F}.
Arguments Mrp {F}. Arguments Mtp {F}. Arguments Mrt {F}.

Module Tensors.
Section Tensors.
Context {F : Type} {number : JsNumber F} {math : JsMath F}.
Local Open Scope js_scope.

Definition deg2rad (deg : F) : F := (deg * Math_PI) / num 180.

(** Seismic moment in Nm. *)
Definition M0 (magnitudeMw : F) : F :=
  Math_pow (num 10) (num 1.5 * magnitudeMw + num 9.1).

Definition strikeDipRakeToMomentTensor (strike dip rake magnitudeMw : F)
  : MomentTensor F :=
  let strike := deg2rad strike in
  let dip := deg2rad dip in
  let rake := deg2rad rake in
  let cos := Math_cos in
  let sin := Math_sin in
  let M0 := M0 magnitudeMw in
  let Mrr :=
    - M0 *
    (sin dip * cos rake * sin (num 2 * strike) +
     sin (num 2 * dip) * sin rake * sin strike * sin strike) in
  let Mtt :=
    M0 *
    (sin dip * cos rake * sin (num 2 * strike) -
     sin (num 2 * dip) * sin rake * cos strike * cos strike) in
  let Mpp := M0 * sin (num 2 * dip) * sin rake in
  let Mrp :=
    - M0 *
    (cos dip * cos rake * cos strike +
     cos (num 2 * dip) * sin rake * sin strike) in
  let Mtp :=
    - M0 *
    (cos dip * cos rake * sin strike -
     cos (num 2 * dip) * sin rake * cos strike) in
  let Mrt :=
    - M0 *
    (sin dip * cos rake * cos (num 2 * strike) +
     num 0.5 * sin (num 2 * dip) * sin rake * sin (num 2 * strike)) in
  {| Mrr := Mrr; Mtt := Mtt; Mpp := Mpp; Mrp := Mrp; Mtp := Mtp; Mrt := Mrt |}.

(** The trace of the tensor, summed in the order [Mrr + Mtt + Mpp]. *)
Definition trace (mt : MomentTensor F) : F := Mrr mt + Mtt mt + Mpp mt.
End Tensors.
End Tensors.

(** ** The Green's-function store

    What the three statements of the [try] block do for one channel:
    [fetch(`/greens/${ch}.json`)], [res.json()] and the read of [json.data].

    - [Rejected]: one of them throws (the request fails, the body is not
      JSON, or the JSON value is [null], whose [.data] cannot be read), and
      the [catch] block runs;
    - [Parsed (Some data)]: [json.data] is the array [data] of Numbers;
    - [Parsed None]: the body parses to a value other than [null] that
      has no array under [data] ([json.data] is [undefined] or [null]),
      and nothing throws inside the [try].

    The elements of an array are taken to be Numbers, as in the files the
    repository serves under [/greens]. *)
Inductive Response (F : Type) : Type :=
  | Rejected
  | Parsed (data : option (list F)).
Arguments Rejected {F}.
Arguments Parsed {F} data.

Definition Responses (F : Type) : Type := string -> Response F.

(** A store that holds traces: per channel name the basis trace, [Some
    data], or [None] when the retrieval throws. *)
Definition Store (F : Type) : Type := string -> option (list F).

Definition responses {F : Type} (fetch : Store F) : Responses F :=
  fun ch =>
    match fetch ch with
    | Some data => Parsed (Some data)
    | None => Rejected
    end.
Coercion responses : Store >-> Responses.

Record Inputs (F : Type) := {
  strike : F; dip : F; rake : F; magnitude : F; azimuth : F
}.
Arguments strike {F}. Arguments dip {F}. Arguments rake {F}.
Arguments magnitude {F}. Arguments azimuth {F}.

(** The [output] object [{ Z, R, T }] handed to [setWaveforms]. *)
Record Waveforms (F : Type) := {
  output_Z : list F; output_R : list F; output_T : list F
}.
Arguments output_Z {F}. Arguments output_R {F}. Arguments output_T {F}.

Notation "arr .[ i ]" := (at_index arr i)
  (at level 1, left associativity, format "arr .[ i ]") : js_scope.

(** ** src/components/SeismicPlot.jsx *)

Module SeismicPlot.
Section SeismicPlot.
Context {F : Type} {number : JsNumber F} {math : JsMath F}.
Local Open Scope js_scope.
Local Open Scope string_scope.

(** [Object.values(channelMap)] lists the values in insertion order. *)
Definition channelMap : list (string * list string) :=
  [ ("Z", ["ZSS"; "ZDD"; "ZEP"; "ZDS"]);
    ("R", ["RSS"; "RDD"; "REP"; "RDS"]);
    ("T", ["TSS"; "TDS"]) ].

(** Preload all required Green's functions.  [greensData] maps a key to
    the array it is bound to; a key bound to [undefined] reads like an
    absent key, [greensData[ch]] being [undefined] in both cases, and is
    kept out of the map.  An array is truthy, so [!greensData[ch]] holds
    exactly when the key has no array. *)
Definition preload (fetch : Responses F) : gmap string (list F) :=
  foldl (fun greensData channels =>
    foldl (fun greensData ch =>
      match greensData !! ch with
      | Some _ => greensData
      | None =>
          match fetch ch with
          | Parsed (Some data) => <[ch := data]> greensData
          | Parsed None => greensData
          | Rejected => <[ch := replicate 15520 (num 0)]> greensData
          end
      end) greensData channels)
    ∅ (channelMap.*2).

(** Vertical (Z).  [greensData["ZSS"].map((_, i) => ...)] calls the arrow
    function once per index of [ZSS].  Where a key has no array,
    [greensData["ZSS"].map] and [greensData["ZDD"][i]] throw a TypeError,
    which is the [None] of the option monad. *)
Definition vertical (mt : MomentTensor F) (az : F)
    (greensData : gmap string (list F)) : option (list F) :=
  let '{| Mrr := Mrr; Mtt := Mtt; Mpp := Mpp; Mrp := Mrp; Mtp := Mtp; Mrt := Mrt |} := mt in
  this ← greensData !! "ZSS";
  Z ← mapM (fun i =>
        ZSS ← greensData !! "ZSS"; ZDD ← greensData !! "ZDD";
        ZEP ← greensData !! "ZEP"; ZDS ← greensData !! "ZDS";
        Some (Mtt *
                ((ZSS.[i] / num 2) * Math_cos (num 2 * az) -
                 ZDD.[i] / num 6 +
                 ZEP.[i] / num 3) +
              Mpp *
                ((- ZSS.[i] / num 2) * Math_cos (num 2 * az) -
                 ZDD.[i] / num 6 +
                 ZEP.[i] / num 3) +
              Mrr * (ZDD.[i] / num 3 + ZEP.[i] / num 3) +
              Mtp * (ZSS.[i] * Math_sin (num 2 * az)) +
              Mrt * (ZDS.[i] * Math_cos az) +
              Mrp * (ZDS.[i] * Math_sin az)))
      (seq 0 (length this));
  Some (take 4000 Z).

(** Radial (R). *)
Definition radial (mt : MomentTensor F) (az : F)
    (greensData : gmap string (list F)) : option (list F) :=
  let '{| Mrr := Mrr; Mtt := Mtt; Mpp := Mpp; Mrp := Mrp; Mtp := Mtp; Mrt := Mrt |} := mt in
  this ← greensData !! "RSS";
  R ← mapM (fun i =>
        RSS ← greensData !! "RSS"; RDD ← greensData !! "RDD";
        REP ← greensData !! "REP"; RDS ← greensData !! "RDS";
        Some (Mtt *
                ((RSS.[i] / num 2) * Math_cos (num 2 * az) -
                 RDD.[i] / num 6 +
                 REP.[i] / num 3) +
              Mpp *
                ((- RSS.[i] / num 2) * Math_cos (num 2 * az) -
                 RDD.[i] / num 6 +
                 REP.[i] / num 3) +
              Mrr * (RDD.[i] / num 3 + REP.[i] / num 3) +
              Mtp * (RSS.[i] * Math_sin (num 2 * az)) +
              Mrt * (RDS.[i] * Math_cos az) +
              Mrp * (RDS.[i] * Math_sin az)))
      (seq 0 (length this));
  Some (take 4000 R).

(** Transverse (T). *)
Definition transverse (mt : MomentTensor F) (az : F)
    (greensData : gmap string (list F)) : option (list F) :=
  let '{| Mrr := _; Mtt := Mtt; Mpp := Mpp; Mrp := Mrp; Mtp := Mtp; Mrt := Mrt |} := mt in
  this ← greensData !! "TSS";
  T ← mapM (fun i =>
        TSS ← greensData !! "TSS"; TDS ← greensData !! "TDS";
        Some (Mtt * ((TSS.[i] / num 2) * Math_sin (num 2 * az)) -
              Mpp * ((TSS.[i] / num 2) * Math_sin (num 2 * az)) -
              Mtp * (TSS.[i] * Math_cos (num 2 * az)) +
              Mrt * (TDS.[i] * Math_sin az) -
              Mrp * (TDS.[i] * Math_cos az)))
      (seq 0 (length this));
  Some (take 4000 T).

(** The three channel blocks, in source order, filling [output]. *)
Definition synthesize (mt : MomentTensor F) (az : F)
    (greensData : gmap string (list F)) : option (Waveforms F) :=
  Z ← vertical mt az greensData;
  R ← radial mt az greensData;
  T ← transverse mt az greensData;
  Some {| output_Z := Z; output_R := R; output_T := T |}.

(** [None] is a TypeError escaping the [async] function: the promise it
    returned is rejected, and [setWaveforms] is not reached. *)
Definition generateWaveforms (inputs : Inputs F) (fetch : Responses F)
  : option (Waveforms F) :=
  let '{| strike := strike; dip := dip; rake := rake;
          magnitude := magnitude; azimuth := azimuth |} := inputs in
  let mt := Tensors.strikeDipRakeToMomentTensor strike dip rake magnitude in
  let az := (azimuth * Math_PI) / num 180 in
  let greensData := preload fetch in
  synthesize mt az greensData.
End SeismicPlot.
End SeismicPlot.

(** ** src/components/SeismicSimulator.jsx

    The dashboard carries its own copy of [generateWaveforms]; it is
    translated from its own text. *)

Module SeismicSimulator.
Section SeismicSimulator.
Context {F : Type} {number : JsNumber F} {math : JsMath F}.
Local Open Scope js_scope.
Local Open Scope string_scope.

Definition channelMap : list (string * list string) :=
  [ ("Z", ["ZSS"; "ZDD"; "ZEP"; "ZDS"]);
    ("R", ["RSS"; "RDD"; "REP"; "RDS"]);
    ("T", ["TSS"; "TDS"]) ].

Definition preload (fetch : Responses F) : gmap string (list F) :=
  foldl (fun greensData channels =>
    foldl (fun greensData ch =>
      match greensData !! ch with
      | Some _ => greensData
      | None =>
          match fetch ch with
          | Parsed (Some data) => <[ch := data]> greensData
          | Parsed None => greensData
          | Rejected => <[ch := replicate 15520 (num 0)]> greensData
          end
      end) greensData channels)
    ∅ (channelMap.*2).

Definition vertical (mt : MomentTensor F) (az : F)
    (greensData : gmap string (list F)) : option (list F) :=
  let '{| Mrr := Mrr; Mtt := Mtt; Mpp := Mpp; Mrp := Mrp; Mtp := Mtp; Mrt := Mrt |} := mt in
  this ← greensData !! "ZSS";
  Z ← mapM (fun i =>
        ZSS ← greensData !! "ZSS"; ZDD ← greensData !! "ZDD";
        ZEP ← greensData !! "ZEP"; ZDS ← greensData !! "ZDS";
        Some (Mtt *
                ((ZSS.[i] / num 2) * Math_cos (num 2 * az) -
                 ZDD.[i] / num 6 +
                 ZEP.[i] / num 3) +
              Mpp *
                ((- ZSS.[i] / num 2) * Math_cos (num 2 * az) -
                 ZDD.[i] / num 6 +
                 ZEP.[i] / num 3) +
              Mrr * (ZDD.[i] / num 3 + ZEP.[i] / num 3) +
              Mtp * (ZSS.[i] * Math_sin (num 2 * az)) +
              Mrt * (ZDS.[i] * Math_cos az) +
              Mrp * (ZDS.[i] * Math_sin az)))
      (seq 0 (length this));
  Some (take 4000 Z).

Definition radial (mt : MomentTensor F) (az : F)
    (greensData : gmap string (list F)) : option (list F) :=
  let '{| Mrr := Mrr; Mtt := Mtt; Mpp := Mpp; Mrp := Mrp; Mtp := Mtp; Mrt := Mrt |} := mt in
  this ← greensData !! "RSS";
  R ← mapM (fun i =>
        RSS ← greensData !! "RSS"; RDD ← greensData !! "RDD";
        REP ← greensData !! "REP"; RDS ← greensData !! "RDS";
        Some (Mtt *
                ((RSS.[i] / num 2) * Math_cos (num 2 * az) -
                 RDD.[i] / num 6 +
                 REP.[i] / num 3) +
              Mpp *
                ((- RSS.[i] / num 2) * Math_cos (num 2 * az) -
                 RDD.[i] / num 6 +
                 REP.[i] / num 3) +
              Mrr * (RDD.[i] / num 3 + REP.[i] / num 3) +
              Mtp * (RSS.[i] * Math_sin (num 2 * az)) +
              Mrt * (RDS.[i] * Math_cos az) +
              Mrp * (RDS.[i] * Math_sin az)))
      (seq 0 (length this));
  Some (take 4000 R).

Definition transverse (mt : MomentTensor F) (az : F)
    (greensData : gmap string (list F)) : option (list F) :=
  let '{| Mrr := _; Mtt := Mtt; Mpp := Mpp; Mrp := Mrp; Mtp := Mtp; Mrt := Mrt |} := mt in
  this ← greensData !! "TSS";
  T ← mapM (fun i =>
        TSS ← greensData !! "TSS"; TDS ← greensData !! "TDS";
        Some (Mtt * ((TSS.[i] / num 2) * Math_sin (num 2 * az)) -
              Mpp * ((TSS.[i] / num 2) * Math_sin (num 2 * az)) -
              Mtp * (TSS.[i] * Math_cos (num 2 * az)) +
              Mrt * (TDS.[i] * Math_sin az) -
              Mrp * (TDS.[i] * Math_cos az)))
      (seq 0 (length this));
  Some (take 4000 T).

Definition synthesize (mt : MomentTensor F) (az : F)
    (greensData : gmap string (list F)) : option (Waveforms F) :=
  Z ← vertical mt az greensData;
  R ← radial mt az greensData;
  T ← transverse mt az greensData;
  Some {| output_Z := Z; output_R := R; output_T := T |}.

Definition generateWaveforms (inputs : Inputs F) (fetch : Responses F)
  : option (Waveforms F) :=
  let '{| strike := strike; dip := dip; rake := rake;
          magnitude := magnitude; azimuth := azimuth |} := inputs in
  let mt := Tensors.strikeDipRakeToMomentTensor strike dip rake magnitude in
  let az := (azimuth * Math_PI) / num 180 in
  let greensData := preload fetch in
  synthesize mt az greensData.
End SeismicSimulator.
End SeismicSimulator.

(** ** src/components/BeachBallDiagram.jsx *)

(** [THREE.Vector3], as far as the diagram uses it on directions. *)
Module THREE.
Record Vector3 (F : Type) := { x : F; y : F; z : F }.
Arguments x {F}. Arguments y {F}. Arguments z {F}.

(** [Vector3.negate]: each component is replaced by [-component]. *)
Definition negate {F : Type} {number : JsNumber F} (v : Vector3 F) : Vector3 F :=
  {| x := (- x v)%js; y := (- y v)%js; z := (- z v)%js |}.
End THREE.

Module BeachBallDiagram.
Section BeachBallDiagram.
Context {F : Type} {number : JsNumber F}.
Local Open Scope js_scope.

(** The radiation amplitude [u] of [generateShadedDots] and
    [generateRadiationLobe] (the same expression in both) at [dir]. *)
Definition amplitude (mt : MomentTensor F) (dir : THREE.Vector3 F) : F :=
  Mrr mt * THREE.x dir * THREE.x dir +
  Mtt mt * THREE.y dir * THREE.y dir +
  Mpp mt * THREE.z dir * THREE.z dir +
  num 2 * Mrt mt * THREE.x dir * THREE.y dir +
  num 2 * Mrp mt * THREE.x dir * THREE.z dir +
  num 2 * Mtp mt * THREE.y dir * THREE.z dir.

(** An eigenvalue with its eigenvector, [{ val, vec }]. *)
Record EigenPair := { val : F; vec : list F }.

(** [eigenvalues.map((val, i) => ({ val, vec: eigenvectors.map((row) => row[i]) }))]:
    the [i]-th pair holds the [i]-th column of the eigenvector matrix. *)
Definition eigenPairs (eigenvalues : list F) (eigenvectors : list (list F))
  : list EigenPair :=
  imap (fun i val => {| val := val; vec := (fun row => row.[i]) <$> eigenvectors |})
       eigenvalues.

(** [Array.prototype.sort(comparefn)].  ECMAScript fixes the result through
    the comparator only (a stable, sorted permutation when the comparator
    is consistent) and leaves the sequence of calls to the engine.  The
    model is the insertion sort engines run on short arrays: each element
    moves left past every [tmp] with [comparefn(tmp, element) > 0].  The
    prefix is kept in reverse, so that its last element is at the head. *)
Fixpoint insert_element {A} (comparefn : A -> A -> F) (element : A)
    (prefix_rev : list A) : list A :=
  match prefix_rev with
  | [] => [element]
  | tmp :: rest =>
      if num 0 < comparefn tmp element
      then tmp :: insert_element comparefn element rest
      else element :: tmp :: rest
  end.

Definition js_sort {A} (comparefn : A -> A -> F) (a : list A) : list A :=
  rev (foldl (fun prefix_rev element => insert_element comparefn element prefix_rev) [] a).

(** The eigen-pairs sorted by [(a, b) => a.val - b.val], and the axes
    [P = sorted[0]], [B = sorted[1]], [T = sorted[2]]; [None] is the
    TypeError of reading [.vec] of [undefined]. *)
Definition sorted (eigenvalues : list F) (eigenvectors : list (list F))
  : list EigenPair :=
  js_sort (fun a b => val a - val b) (eigenPairs eigenvalues eigenvectors).

Definition principalAxes (eigenvalues : list F) (eigenvectors : list (list F))
  : option (EigenPair * EigenPair * EigenPair) :=
  let sorted := sorted eigenvalues eigenvectors in
  P ← sorted !! 0%nat;
  B ← sorted !! 1%nat;
  T ← sorted !! 2%nat;
  Some (P, B, T).
End BeachBallDiagram.
Arguments EigenPair F : clear implicits.
Arguments val {F}. Arguments vec {F}.
End BeachBallDiagram.

(** ** Reading 1: IEEE-754 binary64 *)

(** The functions of [Math] the code calls.  ECMAScript specifies them as
    implementation-approximated, apart from a few exact values. *)
Record Libm := {
  libm_cos : float -> float;
  libm_sin : float -> float;
  libm_pow : float -> float -> float
}.

(** The integer [z] as a double (round to nearest even). *)
Definition float_of_Z (z : Z) : float :=
  SF2Prim (binary_normalize prec emax z 0 false).

(** A decimal literal [n/d] of the source text denotes the double nearest to
    it; for [n] and [d] below [2^53] that is the IEEE quotient of the two
    integers, both of which are doubles. *)
Definition float_lit (q : Q) : float :=
  PrimFloat.div (float_of_Z (Qnum q)) (float_of_Z (Zpos (Qden q))).

#[export] Instance Float64 : JsNumber float := {|
  num := float_lit;
  js_nan := nan;
  js_add := PrimFloat.add;
  js_sub := PrimFloat.sub;
  js_mul := PrimFloat.mul;
  js_div := PrimFloat.div;
  js_neg := PrimFloat.opp;
  js_lt := PrimFloat.ltb
|}.

(** [Math.PI] is the double nearest to pi. *)
Definition FloatMath (L : Libm) : JsMath float := {|
  Math_PI := 0x1.921fb54442d18p+1%float;
  Math_cos := libm_cos L;
  Math_sin := libm_sin L;
  Math_pow := libm_pow L
|}.

(** A Number is finite when it is neither NaN nor an infinity
    ([Number.isFinite]). *)
Definition is_finite (x : float) : bool :=
  negb (PrimFloat.is_nan x) && negb (PrimFloat.is_infinity x).

(** [|t| <= tol], as a test on doubles would evaluate it. *)
Definition within (t tol : float) : bool := PrimFloat.leb (PrimFloat.abs t) tol.

(** What ECMAScript and the range of binary64 fix about [Math.sin],
    [Math.cos] and [Math.pow] on the inputs used below: [Math.sin(+0)] is
    [+0], [Math.cos(+0)] is [1]; [10^y] for [y >= 309] exceeds every finite
    double, so its Number value is [+Infinity]; and [10^y] for
    [0 <= y <= 308] lies between [1] and [10^308], within the range, so its
    Number value is finite. *)
Record ecma_libm (L : Libm) : Prop := {
  ecma_sin_zero : libm_sin L 0%float = 0%float;
  ecma_cos_zero : libm_cos L 0%float = 1%float;
  ecma_pow_overflow :
    forall y, PrimFloat.leb 309%float y = true -> libm_pow L 10%float y = infinity;
  ecma_pow_in_range :
    forall y, PrimFloat.leb 0%float y = true -> PrimFloat.leb y 308%float = true ->
              is_finite (libm_pow L 10%float y) = true
}.

(** A statement about the double-precision reading is refuted for every
    [Math] library when it fails whatever the library computes away from the
    values fixed above. *)
Definition refuted_for_every_libm (P : Libm -> Prop) : Prop :=
  forall L, ecma_libm L -> ~ P L.

(** [Math.sin] and [Math.cos] return values in [[-1, 1]] on finite
    arguments. *)
Definition libm_unit_range (L : Libm) : Prop :=
  forall x, is_finite x = true ->
    PrimFloat.leb (PrimFloat.abs (libm_sin L x)) 1 = true /\
    PrimFloat.leb (PrimFloat.abs (libm_cos L x)) 1 = true.

(** A degenerate [Math] library that only shows the properties above to
    have a model: the sine is the sine of zero, the cosine the cosine of
    zero, a power of ten is [1] within the range and [Infinity] beyond. *)
Definition libm_at_zero : Libm := {|
  libm_cos := fun x => 1%float;
  libm_sin := fun x => if PrimFloat.is_zero x then x else 0%float;
  libm_pow := fun x y =>
    if PrimFloat.eqb x 10 && PrimFloat.leb 0 y && PrimFloat.leb y 308 then 1%float
    else if PrimFloat.eqb x 10 && PrimFloat.leb 309 y then infinity
    else nan
|}.

(** ** Reading 2: exact arithmetic *)

(** A real number, or NaN. There are no infinities and no rounding. *)
Inductive exact := ENaN | Real (r : R).

Definition exact_lift1 (f : R -> R) (a : exact) : exact :=
  match a with Real x => Real (f x) | ENaN => ENaN end.

Definition exact_lift2 (f : R -> R -> R) (a b : exact) : exact :=
  match a, b with Real x, Real y => Real (f x y) | _, _ => ENaN end.

(** A quotient by zero, an infinity or NaN for doubles, is NaN. *)
Definition exact_div (a b : exact) : exact :=
  match a, b with
  | Real x, Real y => if Req_dec_T y 0 then ENaN else Real (x / y)
  | _, _ => ENaN
  end.

(** [x^y = exp (y ln x)] for a positive base [x]; the code raises [10] only. *)
Definition exact_pow (a b : exact) : exact :=
  match a, b with
  | Real x, Real y => if Rlt_dec 0 x then Real (Rpower x y) else ENaN
  | _, _ => ENaN
  end.

Definition exact_lt (a b : exact) : bool :=
  match a, b with
  | Real x, Real y => if Rlt_dec x y then true else false
  | _, _ => false
  end.

#[export] Instance Exact : JsNumber exact := {|
  num := fun q => Real (Q2R q);
  js_nan := ENaN;
  js_add := exact_lift2 Rplus;
  js_sub := exact_lift2 Rminus;
  js_mul := exact_lift2 Rmult;
  js_div := exact_div;
  js_neg := exact_lift1 Ropp;
  js_lt := exact_lt
|}.

#[export] Instance ExactMath : JsMath exact := {|
  Math_PI := Real PI;
  Math_cos := exact_lift1 cos;
  Math_sin := exact_lift1 sin;
  Math_pow := exact_pow
|}.


(** * More of the repository's code *)

(** ** Built-ins of the language the code below calls, on doubles *)

Module Js.
Local Open Scope float_scope.

(** [ToBoolean] of a Number: false for [+0], [-0] and NaN. *)
Definition ToBoolean (x : float) : bool := negb (is_zero x || is_nan x).

(** [a || b] on Numbers. *)
Definition or (a b : float) : float := if ToBoolean a then a else b.

(** [a >= b]: false when either side is NaN. *)
Definition ge (a b : float) : bool := b <=? a.

Definition is_positive_zero (x : float) : bool := is_zero x && negb (get_sign x).
Definition is_negative_zero (x : float) : bool := is_zero x && get_sign x.

(** [Math.max(...args)], step by step: [highest] starts at [-Infinity];
    a NaN argument returns NaN at once; [+0] replaces a [-0]; a larger
    argument replaces [highest]. *)
Fixpoint max_from (highest : float) (args : list float) : float :=
  match args with
  | [] => highest
  | number :: rest =>
      if is_nan number then nan
      else
        let highest :=
          if is_positive_zero number && is_negative_zero highest
          then number else highest in
        let highest := if highest <? number then number else highest in
        max_from highest rest
  end.

Definition Math_max (args : list float) : float := max_from neg_infinity args.

(** [Math.min(...args)]: [lowest] starts at [+Infinity]; [-0] replaces a
    [+0]; a smaller argument replaces [lowest]. *)
Fixpoint min_from (lowest : float) (args : list float) : float :=
  match args with
  | [] => lowest
  | number :: rest =>
      if is_nan number then nan
      else
        let lowest :=
          if is_negative_zero number && is_positive_zero lowest
          then number else lowest in
        let lowest := if number <? lowest then number else lowest in
        min_from lowest rest
  end.

Definition Math_min (args : list float) : float := min_from infinity args.
End Js.

(** ** src/components/CrossSection3D.jsx *)

Module CrossSection3D.
Local Open Scope float_scope.

Definition crustWidth : float := 600.
Definition maxReceiverDistance : float := crustWidth / 2.

(** [const safeDistance = Math.min(distance, maxReceiverDistance)]. *)
Definition safeDistance (distance : float) : float :=
  Js.Math_min [distance; maxReceiverDistance].

(** The [onChange] handler of the azimuth field hands
    [Math.max(0, Math.min(360, Number(e.target.value) || 0))] to
    [setAzimuth]; [value] is [Number(e.target.value)]. *)
Definition onChange_azimuth (value : float) : float :=
  Js.Math_max [0; Js.Math_min [360; Js.or value 0]].
End CrossSection3D.

(** ** src/components/BeachBallDiagram.jsx: the matrix, the dots, the lobes *)

Module BeachBall.
Section Matrix.
Context {F : Type} {number : JsNumber F}.

(** The rows handed to [new Matrix(...)] for the eigen-decomposition. *)
Definition M (mt : MomentTensor F) : list (list F) :=
  [ [Mrr mt; Mrt mt; Mrp mt];
    [Mrt mt; Mtt mt; Mtp mt];
    [Mrp mt; Mtp mt; Mpp mt] ].
End Matrix.

Section Shading.
Local Open Scope float_scope.
Local Open Scope string_scope.

(** [Math.sin], [Math.cos] come from [L]; [Math.acos] and
    [THREE.Vector3.normalize] are taken as they are; [random k] is the
    value the [k]-th call of [Math.random()] returns. *)
Variable L : Libm.
Variable Math_acos : float -> float.
Variable normalize : THREE.Vector3 float -> THREE.Vector3 float.
Variable random : nat -> float.

Record Dot := { pos : float * float * float; color : string }.

(** The body of the loop of [generateShadedDots], at turn [i]: two draws
    of [Math.random()], first for [theta], then for [phi]. *)
Definition shadedDot (mt : MomentTensor float) (i : nat) : Dot :=
  let theta := Math_acos (random (2 * i)) in
  let phi := random (2 * i + 1) * 2 * Math_PI (JsMath := FloatMath L) in
  let x := libm_sin L theta * libm_cos L phi in
  let y := libm_sin L theta * libm_sin L phi in
  let z := - abs (libm_cos L theta) in
  let dir := normalize {| THREE.x := x; THREE.y := y; THREE.z := z |} in
  let u := BeachBallDiagram.amplitude mt dir in
  let color := if Js.ge u 0 then "black" else "white" in
  {| pos := (x, y, z); color := color |}.

Definition generateShadedDots (mt : MomentTensor float) (count : nat) : list Dot :=
  shadedDot mt <$> seq 0 count.

Definition latSteps : nat := 40.
Definition lonSteps : nat := 80.

(** [const r = 1 + scale * Math.abs(u)]. *)
Definition lobe_radius (scale u : float) : float := 1 + scale * abs u.

(** The three entries one turn of the inner loop of
    [generateRadiationLobe] pushes. *)
Definition lobeVertex (mt : MomentTensor float) (scale : float) (i j : nat)
  : list float :=
  let theta := (float_of_Z (Z.of_nat i) / float_of_Z (Z.of_nat latSteps))
               * Math_PI (JsMath := FloatMath L) in
  let phi := (float_of_Z (Z.of_nat j) / float_of_Z (Z.of_nat lonSteps)) * 2
             * Math_PI (JsMath := FloatMath L) in
  let x := libm_sin L theta * libm_cos L phi in
  let y := libm_sin L theta * libm_sin L phi in
  let z := libm_cos L theta in
  let dir := normalize {| THREE.x := x; THREE.y := y; THREE.z := z |} in
  let u := BeachBallDiagram.amplitude mt dir in
  let r := lobe_radius scale u in
  [x * r; y * r; z * r].

(** The array [vertices] before it is copied into the [Float32Array]. *)
Definition vertices (mt : MomentTensor float) (scale : float) : list float :=
  i ← seq 0 (S latSteps); j ← seq 0 (S lonSteps); lobeVertex mt scale i j.
End Shading.
End BeachBall.

(** ** src/components/SeismicPlot.jsx: the time axis and the download *)

(** [String(x)] of a Number, as template literals apply it. *)
Class JsToString (F : Type) := Number_toString : F -> string.

Module Download.
Section Download.
Context {F : Type} {number : JsNumber F} {toString : JsToString F}.
Local Open Scope string_scope.

(** [Array.from({ length: 4000 }, (_, i) => i / 4)]. *)
Definition time : list F :=
  (fun i : nat => js_div (num (inject_Z (Z.of_nat i))) (num 4)) <$> seq 0 4000.

(** One object of [data]; a field is [None] where the array read gives
    [undefined]. *)
Record Row := { row_time : option F; row_Z : option F;
                row_R : option F; row_T : option F }.

(** [waveforms.Z.map((_, i) => ({ time: time[i], Z: waveforms.Z[i], ... }))]. *)
Definition data (waveforms : Waveforms F) : list Row :=
  imap (fun i _ => {| row_time := time !! i;
                      row_Z := output_Z waveforms !! i;
                      row_R := output_R waveforms !! i;
                      row_T := output_T waveforms !! i |})
       (output_Z waveforms).

(** A field inside a template literal. *)
Definition cell (c : option F) : string :=
  match c with Some x => Number_toString x | None => "undefined" end.

(** [`${d.time},${d.Z},${d.R},${d.T}`]. *)
Definition line (d : Row) : string :=
  cell (row_time d) ++ "," ++ cell (row_Z d) ++ "," ++
  cell (row_R d) ++ "," ++ cell (row_T d).

(** The separator ["\n"] of [join]. *)
Definition newline : string := String (Ascii.ascii_of_nat 10) EmptyString.

Definition csvContent (waveforms : Waveforms F) : string :=
  "data:text/csv;charset=utf-8," ++
  String.concat newline ("time,Z,R,T" :: (line <$> data waveforms)).
End Download.
End Download.

(** ** Vocabulary of the further properties *)

(** What ECMAScript fixes about NaN: [Math.sin(NaN)] and [Math.cos(NaN)]
    are NaN, and [Math.pow(x, NaN)] is NaN for every [x]. *)
Definition libm_nan (L : Libm) : Prop :=
  libm_sin L nan = nan /\ libm_cos L nan = nan /\
  forall x, libm_pow L x nan = nan.

(** The degenerate library, made to return NaN on NaN. *)
Definition libm_at_zero_nan : Libm := {|
  libm_cos := fun x => if PrimFloat.is_nan x then nan else libm_cos libm_at_zero x;
  libm_sin := fun x => if PrimFloat.is_nan x then nan else libm_sin libm_at_zero x;
  libm_pow := fun x y => if PrimFloat.is_nan y then nan else libm_pow libm_at_zero x y
|}.

(** Every element of [l] is NaN. *)
Definition all_nan (l : list float) : Prop :=
  forall i v, l !! i = Some v -> PrimFloat.is_nan v = true.

(** Every element of [l] is a zero, [+0] or [-0]. *)
Definition all_zero (l : list float) : Prop :=
  forall i v, l !! i = Some v -> PrimFloat.is_zero v = true.

(** An eigen-pair with the index it had in the solver's output, and the
    comparator of the sort on such pairs. *)
Definition indexed : Type := nat * BeachBallDiagram.EigenPair float.

Definition by_val : indexed -> indexed -> float :=
  fun a b => @js_sub float Float64 (BeachBallDiagram.val a.2) (BeachBallDiagram.val b.2).

(** [later x y]: [y] is to come before [x], its eigenvalue being smaller,
    or equal ([==]) with a smaller index. *)
Definition later (x y : indexed) : Prop :=
  PrimFloat.leb (BeachBallDiagram.val y.2) (BeachBallDiagram.val x.2) = true /\
  (PrimFloat.eqb (BeachBallDiagram.val y.2) (BeachBallDiagram.val x.2) = true ->
   (y.1 < x.1)%nat).

Definition number_val (x : indexed) : Prop :=
  PrimFloat.is_nan (BeachBallDiagram.val x.2) = false.

(** A double that is [+0], positive or [+Infinity]. *)
Definition SF_nonneg (x : spec_float) : bool :=
  match x with
  | S754_zero false | S754_infinity false | S754_finite false _ _ => true
  | _ => false
  end.
(** ** The synthesis formulas as the specification words them *)

Module Spec.
Section Spec.
Context {F : Type} {number : JsNumber F} {math : JsMath F}.
Local Open Scope js_scope.
Local Open Scope string_scope.

(** The structural weights shared by the vertical and the radial channel,
    on one sample of each of the four basis traces. *)
Definition ZR_sample (M : MomentTensor F) (az : F) (SS DD EP DS : F) : F :=
  Mtt M * (SS / num 2 * Math_cos (num 2 * az) - DD / num 6 + EP / num 3) +
  Mpp M * (- SS / num 2 * Math_cos (num 2 * az) - DD / num 6 + EP / num 3) +
  Mrr M * (DD / num 3 + EP / num 3) +
  Mtp M * (SS * Math_sin (num 2 * az)) +
  Mrt M * (DS * Math_cos az) +
  Mrp M * (DS * Math_sin az).

(** The weights of the transverse channel, on its two basis traces. *)
Definition T_sample (M : MomentTensor F) (az : F) (SS DS : F) : F :=
  Mtt M * (SS / num 2 * Math_sin (num 2 * az)) -
  Mpp M * (SS / num 2 * Math_sin (num 2 * az)) -
  Mtp M * (SS * Math_cos (num 2 * az)) +
  Mrt M * (DS * Math_sin az) -
  Mrp M * (DS * Math_cos az).

(** The tensor with every component multiplied by [k]. *)
Definition scale (k : F) (M : MomentTensor F) : MomentTensor F :=
  {| Mrr := Mrr M * k; Mtt := Mtt M * k; Mpp := Mpp M * k;
     Mrp := Mrp M * k; Mtp := Mtp M * k; Mrt := Mrt M * k |}.

(** The zero-filled trace of the fixed length. *)
Definition zero_trace : list F := replicate 15520 (num 0).

(** The basis trace the synthesizer works with for channel [ch]: the one
    retrieved, or the zero trace when retrieval fails. *)
Definition basis (fetch : Store F) (ch : string) : list F :=
  default zero_trace (fetch ch).

(** The store in which retrieval of [ch] fails. *)
Definition failing (ch : string) (fetch : Store F) : Store F :=
  fun c => if decide (c = ch) then None else fetch c.

(** The store in which retrieval of [ch] yields [data]. *)
Definition answering (ch : string) (data : list F) (fetch : Store F) : Store F :=
  fun c => if decide (c = ch) then Some data else fetch c.

(** The ten channels [channelMap] requires, in preload order. *)
Definition channels : list string :=
  ["ZSS"; "ZDD"; "ZEP"; "ZDS"; "RSS"; "RDD"; "REP"; "RDS"; "TSS"; "TDS"]%string.

(** One turn of the preload loop: the body of [for (const ch of channels)]. *)
Definition preload_channel (fetch : Responses F)
    (greensData : gmap string (list F)) (ch : string) : gmap string (list F) :=
  match greensData !! ch with
  | Some _ => greensData
  | None =>
      match fetch ch with
      | Parsed (Some data) => <[ch := data]> greensData
      | Parsed None => greensData
      | Rejected => <[ch := replicate 15520 (num 0)]> greensData
      end
  end.

(** What [greensData[ch]] is after the preload: the array retrieved, the
    zero trace when the retrieval threw, or [undefined]. *)
Definition held (fetch : Responses F) (ch : string) : option (list F) :=
  match fetch ch with
  | Rejected => Some zero_trace
  | Parsed data => data
  end.


(** The output of the three channel blocks on a preloaded store. *)
Definition synthesized (mt : MomentTensor F) (az : F) (fetch : Store F)
  : Waveforms F :=
  {| output_Z :=
       take 4000
         ((fun i => ZR_sample mt az
                      (at_index (basis fetch "ZSS") i) (at_index (basis fetch "ZDD") i)
                      (at_index (basis fetch "ZEP") i) (at_index (basis fetch "ZDS") i))
            <$> seq 0 (length (basis fetch "ZSS")));
     output_R :=
       take 4000
         ((fun i => ZR_sample mt az
                      (at_index (basis fetch "RSS") i) (at_index (basis fetch "RDD") i)
                      (at_index (basis fetch "REP") i) (at_index (basis fetch "RDS") i))
            <$> seq 0 (length (basis fetch "RSS")));
     output_T :=
       take 4000
         ((fun i => T_sample mt az
                      (at_index (basis fetch "TSS") i) (at_index (basis fetch "TDS") i))
            <$> seq 0 (length (basis fetch "TSS"))) |}.
End Spec.
End Spec.


(** ** Vocabulary of the IEEE-754 facts *)

(** The integer value of a finite double [(-1)^s m 2^e] in units of [2^ez],
    for [ez <= e]. *)
Definition aligned (ez : Z) (s : bool) (m : positive) (e : Z) : Z :=
  cond_Zopp s (Zpos (fst (shl_align m e ez))).

Definition SF_not_nan (x : spec_float) : bool :=
  match x with S754_nan => false | _ => true end.

(** [x] is a zero or a finite double of magnitude below [2^k]. *)
Definition SF_below (k : Z) (x : spec_float) : Prop :=
  match x with
  | S754_zero _ => True
  | S754_finite _ m e => (Zpos (digits2_pos m) + e <= k)%Z
  | _ => False
  end.

Definition below (k : Z) (x : float) : Prop := SF_below k (Prim2SF x).

Definition SF_finite (x : spec_float) : bool :=
  match x with S754_zero _ | S754_finite _ _ _ => true | _ => false end.

(** ** The real value of a double *)

(** The mantissa and exponent that rounding to the format produces. *)
Definition SF_of_rounded (s : bool) (M E : Z) : spec_float :=
  match M with
  | Z0 => S754_zero s
  | Zpos p => if (E <=? emax - prec)%Z then S754_finite s p E else S754_infinity s
  | Zneg _ => S754_nan
  end.

(** Powers of two, and the real number a double stands for ([0] for NaN
    and the infinities). *)
Definition bpow (e : Z) : R := powerRZ 2 e.

Definition SF2R (x : spec_float) : R :=
  match x with
  | S754_finite s m e => (IZR (cond_Zopp s (Zpos m)) * bpow e)%R
  | _ => 0%R
  end.

Definition B2R (x : float) : R := SF2R (Prim2SF x).

(** A bound on the relative error [2^-50] of one operation, and on the
    absolute error [2^-1072] of an operation with a subnormal result. *)
Definition eps : R := 1e-15.

(** [tracks x k r b e]: the double [x] is finite, of magnitude below
    [2^k], and within [e] of the real number [r], itself at most [b] in
    magnitude. *)
Definition tracks (x : float) (k : Z) (r b e : R) : Prop :=
  below k x /\ (Rabs r <= b)%R /\ (Rabs (B2R x - r) <= e)%R.

(** The doubles [Math.sin] and [Math.cos] return for one finite argument
    are, as real numbers, within [1e-7] of the unit circle. *)
Definition libm_pythagorean (L : Libm) : Prop :=
  forall x, is_finite x = true ->
    (Rabs (B2R (libm_sin L x) * B2R (libm_sin L x)
           + B2R (libm_cos L x) * B2R (libm_cos L x) - 1) <= 1e-7)%R.

(** ** Vocabulary of the claims about doubles *)

(** All six components of the tensor are finite Numbers. *)
Definition finite_tensor (mt : MomentTensor float) : bool :=
  is_finite (Mrr mt) && is_finite (Mtt mt) && is_finite (Mpp mt) &&
  is_finite (Mrp mt) && is_finite (Mtp mt) && is_finite (Mrt mt).

Section Double_claims.
Variable L : Libm.

(** [|Mrr + Mtt + Mpp| <= 1e-6 * M0] on the tensor built from the four
    parameters, evaluated in doubles. *)
Definition trace_within_tolerance (strike dip rake magnitudeMw : float) : bool :=
  within
    (Tensors.trace
       (Tensors.strikeDipRakeToMomentTensor (math := FloatMath L)
          strike dip rake magnitudeMw))
    (PrimFloat.mul (float_lit 0.000001) (Tensors.M0 (math := FloatMath L) magnitudeMw)).

End Double_claims.

(** The eigen-pair at index [i] of the unsorted list. *)
Definition eigenPair_at {F : Type} {number : JsNumber F} (eigenvalues : list F)
    (eigenvectors : list (list F)) (i : nat)
  : option (BeachBallDiagram.EigenPair F) :=
  BeachBallDiagram.eigenPairs eigenvalues eigenvectors !! i.

(** * Evaluation on concrete inputs *)

Section Evaluation.
Local Open Scope float_scope.

(** Literals of the source text, as doubles. *)
Example float_lit_9_1 : float_lit 9.1 = 0x1.2333333333333p+3.
Proof. reflexivity. Qed.

Example float_lit_millionth : float_lit 0.000001 = 0x1.0c6f7a0b5ed8dp-20.
Proof. reflexivity. Qed.

(** [arr[i]] beyond the end of the array is [undefined], NaN in arithmetic. *)
Example at_index_beyond_end :
  at_index [1; 2] 1 = 2 /\ PrimFloat.is_nan (at_index [1; 2] 5) = true.
Proof. split; reflexivity. Qed.

(** The eigenvalues [3, 1, 2] with the columns of the identity matrix:
    sorted ascending, each value keeps its column. *)
Example sorted_3_1_2 :
  BeachBallDiagram.sorted [3; 1; 2] [[1; 0; 0]; [0; 1; 0]; [0; 0; 1]] =
  [ {| BeachBallDiagram.val := 1; BeachBallDiagram.vec := [0; 1; 0] |};
    {| BeachBallDiagram.val := 2; BeachBallDiagram.vec := [0; 0; 1] |};
    {| BeachBallDiagram.val := 3; BeachBallDiagram.vec := [1; 0; 0] |} ].
Proof. reflexivity. Qed.

(** The amplitude of the tensor [diag(1, 2, 3)] with [Mrt = 4] along
    [(1, 1, 0)]: [1 + 2 + 2 * 4]. *)
Example amplitude_diagonal :
  BeachBallDiagram.amplitude
    {| Mrr := 1; Mtt := 2; Mpp := 3; Mrp := 0; Mtp := 0; Mrt := 4 |}
    {| THREE.x := 1; THREE.y := 1; THREE.z := 0 |} = 11.
Proof. reflexivity. Qed.
End Evaluation.
(** * Facts about the synthesizer, for every reading of Number *)

Section Synthesizer.
Context {F : Type} {number : JsNumber F} {math : JsMath F}.
Local Open Scope string_scope.
Import Spec.

Lemma preload_channel_lookup (fetch : Responses F) g ch c :
  preload_channel fetch g ch !! c =
    match g !! c with
    | Some v => Some v
    | None => if decide (c = ch) then held fetch ch else None
    end.
Proof.
  unfold preload_channel, held, zero_trace.
  destruct (g !! ch) eqn:Hch.
  - destruct (g !! c) eqn:Hc; [done|].
    case_decide; [congruence|done].
  - destruct (decide (c = ch)) as [->|Hne].
    + rewrite Hch. destruct (fetch ch) as [|[data|]];
        by rewrite ?lookup_insert_eq.
    + destruct (fetch ch) as [|[data|]]; rewrite ?lookup_insert_ne by done;
        by destruct (g !! c).
Qed.

Lemma preload_channels_lookup (fetch : Responses F) chs g c :
  foldl (preload_channel fetch) g chs !! c =
    match g !! c with
    | Some v => Some v
    | None => if decide (c ∈ chs) then held fetch c else None
    end.
Proof.
  revert g. induction chs as [|ch chs IH]; intros g; simpl.
  - destruct (g !! c); [done|].
    destruct (decide (c ∈ [])) as [Hin|]; [|done].
    by apply elem_of_nil in Hin.
  - rewrite IH, preload_channel_lookup.
    destruct (g !! c); [done|].
    destruct (decide (c = ch)) as [->|Hne].
    + rewrite (decide_True (P := ch ∈ (ch :: chs))) by (apply elem_of_cons; by left).
      destruct (held fetch ch); [done|]. by case_decide.
    + destruct (decide (c ∈ chs)).
      * rewrite decide_True; [done|]. apply elem_of_cons; by right.
      * rewrite decide_False; [done|].
        rewrite elem_of_cons; tauto.
Qed.

Lemma preload_groups_lookup (fetch : Responses F) groups g c :
  foldl (fun g chs => foldl (preload_channel fetch) g chs) g groups !! c =
    match g !! c with
    | Some v => Some v
    | None => if decide (c ∈ concat groups) then held fetch c else None
    end.
Proof.
  revert g. induction groups as [|chs groups IH]; intros g; simpl.
  - destruct (g !! c); [done|].
    destruct (decide (c ∈ [])) as [Hin|]; [|done].
    by apply elem_of_nil in Hin.
  - rewrite IH, preload_channels_lookup.
    destruct (g !! c); [done|].
    destruct (decide (c ∈ chs)).
    + rewrite (decide_True (P := c ∈ (chs ++ concat groups)%list))
        by (apply elem_of_app; by left).
      destruct (held fetch c); [done|]. by case_decide.
    + destruct (decide (c ∈ concat groups)).
      * rewrite decide_True; [done|]. apply elem_of_app; by right.
      * rewrite decide_False; [done|].
        rewrite elem_of_app; tauto.
Qed.

Lemma preload_unfold (fetch : Responses F) :
  SeismicPlot.preload fetch =
    foldl (fun g chs => foldl (preload_channel fetch) g chs) ∅
          (SeismicPlot.channelMap.*2).
Proof. reflexivity. Qed.

(** After the preload a required channel is bound to the array retrieved
    for it, or to the zero trace when its retrieval threw; it is unbound
    when the response carried no array. *)
Lemma preload_held (fetch : Responses F) c :
  c ∈ channels -> SeismicPlot.preload fetch !! c = held fetch c.
Proof.
  intros Hc. rewrite preload_unfold, preload_groups_lookup, lookup_empty.
  by rewrite decide_True.
Qed.

Lemma held_store (fetch : Store F) c : held fetch c = Some (basis fetch c).
Proof. unfold held, basis, responses. by destruct (fetch c). Qed.

(** For a store of traces every required channel is present, with the
    trace retrieved for it or the zero trace. *)
Lemma preload_lookup (fetch : Store F) c :
  c ∈ channels -> SeismicPlot.preload fetch !! c = Some (Spec.basis fetch c).
Proof. intros Hc. by rewrite preload_held, held_store. Qed.

Lemma mapM_total {A B} (f : A -> B) (l : list A) :
  mapM (fun a => Some (f a)) l = Some (f <$> l).
Proof. induction l as [|a l IH]; simpl; [done|]. by rewrite IH. Qed.

Lemma in_channels c : bool_decide (c ∈ channels) = true -> c ∈ channels.
Proof. apply bool_decide_eq_true_1. Qed.

Lemma vertical_preload mt az (fetch : Store F) :
  SeismicPlot.vertical mt az (SeismicPlot.preload fetch) =
    Some (take 4000
      ((fun i => ZR_sample mt az
                   (at_index (basis fetch "ZSS") i) (at_index (basis fetch "ZDD") i)
                   (at_index (basis fetch "ZEP") i) (at_index (basis fetch "ZDS") i))
         <$> seq 0 (length (basis fetch "ZSS")))).
Proof.
  unfold SeismicPlot.vertical. destruct mt.
  rewrite !preload_lookup by (by apply in_channels).
  simpl. by rewrite mapM_total.
Qed.

Lemma radial_preload mt az (fetch : Store F) :
  SeismicPlot.radial mt az (SeismicPlot.preload fetch) =
    Some (take 4000
      ((fun i => ZR_sample mt az
                   (at_index (basis fetch "RSS") i) (at_index (basis fetch "RDD") i)
                   (at_index (basis fetch "REP") i) (at_index (basis fetch "RDS") i))
         <$> seq 0 (length (basis fetch "RSS")))).
Proof.
  unfold SeismicPlot.radial. destruct mt.
  rewrite !preload_lookup by (by apply in_channels).
  simpl. by rewrite mapM_total.
Qed.

Lemma transverse_preload mt az (fetch : Store F) :
  SeismicPlot.transverse mt az (SeismicPlot.preload fetch) =
    Some (take 4000
      ((fun i => T_sample mt az
                   (at_index (basis fetch "TSS") i) (at_index (basis fetch "TDS") i))
         <$> seq 0 (length (basis fetch "TSS")))).
Proof.
  unfold SeismicPlot.transverse. destruct mt.
  rewrite !preload_lookup by (by apply in_channels).
  simpl. by rewrite mapM_total.
Qed.

(** A sample of a truncated, index-wise computed trace. *)
Lemma lookup_take_tabulate (f : nat -> F) (n len i : nat) (v : F) :
  take n (f <$> seq 0 len) !! i = Some v -> v = f i /\ i < n /\ i < len.
Proof.
  intros [Hv Hi]%lookup_take_Some.
  apply list_lookup_fmap_Some in Hv as (j & -> & Hj).
  apply lookup_seq in Hj as [-> ?]. done.
Qed.

Lemma length_take_tabulate (f : nat -> F) (n len : nat) :
  length (take n (f <$> seq 0 len)) = Nat.min n len.
Proof. by rewrite length_take, length_fmap, length_seq. Qed.
End Synthesizer.

(** A sample within the length of a truncated, index-wise computed trace. *)
Ltac tabulated_sample :=
  rewrite lookup_take_lt by lia;
  rewrite list_lookup_fmap, lookup_seq_lt by lia; reflexivity.

Section Synthesizer_results.
Context {F : Type} {number : JsNumber F} {math : JsMath F}.
Local Open Scope string_scope.
Import Spec.

Lemma generateWaveforms_unfold (inputs : Inputs F) (fetch : Responses F) :
  SeismicPlot.generateWaveforms inputs fetch =
    SeismicPlot.synthesize
      (Tensors.strikeDipRakeToMomentTensor
         (strike inputs) (dip inputs) (rake inputs) (magnitude inputs))
      (js_div (js_mul (azimuth inputs) Math_PI) (num 180))
      (SeismicPlot.preload fetch).
Proof. by destruct inputs. Qed.

Lemma synthesize_preload mt az (fetch : Store F) :
  SeismicPlot.synthesize mt az (SeismicPlot.preload fetch) =
    Some (synthesized mt az fetch).
Proof.
  unfold SeismicPlot.synthesize.
  by rewrite vertical_preload, radial_preload, transverse_preload.
Qed.






(** The output depends on the store through the basis traces only. *)
Lemma synthesized_ext mt az (fetch1 fetch2 : Store F) :
  (forall c, basis fetch1 c = basis fetch2 c) ->
  synthesized mt az fetch1 = synthesized mt az fetch2.
Proof. intros Hb. unfold synthesized. by rewrite !Hb. Qed.

Lemma basis_failing ch (fetch : Store F) c :
  basis (failing ch fetch) c = basis (answering ch zero_trace fetch) c.
Proof. unfold basis, failing, answering. by case_decide. Qed.
End Synthesizer_results.

(** The two copies, definition by definition. *)
Section Copies.
Context {F : Type} {number : JsNumber F} {math : JsMath F}.

Lemma copy_channelMap : SeismicSimulator.channelMap = SeismicPlot.channelMap.
Proof. reflexivity. Qed.

Lemma copy_preload (fetch : Responses F) :
  SeismicSimulator.preload fetch = SeismicPlot.preload fetch.
Proof.
  unfold SeismicSimulator.preload, SeismicPlot.preload.
  by rewrite copy_channelMap.
Qed.

Lemma copy_vertical (mt : MomentTensor F) az g :
  SeismicSimulator.vertical mt az g = SeismicPlot.vertical mt az g.
Proof. unfold SeismicSimulator.vertical, SeismicPlot.vertical. reflexivity. Qed.

Lemma copy_radial (mt : MomentTensor F) az g :
  SeismicSimulator.radial mt az g = SeismicPlot.radial mt az g.
Proof. unfold SeismicSimulator.radial, SeismicPlot.radial. reflexivity. Qed.

Lemma copy_transverse (mt : MomentTensor F) az g :
  SeismicSimulator.transverse mt az g = SeismicPlot.transverse mt az g.
Proof. unfold SeismicSimulator.transverse, SeismicPlot.transverse. reflexivity. Qed.

Lemma copy_synthesize (mt : MomentTensor F) az g :
  SeismicSimulator.synthesize mt az g = SeismicPlot.synthesize mt az g.
Proof.
  unfold SeismicSimulator.synthesize, SeismicPlot.synthesize.
  by rewrite copy_vertical, copy_radial, copy_transverse.
Qed.
End Copies.

(** * IEEE-754 facts about binary64

    Derived from the specification of the primitive floats ([SpecFloat]). *)

Section IEEE.
Local Open Scope float_scope.

Lemma binary_round_aux_negb s m e l :
  binary_round_aux prec emax (negb s) m e l =
  SFopp (binary_round_aux prec emax s m e l).
Proof.
  unfold binary_round_aux.
  destruct (shr_fexp prec emax m e l) as [mrs' e'].
  destruct (shr_fexp prec emax _ e' loc_Exact) as [mrs'' e''].
  destruct (shr_m mrs''); simpl; try reflexivity.
  destruct (Z.leb e'' _); reflexivity.
Qed.

Lemma SFmul_opp_l x y :
  SF64mul (SFopp x) y = SFopp (SF64mul x y).
Proof.
  destruct x as [sx|sx| |sx mx ex], y as [sy|sy| |sy my ey]; simpl;
    try reflexivity; try (destruct sx, sy; reflexivity).
  rewrite <- binary_round_aux_negb. f_equal. destruct sx, sy; reflexivity.
Qed.

Lemma SFmul_opp_r x y :
  SF64mul x (SFopp y) = SFopp (SF64mul x y).
Proof.
  destruct x as [sx|sx| |sx mx ex], y as [sy|sy| |sy my ey]; simpl;
    try reflexivity; try (destruct sx, sy; reflexivity).
  rewrite <- binary_round_aux_negb. f_equal. destruct sx, sy; reflexivity.
Qed.

Lemma mul_opp_l x y : (- x) * y = - (x * y).
Proof.
  apply Prim2SF_inj. rewrite mul_spec, !opp_spec, mul_spec. apply SFmul_opp_l.
Qed.

Lemma mul_opp_r x y : x * (- y) = - (x * y).
Proof.
  apply Prim2SF_inj. rewrite mul_spec, !opp_spec, mul_spec. apply SFmul_opp_r.
Qed.

Lemma opp_involutive x : - - x = x.
Proof.
  apply Prim2SF_inj. rewrite !opp_spec.
  destruct (Prim2SF x) as [s|s| |s m e]; simpl; try reflexivity;
    destruct s; reflexivity.
Qed.

Lemma mul_opp_opp x y : (- x) * (- y) = x * y.
Proof. rewrite mul_opp_l, mul_opp_r. apply opp_involutive. Qed.
End IEEE.

Section IEEE_order.
Local Open Scope Z_scope.

Lemma digits2_pos_bounds (m : positive) :
  2 ^ (Zpos (digits2_pos m) - 1) <= Zpos m < 2 ^ Zpos (digits2_pos m).
Proof.
  induction m as [m IH|m IH|]; simpl digits2_pos.
  - rewrite Pos2Z.inj_succ.
    replace (Z.succ (Zpos (digits2_pos m)) - 1) with (Zpos (digits2_pos m) - 1 + 1) by lia.
    rewrite Z.pow_succ_r by lia. rewrite Z.pow_add_r by lia.
    change (2 ^ 1) with 2. lia.
  - rewrite Pos2Z.inj_succ.
    replace (Z.succ (Zpos (digits2_pos m)) - 1) with (Zpos (digits2_pos m) - 1 + 1) by lia.
    rewrite Z.pow_succ_r by lia. rewrite Z.pow_add_r by lia.
    change (2 ^ 1) with 2. lia.
  - simpl. lia.
Qed.

Lemma iter_pos_shr_1_m (n : positive) (mrs : shr_record) :
  0 <= shr_m mrs ->
  shr_m (SpecFloat.iter_pos shr_1 n mrs) = shr_m mrs / 2 ^ Zpos n.
Proof.
  assert (step : forall mrs, 0 <= shr_m mrs ->
            shr_m (shr_1 mrs) = shr_m mrs / 2 /\ 0 <= shr_m (shr_1 mrs)).
  { intros [m r s] Hm; cbn [shr_m] in Hm.
    destruct m as [|[p|p|]|p]; cbn [shr_1 shr_m]; [| | | |lia].
    - split; [reflexivity|lia].
    - split; [|lia]. apply Z.div_unique with 1; lia.
    - split; [|lia]. apply Z.div_unique with 0; lia.
    - split; [reflexivity|lia]. }
  assert (pow_nonneg : forall k : positive, 0 < 2 ^ Zpos k)
    by (intros; apply Z.pow_pos_nonneg; lia).
  revert mrs.
  induction n as [n IH|n IH|]; intros mrs Hm; simpl SpecFloat.iter_pos.
  - destruct (step mrs Hm) as [E1 P1].
    assert (P2 : 0 <= shr_m (SpecFloat.iter_pos shr_1 n (shr_1 mrs))).
    { rewrite IH by assumption. apply Z.div_pos; [assumption|apply pow_nonneg]. }
    rewrite IH by assumption. rewrite IH by assumption. rewrite E1.
    pose proof (pow_nonneg n).
    rewrite !Z.div_div by lia.
    f_equal.
    replace (Zpos n~1) with (Z.succ (Zpos n + Zpos n)) by lia.
    rewrite Z.pow_succ_r, Z.pow_add_r by lia. reflexivity.
  - assert (P2 : 0 <= shr_m (SpecFloat.iter_pos shr_1 n mrs)).
    { rewrite IH by assumption. apply Z.div_pos; [assumption|apply pow_nonneg]. }
    rewrite IH by assumption. rewrite IH by assumption.
    pose proof (pow_nonneg n).
    rewrite !Z.div_div by lia.
    f_equal.
    replace (Zpos n~0) with (Zpos n + Zpos n) by lia.
    rewrite Z.pow_add_r by lia. reflexivity.
  - destruct (step mrs Hm) as [E1 _]. rewrite E1. reflexivity.
Qed.

Lemma shr_record_of_loc_m m l : shr_m (shr_record_of_loc m l) = m.
Proof. destruct l as [|[| |]]; reflexivity. Qed.

(** Above the smallest exponent, shifting to the working precision keeps a
    positive mantissa positive: there is no underflow to zero. *)
Lemma shr_fexp_positive m e l :
  0 < m -> emin <= e ->
  0 < shr_m (fst (shr_fexp prec emax m e l)) /\
  emin <= snd (shr_fexp prec emax m e l).
Proof.
  intros Hm He. unfold shr_fexp, shr.
  destruct m as [|p|p]; try lia. simpl Zdigits2.
  pose proof (digits2_pos_bounds p) as [Hlo Hhi].
  set (d := Zpos (digits2_pos p)) in *.
  destruct (fexp prec emax (d + e) - e) as [|n|n] eqn:Hn; simpl fst; simpl snd.
  - rewrite shr_record_of_loc_m. lia.
  - rewrite iter_pos_shr_1_m by (rewrite shr_record_of_loc_m; lia).
    rewrite shr_record_of_loc_m.
    assert (Hd : Zpos n = d - prec).
    { unfold fexp in Hn. fold emin in Hn. lia. }
    split; [|lia].
    rewrite Hd.
    apply Z.div_str_pos. split; [apply Z.pow_pos_nonneg; lia|].
    transitivity (2 ^ (d - 1)); [|assumption].
    apply Z.pow_le_mono_r; unfold prec; lia.
  - rewrite shr_record_of_loc_m. lia.
Qed.

Lemma round_nearest_even_ge m l : 0 < m -> 0 < round_nearest_even m l.
Proof.
  intros Hm. destruct l as [|[| |]]; simpl; try lia.
  destruct (Z.even m); lia.
Qed.

Lemma binary_round_aux_sign s m e l :
  0 < m -> emin <= e ->
  binary_round_aux prec emax s m e l = S754_infinity s \/
  exists m' e', binary_round_aux prec emax s m e l = S754_finite s m' e'.
Proof.
  intros Hm He. unfold binary_round_aux.
  destruct (shr_fexp_positive m e l Hm He) as [H1 H2].
  destruct (shr_fexp prec emax m e l) as [mrs' e']. simpl in H1, H2.
  pose proof (round_nearest_even_ge (shr_m mrs') (loc_of_shr_record mrs') H1) as H3.
  destruct (shr_fexp_positive _ e' loc_Exact H3 H2) as [H4 _].
  destruct (shr_fexp prec emax _ e' loc_Exact) as [mrs'' e'']. simpl in H4.
  destruct (shr_m mrs'') as [|q|q]; try lia.
  destruct (Z.leb e'' _); eauto.
Qed.

Lemma fexp_ge_emin e : emin <= fexp prec emax e.
Proof. unfold fexp. fold emin. lia. Qed.

Lemma binary_round_sign s m e :
  emin <= e ->
  binary_round prec emax s m e = S754_infinity s \/
  exists m' e', binary_round prec emax s m e = S754_finite s m' e'.
Proof.
  intros He. unfold binary_round.
  destruct (shl_align m e _) as [mz ez] eqn:Hal.
  apply binary_round_aux_sign; [lia|].
  unfold shl_align in Hal.
  pose proof (fexp_ge_emin (Zpos (digits2_pos m) + e)).
  destruct (fexp prec emax (Zpos (digits2_pos m) + e) - e) eqn:Hd;
    injection Hal as _ <-; assumption.
Qed.
End IEEE_order.

Section IEEE_compare.
Local Open Scope Z_scope.

Lemma Pos_iter_xO (m d : positive) :
  Zpos (Pos.iter xO m d) = Zpos m * 2 ^ Zpos d.
Proof.
  induction d as [|d IH] using Pos.peano_ind.
  - simpl. lia.
  - rewrite Pos.iter_succ, Pos2Z.inj_xO, IH, Pos2Z.inj_succ, Z.pow_succ_r by lia. lia.
Qed.

Lemma shl_align_value m e ez :
  ez <= e -> Zpos (fst (shl_align m e ez)) = Zpos m * 2 ^ (e - ez).
Proof.
  intros Hle. unfold shl_align.
  destruct (ez - e) as [|d|d] eqn:Hd; simpl fst; try lia.
  - replace (e - ez) with 0 by lia. lia.
  - rewrite Pos_iter_xO. f_equal. f_equal. lia.
Qed.

Lemma bounded_digits m e :
  bounded prec emax m e = true ->
  emin <= e /\ Zpos (digits2_pos m) <= prec /\
  (emin < e -> Zpos (digits2_pos m) = prec).
Proof.
  unfold bounded, canonical_mantissa, fexp. fold emin.
  intros [Hc _]%andb_prop. apply Z.eqb_eq in Hc. lia.
Qed.

Lemma bounded_lt_of_exponent mx ex my ey :
  bounded prec emax mx ex = true -> bounded prec emax my ey = true ->
  ex < ey -> Zpos mx < Zpos my * 2 ^ (ey - ex).
Proof.
  intros (Hex & Hdx & _)%bounded_digits (_ & _ & Hdy)%bounded_digits Hlt.
  pose proof (digits2_pos_bounds mx) as [_ Hx].
  pose proof (digits2_pos_bounds my) as [Hy _].
  rewrite Hdy in Hy by lia.
  assert (2 ^ Zpos (digits2_pos mx) <= 2 ^ prec)
    by (apply Z.pow_le_mono_r; lia).
  assert (2 ^ 1 <= 2 ^ (ey - ex)) by (apply Z.pow_le_mono_r; lia).
  assert (Hp : 2 ^ prec = 2 ^ (prec - 1) * 2 ^ 1)
    by (rewrite <- Z.pow_add_r by (unfold prec; lia); f_equal; lia).
  assert (0 < 2 ^ (prec - 1)) by (apply Z.pow_pos_nonneg; unfold prec; lia).
  nia.
Qed.

Lemma SFcompare_aligned sx mx ex sy my ey :
  bounded prec emax mx ex = true -> bounded prec emax my ey = true ->
  SFcompare (S754_finite sx mx ex) (S754_finite sy my ey) =
    Some (aligned (Z.min ex ey) sx mx ex ?= aligned (Z.min ex ey) sy my ey).
Proof.
  intros Hx Hy. unfold aligned.
  rewrite !shl_align_value by lia.
  assert (Px : 0 < Zpos mx * 2 ^ (ex - Z.min ex ey))
    by (apply Z.mul_pos_pos; [lia|apply Z.pow_pos_nonneg; lia]).
  assert (Py : 0 < Zpos my * 2 ^ (ey - Z.min ex ey))
    by (apply Z.mul_pos_pos; [lia|apply Z.pow_pos_nonneg; lia]).
  assert (Hcases :
    (ex < ey /\ Zpos mx * 2 ^ (ex - Z.min ex ey) < Zpos my * 2 ^ (ey - Z.min ex ey)) \/
    (ey < ex /\ Zpos my * 2 ^ (ey - Z.min ex ey) < Zpos mx * 2 ^ (ex - Z.min ex ey)) \/
    (ex = ey /\ Zpos mx * 2 ^ (ex - Z.min ex ey) = Zpos mx /\
                Zpos my * 2 ^ (ey - Z.min ex ey) = Zpos my)).
  { destruct (Z.lt_total ex ey) as [Hlt|[Heq|Hgt]].
    - left. split; [assumption|].
      rewrite Z.min_l by lia. rewrite Z.sub_diag, Z.mul_1_r.
      apply bounded_lt_of_exponent; assumption.
    - right; right. subst ey. rewrite Z.min_id, Z.sub_diag. lia.
    - right; left. split; [assumption|].
      rewrite Z.min_r by lia. rewrite Z.sub_diag, Z.mul_1_r.
      apply bounded_lt_of_exponent; assumption. }
  unfold SFcompare. f_equal.
  destruct sx, sy; unfold cond_Zopp.
  - destruct Hcases as [[He Hv]|[[He Hv]|(He & Hvx & Hvy)]].
    + rewrite (proj2 (Z.compare_lt_iff ex ey)) by assumption.
      symmetry. apply Z.compare_gt_iff. lia.
    + rewrite (proj2 (Z.compare_gt_iff ex ey)) by assumption.
      symmetry. apply Z.compare_lt_iff. lia.
    + subst ey. rewrite Z.compare_refl, Hvx, Hvy.
      rewrite <- Z.compare_opp. rewrite Pos.compare_cont_spec.
      change (CompOpp (Pos.switch_Eq Eq (mx ?= my)%positive) = (my ?= mx)%positive).
      rewrite (Pos.compare_antisym mx my). destruct (mx ?= my)%positive; reflexivity.
  - symmetry. apply Z.compare_lt_iff. lia.
  - symmetry. apply Z.compare_gt_iff. lia.
  - destruct Hcases as [[He Hv]|[[He Hv]|(He & Hvx & Hvy)]].
    + rewrite (proj2 (Z.compare_lt_iff ex ey)) by assumption.
      symmetry. apply Z.compare_lt_iff. lia.
    + rewrite (proj2 (Z.compare_gt_iff ex ey)) by assumption.
      symmetry. apply Z.compare_gt_iff. lia.
    + subst ey. rewrite Z.compare_refl, Hvx, Hvy.
      rewrite Pos.compare_cont_spec.
      change (Pos.switch_Eq Eq (mx ?= my)%positive = (mx ?= my)%positive).
      destruct (mx ?= my)%positive; reflexivity.
Qed.
End IEEE_compare.

Section IEEE_sub.
Local Open Scope Z_scope.

Lemma SFltb_zero_binary_normalize (D ez : Z) :
  emin <= ez ->
  SFltb (S754_zero false) (binary_normalize prec emax D ez false) = (0 <? D).
Proof.
  intros He. destruct D as [|p|p]; simpl binary_normalize.
  - reflexivity.
  - destruct (binary_round_sign false p ez He) as [->|(m' & e' & ->)]; reflexivity.
  - destruct (binary_round_sign true p ez He) as [->|(m' & e' & ->)]; reflexivity.
Qed.

(** The sign of a difference is the order of its operands: the rounded
    difference of two doubles is positive exactly when the exact one is. *)
Lemma SFsub_positive x y :
  valid_binary x = true -> valid_binary y = true ->
  SF_not_nan x = true -> SF_not_nan y = true ->
  SFltb (S754_zero false) (SF64sub x y) = SFltb y x.
Proof.
  intros Vx Vy Nx Ny.
  destruct x as [sx|sx| |sx mx ex], y as [sy|sy| |sy my ey];
    try discriminate;
    try (destruct sx, sy; reflexivity);
    try (destruct sx; reflexivity); try (destruct sy; reflexivity).
  simpl in Vx, Vy.
  unfold SF64sub, SFsub.
  destruct (bounded_digits _ _ Vx) as [Hex _].
  destruct (bounded_digits _ _ Vy) as [Hey _].
  rewrite SFltb_zero_binary_normalize by lia.
  unfold SFltb. rewrite (SFcompare_aligned sy my ey sx mx ex Vy Vx).
  rewrite (Z.min_comm ey ex). fold (aligned (Z.min ex ey) sx mx ex).
  fold (aligned (Z.min ex ey) sy my ey).
  set (X := aligned (Z.min ex ey) sx mx ex).
  set (Y := aligned (Z.min ex ey) sy my ey).
  destruct (Z.compare_spec Y X); destruct (Z.ltb_spec 0 (X - Y)); lia || reflexivity.
Qed.

Lemma SFcompare_antisym x y :
  SFcompare x y = option_map CompOpp (SFcompare y x).
Proof.
  destruct x as [sx|sx| |sx mx ex], y as [sy|sy| |sy my ey]; simpl;
    try reflexivity; try (destruct sx, sy; reflexivity);
    try (destruct sx; reflexivity); try (destruct sy; reflexivity).
  f_equal. rewrite (Z.compare_antisym ex ey).
  rewrite !Pos.compare_cont_spec. rewrite (Pos.compare_antisym mx my).
  destruct sx, sy; try reflexivity;
    destruct (ex ?= ey); simpl; try reflexivity;
    destruct (mx ?= my)%positive; reflexivity.
Qed.
End IEEE_sub.

Section Float_order.
Local Open Scope float_scope.

Lemma Prim2SF_not_nan x : is_nan x = false -> SF_not_nan (Prim2SF x) = true.
Proof.
  intros Hx. unfold Prim2SF. rewrite Hx.
  destruct (is_zero x); [reflexivity|].
  destruct (is_infinity x); [reflexivity|].
  destruct (Z.frexp x) as [r e].
  destruct (shr_fexp _ _ _ _ _) as [mrs e'].
  destruct (shr_m mrs); reflexivity.
Qed.

(** [a - b > 0] exactly when [a > b], for Numbers other than NaN. *)
Lemma sub_positive x y :
  is_nan x = false -> is_nan y = false -> (0 <? x - y) = (y <? x).
Proof.
  intros Hx Hy. rewrite !FloatAxioms.ltb_spec, FloatAxioms.sub_spec.
  change (Prim2SF 0) with (S754_zero false).
  apply SFsub_positive; auto using Prim2SF_valid, Prim2SF_not_nan.
Qed.

(** Without NaN the order of doubles is total. *)
Lemma not_ltb_leb x y :
  is_nan x = false -> is_nan y = false -> (y <? x) = false -> (x <=? y) = true.
Proof.
  intros Hx%Prim2SF_not_nan Hy%Prim2SF_not_nan.
  rewrite FloatAxioms.ltb_spec, FloatAxioms.leb_spec. unfold SFltb, SFleb.
  rewrite (SFcompare_antisym (Prim2SF x) (Prim2SF y)).
  destruct (Prim2SF x) as [sx|sx| |sx mx ex], (Prim2SF y) as [sy|sy| |sy my ey];
    try discriminate;
    destruct (SFcompare _ _) as [[| |]|] eqn:Hc; simpl; try reflexivity;
    try discriminate; simpl in Hc; try discriminate;
    repeat match goal with s : bool |- _ => destruct s end; discriminate.
Qed.

Lemma ltb_leb x y : (x <? y) = true -> (x <=? y) = true.
Proof.
  intros Hlt. rewrite FloatAxioms.ltb_spec in Hlt. rewrite FloatAxioms.leb_spec.
  unfold SFltb, SFleb in *.
  destruct (SFcompare _ _) as [[| |]|]; congruence.
Qed.

Lemma ltb_not_eqb x y : (x <? y) = true -> (x =? y) = false /\ (y =? x) = false.
Proof.
  intros Hlt. rewrite FloatAxioms.ltb_spec in Hlt. rewrite !FloatAxioms.eqb_spec.
  unfold SFltb, SFeqb in *.
  rewrite (SFcompare_antisym (Prim2SF y) (Prim2SF x)).
  destruct (SFcompare _ _) as [[| |]|]; simpl; split; congruence.
Qed.
End Float_order.

Section Float_values.
Local Open Scope float_scope.

Lemma SFleb_gap (p p0 : positive) (e0 : Z) (Y : spec_float) :
  (p0 < p)%positive ->
  SFleb (S754_finite false p e0) Y = true ->
  SFleb Y (S754_finite false p0 e0) = false.
Proof.
  intros Hp. unfold SFleb, SFcompare.
  destruct Y as [s|s| |s m e]; try discriminate.
  - destruct s; [discriminate|reflexivity].
  - destruct s; [discriminate|].
    rewrite (Z.compare_antisym e e0).
    destruct (Z.compare_spec e e0) as [->|Hlt|Hgt]; cbn [CompOpp]; try discriminate.
    + rewrite !Pos.compare_cont_spec. cbn [Pos.switch_Eq].
      rewrite (Pos.compare_antisym m p).
      destruct (Pos.compare_spec m p) as [->|H1|H1]; cbn [CompOpp];
        try discriminate; intros _.
      * destruct (Pos.compare_spec p p0) as [H2|H2|H2]; try reflexivity; lia.
      * destruct (Pos.compare_spec m p0) as [H2|H2|H2]; try reflexivity; lia.
    + reflexivity.
Qed.

Lemma Prim2SF_309 : Prim2SF 309 = S754_finite false 5435985487724544 (-44).
Proof. vm_compute. reflexivity. Qed.
Lemma Prim2SF_308 : Prim2SF 308 = S754_finite false 5418393301680128 (-44).
Proof. vm_compute. reflexivity. Qed.

(** No double is both at least 309 and at most 308. *)
Lemma leb_309_308 (y : float) : (309 <=? y) = true -> (y <=? 308) = false.
Proof.
  rewrite !FloatAxioms.leb_spec, Prim2SF_309, Prim2SF_308.
  apply SFleb_gap. reflexivity.
Qed.

Lemma Prim2SF_finite x : is_finite x = true -> SF_finite (Prim2SF x) = true.
Proof.
  unfold is_finite. intros [Hn Hi]%andb_prop.
  apply negb_true_iff in Hn. apply negb_true_iff in Hi.
  unfold Prim2SF. rewrite Hn, Hi.
  destruct (is_zero x); [reflexivity|].
  destruct (Z.frexp x) as [r e].
  destruct (shr_fexp _ _ _ _ _) as [mrs e'].
  destruct (shr_m mrs); reflexivity.
Qed.

Lemma Prim2SF_zero x s : Prim2SF x = S754_zero s -> x = SF2Prim (S754_zero s).
Proof. intros <-. symmetry. apply SF2Prim_Prim2SF. Qed.

(** A zero times a finite Number is a zero. *)
Lemma zero_mul_finite z k s :
  Prim2SF z = S754_zero s -> is_finite k = true ->
  exists s', Prim2SF (z * k) = S754_zero s'.
Proof.
  intros Hz Hk%Prim2SF_finite. rewrite mul_spec, Hz.
  destruct (Prim2SF k) as [sk|sk| |sk mk ek]; try discriminate; simpl; eauto.
Qed.

(** A finite Number times a zero is a zero. *)
Lemma finite_mul_zero a z s :
  is_finite a = true -> Prim2SF z = S754_zero s ->
  exists s', Prim2SF (a * z) = S754_zero s'.
Proof.
  intros Ha%Prim2SF_finite Hz. rewrite mul_spec, Hz.
  destruct (Prim2SF a) as [sa|sa| |sa ma ea]; try discriminate; simpl; eauto.
Qed.

End Float_values.

(** * Magnitude classes of doubles

    Exponent bookkeeping through the rounding of [SpecFloat]: enough to
    show that an operation on doubles of bounded magnitude does not
    overflow. *)

Section IEEE_magnitude.
Local Open Scope Z_scope.

Lemma Zdigits2_le (m j : Z) :
  0 <= m -> 0 <= j -> (Zdigits2 m <= j <-> m < 2 ^ j).
Proof.
  intros Hm Hj. destruct m as [|p|p]; try lia.
  - simpl. split; intros _; [apply Z.pow_pos_nonneg|]; lia.
  - simpl Zdigits2. pose proof (digits2_pos_bounds p) as [Hlo Hhi]. split.
    + intros Hd. eapply Z.lt_le_trans; [exact Hhi|].
      apply Z.pow_le_mono_r; lia.
    + intros Hlt. destruct (Z_le_gt_dec (Zpos (digits2_pos p)) j) as [|Hgt]; [assumption|].
      exfalso. assert (2 ^ j <= 2 ^ (Zpos (digits2_pos p) - 1))
        by (apply Z.pow_le_mono_r; lia). lia.
Qed.

Lemma Zdigits2_nonneg (m : Z) : 0 <= Zdigits2 m.
Proof. destruct m; simpl; lia. Qed.

Lemma shr_m_value (mrs : shr_record) (e n : Z) :
  0 <= shr_m mrs ->
  shr_m (fst (shr mrs e n)) = shr_m mrs / 2 ^ Z.max 0 n /\
  snd (shr mrs e n) = e + Z.max 0 n.
Proof.
  intros Hm. unfold shr. destruct n as [|p|p]; simpl fst; simpl snd.
  - rewrite Z.max_id. change (2 ^ 0) with 1. rewrite Z.div_1_r. lia.
  - rewrite iter_pos_shr_1_m by assumption. rewrite Z.max_r by lia. lia.
  - rewrite Z.max_l by lia. change (2 ^ 0) with 1. rewrite Z.div_1_r. lia.
Qed.
End IEEE_magnitude.

Section IEEE_round_magnitude.
Local Open Scope Z_scope.

Lemma round_nearest_even_bounds m l :
  m <= round_nearest_even m l <= m + 1.
Proof.
  destruct l as [|[| |]]; simpl; try lia. destruct (Z.even m); lia.
Qed.

Lemma div_pow2_lt (m a b : Z) :
  0 <= m -> 0 <= a -> 0 <= b -> m < 2 ^ (a + b) -> m / 2 ^ a < 2 ^ b.
Proof.
  intros Hm Ha Hb Hlt. apply Z.div_lt_upper_bound.
  - apply Z.pow_pos_nonneg; lia.
  - rewrite <- Z.pow_add_r by lia. assumption.
Qed.

Lemma div_pow2_nonneg (m a : Z) : 0 <= m -> 0 <= m / 2 ^ a.
Proof.
  intros Hm. destruct (Z_lt_le_dec a 0) as [Hneg|Hpos].
  - rewrite Z.pow_neg_r by assumption. rewrite Z.div_0_r. lia.
  - apply Z.div_pos; [assumption|apply Z.pow_pos_nonneg; lia].
Qed.

(** Rounding to the format raises the magnitude class by at most one and
    does not overflow below the largest exponent. *)
Lemma binary_round_aux_below s m e l k :
  0 <= m -> Zdigits2 m + e <= k -> emin <= k ->
  e <= Z.max (k - prec) emin -> k + 1 <= emax ->
  SF_below (k + 1) (binary_round_aux prec emax s m e l).
Proof.
  intros Hm Hk Hmin He Hmax. unfold binary_round_aux, shr_fexp.
  assert (Hprec : prec = 53) by reflexivity.
  assert (Hemax : emax = 1024) by reflexivity.
  assert (Hemin : emin = -1074) by reflexivity.
  pose proof (Zdigits2_nonneg m) as Hd0.
  assert (Hmd : m < 2 ^ Zdigits2 m) by (apply Zdigits2_le; lia).
  set (d := Zdigits2 m) in *.
  set (n1 := fexp prec emax (d + e) - e).
  assert (Hn1 : n1 = Z.max (d + e - prec) emin - e) by reflexivity.
  destruct (shr_m_value (shr_record_of_loc m l) e n1) as [Hm1 He1];
    [rewrite shr_record_of_loc_m; lia|].
  rewrite shr_record_of_loc_m in Hm1.
  destruct (shr (shr_record_of_loc m l) e n1) as [mrs' e1].
  cbn [fst snd] in Hm1, He1.
  set (N := Z.max 0 n1) in *.
  assert (HN : 0 <= N) by lia.
  assert (Hm'0 : 0 <= shr_m mrs') by (rewrite Hm1; apply div_pow2_nonneg; lia).
  assert (Hm'p : shr_m mrs' < 2 ^ prec).
  { rewrite Hm1. apply div_pow2_lt; try lia.
    eapply Z.lt_le_trans; [exact Hmd|]. apply Z.pow_le_mono_r; lia. }
  assert (Hm'k : shr_m mrs' < 2 ^ (k - e1)).
  { rewrite Hm1. apply div_pow2_lt; try lia.
    eapply Z.lt_le_trans; [exact Hmd|]. apply Z.pow_le_mono_r; lia. }
  pose proof (round_nearest_even_bounds (shr_m mrs') (loc_of_shr_record mrs')) as Hr.
  set (m1 := round_nearest_even (shr_m mrs') (loc_of_shr_record mrs')) in *.
  assert (He1min : emin <= e1) by lia.
  assert (He1k : e1 <= Z.max (k - prec) emin) by lia.
  assert (Hk1 : 2 ^ (k - e1) < 2 ^ (k + 1 - e1))
    by (apply Z.pow_lt_mono_r; lia).
  assert (Hp1 : 2 ^ prec < 2 ^ (prec + 1))
    by (apply Z.pow_lt_mono_r; lia).
  assert (Hd1p : Zdigits2 m1 <= prec + 1)
    by (apply Zdigits2_le; lia).
  set (n2 := fexp prec emax (Zdigits2 m1 + e1) - e1).
  assert (Hn2 : n2 = Z.max (Zdigits2 m1 + e1 - prec) emin - e1) by reflexivity.
  destruct (shr_m_value (shr_record_of_loc m1 loc_Exact) e1 n2) as [Hm2 He2];
    [rewrite shr_record_of_loc_m; lia|].
  rewrite shr_record_of_loc_m in Hm2.
  destruct (shr (shr_record_of_loc m1 loc_Exact) e1 n2) as [mrs'' e2].
  cbn [fst snd] in Hm2, He2.
  set (N2 := Z.max 0 n2) in *.
  assert (HN2 : 0 <= N2 <= 1) by lia.
  assert (Hm2k : shr_m mrs'' < 2 ^ (k + 1 - e2)).
  { rewrite Hm2. apply div_pow2_lt; try lia.
    replace (N2 + (k + 1 - e2)) with (k + 1 - e1) by lia. lia. }
  assert (Hm20 : 0 <= shr_m mrs'') by (rewrite Hm2; apply div_pow2_nonneg; lia).
  destruct (shr_m mrs'') as [|p|p] eqn:Hp; [exact I| |lia].
  assert (He2max : e2 <= emax - prec).
  { lia. }
  rewrite (proj2 (Z.leb_le _ _) He2max). cbn [SF_below].
  change (Zpos (digits2_pos p)) with (Zdigits2 (Zpos p)).
  assert (Zdigits2 (Zpos p) <= k + 1 - e2); [|lia].
  apply Zdigits2_le; lia.
Qed.
End IEEE_round_magnitude.

Section IEEE_operations_magnitude.
Local Open Scope Z_scope.

Lemma SF_below_le k k' x : SF_below k x -> k <= k' -> SF_below k' x.
Proof. destruct x; simpl; lia. Qed.

Lemma SF_below_opp k x : SF_below k x -> SF_below k (SFopp x).
Proof. destruct x; simpl; auto. Qed.

Lemma pos_below_pow (m : positive) : Zpos m < 2 ^ Zpos (digits2_pos m).
Proof. apply digits2_pos_bounds. Qed.

(** A product is at most one magnitude class above the sum of the classes
    of its factors. *)
Lemma SFmul_below x y a b :
  valid_binary x = true -> valid_binary y = true ->
  SF_below a x -> SF_below b y ->
  emin <= a + b -> a + b + 1 <= emax ->
  SF_below (a + b + 1) (SF64mul x y).
Proof.
  intros Vx Vy Hx Hy Hmin Hmax.
  assert (Hprec : prec = 53) by reflexivity.
  assert (Hemin : emin = -1074) by reflexivity.
  destruct x as [sx|sx| |sx mx ex], y as [sy|sy| |sy my ey];
    try contradiction; try exact I.
  cbn [valid_binary] in Vx, Vy. cbn [SF_below] in Hx, Hy.
  apply bounded_digits in Vx as (Hex & Hdx & Hnx).
  apply bounded_digits in Vy as (Hey & Hdy & Hny).
  unfold SF64mul, SFmul.
  pose proof (pos_below_pow mx) as Bx. pose proof (pos_below_pow my) as By.
  set (dx := Zpos (digits2_pos mx)) in *. set (dy := Zpos (digits2_pos my)) in *.
  assert (0 < dx /\ 0 < dy) as [Px Py] by (unfold dx, dy; lia).
  apply binary_round_aux_below; try lia.
  assert (Zdigits2 (Zpos (mx * my)) <= dx + dy); [|lia].
  apply Zdigits2_le; try lia.
  rewrite Pos2Z.inj_mul, Z.pow_add_r by lia. nia.
Qed.

Lemma digits2_pos_iter_xO (m d : positive) :
  Zpos (digits2_pos (Pos.iter xO m d)) = Zpos (digits2_pos m) + Zpos d.
Proof.
  induction d as [|d IH] using Pos.peano_ind.
  - simpl. lia.
  - rewrite Pos.iter_succ. cbn [digits2_pos]. rewrite Pos2Z.inj_succ, IH. lia.
Qed.

Lemma binary_round_below s m e k :
  Zpos (digits2_pos m) + e <= k -> emin <= k -> k + 1 <= emax ->
  SF_below (k + 1) (binary_round prec emax s m e).
Proof.
  intros Hk Hmin Hmax. unfold binary_round, shl_align.
  assert (Hf : fexp prec emax (Zpos (digits2_pos m) + e)
               = Z.max (Zpos (digits2_pos m) + e - prec) emin) by reflexivity.
  destruct (fexp prec emax (Zpos (digits2_pos m) + e) - e) as [|p|p] eqn:Hd.
  - apply binary_round_aux_below; cbn [Zdigits2]; lia.
  - apply binary_round_aux_below; cbn [Zdigits2]; lia.
  - apply binary_round_aux_below; cbn [Zdigits2]; try lia.
    rewrite digits2_pos_iter_xO. lia.
Qed.

Lemma binary_normalize_below S e k :
  Zdigits2 S + e <= k -> emin <= k -> k + 1 <= emax ->
  SF_below (k + 1) (binary_normalize prec emax S e false).
Proof.
  intros Hk Hmin Hmax. destruct S as [|p|p]; cbn [binary_normalize].
  - exact I.
  - apply binary_round_below; assumption.
  - apply binary_round_below; assumption.
Qed.
End IEEE_operations_magnitude.

Section IEEE_sum_magnitude.
Local Open Scope Z_scope.

Lemma aligned_below (ez : Z) (s : bool) (m : positive) (e k : Z) :
  ez <= e -> Zpos (digits2_pos m) + e <= k ->
  Z.abs (aligned ez s m e) < 2 ^ (k - ez).
Proof.
  intros Hle Hk. unfold aligned. rewrite shl_align_value by assumption.
  pose proof (pos_below_pow m) as Hm.
  assert (0 < 2 ^ (e - ez)) by (apply Z.pow_pos_nonneg; lia).
  assert (Z.abs (cond_Zopp s (Zpos m * 2 ^ (e - ez))) = Zpos m * 2 ^ (e - ez)) as ->.
  { assert (0 < Zpos m * 2 ^ (e - ez)) by nia.
    unfold cond_Zopp. destruct s; lia. }
  apply Z.lt_le_trans with (2 ^ Zpos (digits2_pos m) * 2 ^ (e - ez)); [nia|].
  rewrite <- Z.pow_add_r by lia. apply Z.pow_le_mono_r; lia.
Qed.

Lemma Zdigits2_abs (S : Z) : Zdigits2 (Z.abs S) = Zdigits2 S.
Proof. destruct S; reflexivity. Qed.

Lemma sum_below (X Y ez a b : Z) :
  Z.abs X < 2 ^ (a - ez) -> Z.abs Y < 2 ^ (b - ez) ->
  1 <= a - ez -> 1 <= b - ez ->
  (Zdigits2 (X + Y) + ez <= Z.max a b + 1) /\ (Zdigits2 (X - Y) + ez <= Z.max a b + 1).
Proof.
  intros HX HY Ha Hb.
  assert (Hpa : 2 ^ (a - ez) <= 2 ^ (Z.max a b - ez)) by (apply Z.pow_le_mono_r; lia).
  assert (Hpb : 2 ^ (b - ez) <= 2 ^ (Z.max a b - ez)) by (apply Z.pow_le_mono_r; lia).
  assert (Hp : 2 ^ (Z.max a b + 1 - ez) = 2 * 2 ^ (Z.max a b - ez)).
  { replace (Z.max a b + 1 - ez) with (Z.succ (Z.max a b - ez)) by lia.
    apply Z.pow_succ_r. lia. }
  split.
  - assert (Zdigits2 (Z.abs (X + Y)) <= Z.max a b + 1 - ez)
      by (apply Zdigits2_le; lia).
    rewrite Zdigits2_abs in *. lia.
  - assert (Zdigits2 (Z.abs (X - Y)) <= Z.max a b + 1 - ez)
      by (apply Zdigits2_le; lia).
    rewrite Zdigits2_abs in *. lia.
Qed.

(** A sum or difference is at most two magnitude classes above the larger
    class of its operands. *)
Lemma SFadd_below x y a b :
  valid_binary x = true -> valid_binary y = true ->
  SF_below a x -> SF_below b y ->
  emin <= Z.max a b -> Z.max a b + 2 <= emax ->
  SF_below (Z.max a b + 2) (SF64add x y).
Proof.
  intros Vx Vy Hx Hy Hmin Hmax.
  destruct x as [sx|sx| |sx mx ex], y as [sy|sy| |sy my ey];
    try contradiction.
  - destruct sx, sy; exact I.
  - apply (SF_below_le b); [exact Hy|lia].
  - apply (SF_below_le a); [exact Hx|lia].
  - cbn [valid_binary] in Vx, Vy. cbn [SF_below] in Hx, Hy.
    apply bounded_digits in Vx as (Hex & Hdx & Hnx).
    apply bounded_digits in Vy as (Hey & Hdy & Hny).
    unfold SF64add, SFadd.
    fold (aligned (Z.min ex ey) sx mx ex). fold (aligned (Z.min ex ey) sy my ey).
    replace (Z.max a b + 2) with (Z.max a b + 1 + 1) by lia.
    apply binary_normalize_below; try lia.
    apply (sum_below _ _ (Z.min ex ey) a b).
    + apply aligned_below; lia.
    + apply aligned_below; lia.
    + lia.
    + lia.
Qed.

Lemma SFsub_below x y a b :
  valid_binary x = true -> valid_binary y = true ->
  SF_below a x -> SF_below b y ->
  emin <= Z.max a b -> Z.max a b + 2 <= emax ->
  SF_below (Z.max a b + 2) (SF64sub x y).
Proof.
  intros Vx Vy Hx Hy Hmin Hmax.
  destruct x as [sx|sx| |sx mx ex], y as [sy|sy| |sy my ey];
    try contradiction.
  - destruct sx, sy; exact I.
  - apply (SF_below_le b); [exact Hy|lia].
  - apply (SF_below_le a); [exact Hx|lia].
  - cbn [valid_binary] in Vx, Vy. cbn [SF_below] in Hx, Hy.
    apply bounded_digits in Vx as (Hex & Hdx & Hnx).
    apply bounded_digits in Vy as (Hey & Hdy & Hny).
    unfold SF64sub, SFsub.
    fold (aligned (Z.min ex ey) sx mx ex). fold (aligned (Z.min ex ey) sy my ey).
    replace (Z.max a b + 2) with (Z.max a b + 1 + 1) by lia.
    apply binary_normalize_below; try lia.
    apply (sum_below _ _ (Z.min ex ey) a b).
    + apply aligned_below; lia.
    + apply aligned_below; lia.
    + lia.
    + lia.
Qed.
End IEEE_sum_magnitude.

Section IEEE_quotient_magnitude.
Local Open Scope Z_scope.

(** A quotient by a finite nonzero double of magnitude class exactly [c]
    is at most two classes above [a - c]. *)
Lemma SFdiv_below x sy my ey a c :
  valid_binary x = true ->
  SF_below a x -> Zpos (digits2_pos my) + ey = c ->
  emin <= a - c + 1 -> a - c + 2 <= emax ->
  SF_below (a - c + 2) (SF64div x (S754_finite sy my ey)).
Proof.
  intros Vx Hx Hc Hmin Hmax.
  assert (Hprec : prec = 53) by reflexivity.
  assert (Hemin : emin = -1074) by reflexivity.
  destruct x as [sx|sx| |sx mx ex]; try contradiction; [exact I|].
  cbn [SF_below] in Hx.
  unfold SF64div, SFdiv, SFdiv_core_binary. cbn [Zdigits2].
  pose proof (digits2_pos_bounds mx) as [_ Bx].
  pose proof (digits2_pos_bounds my) as [By _].
  set (d1 := Zpos (digits2_pos mx)) in *. set (d2 := Zpos (digits2_pos my)) in *.
  assert (0 < d1 /\ 0 < d2) as [P1 P2] by (unfold d1, d2; lia).
  set (D := d1 + ex - (d2 + ey)).
  assert (Hf : fexp prec emax D = Z.max (D - prec) emin) by reflexivity.
  set (e' := Z.min (fexp prec emax D) (ex - ey)) in *.
  set (s := ex - ey - e').
  assert (Hs : 0 <= s) by (unfold s, e'; lia).
  set (m' := match s with
             | 0 => Zpos mx
             | Zpos _ => Z.shiftl (Zpos mx) s
             | Zneg _ => 0
             end).
  assert (Hm' : m' = Zpos mx * 2 ^ s).
  { unfold m'. destruct s as [|p|p] eqn:Es; try lia.
    rewrite Z.shiftl_mul_pow2 by lia. reflexivity. }
  destruct (Z.div_eucl m' (Zpos my)) as [q r] eqn:Hqr.
  assert (Hq : q = m' / Zpos my) by (unfold Z.div; rewrite Hqr; reflexivity).
  assert (Hps : 0 < 2 ^ s) by (apply Z.pow_pos_nonneg; lia).
  assert (Hq0 : 0 <= q) by (rewrite Hq; apply Z.div_pos; nia).
  set (J := Z.max 0 (d1 + s - d2 + 1)).
  assert (HqJ : q < 2 ^ J).
  { rewrite Hq. apply Z.div_lt_upper_bound; [lia|].
    assert (2 ^ (d1 + s) <= 2 ^ (d2 - 1 + J)) by (apply Z.pow_le_mono_r; lia).
    assert (2 ^ (d2 - 1 + J) = 2 ^ (d2 - 1) * 2 ^ J) by (apply Z.pow_add_r; lia).
    assert (0 < 2 ^ J) by (apply Z.pow_pos_nonneg; lia).
    assert (Zpos mx * 2 ^ s < 2 ^ (d1 + s)) by (rewrite Z.pow_add_r by lia; nia).
    nia. }
  assert (HdJ : Zdigits2 q <= J) by (apply Zdigits2_le; lia).
  replace (a - c + 2) with (a - c + 1 + 1) by lia.
  apply binary_round_aux_below; lia.
Qed.
End IEEE_quotient_magnitude.

(** * Magnitude classes, on primitive floats *)

Section Float_magnitude.
Local Open Scope float_scope.

Lemma below_le (k k' : Z) (x : float) : below k x -> (k <= k')%Z -> below k' x.
Proof. apply SF_below_le. Qed.

Lemma opp_below (k : Z) (x : float) : below k x -> below k (- x).
Proof. unfold below. rewrite opp_spec. apply SF_below_opp. Qed.

Lemma mul_below (a b : Z) (x y : float) :
  below a x -> below b y -> (-1074 <= a + b)%Z -> (a + b + 1 <= 1024)%Z ->
  below (a + b + 1) (x * y).
Proof.
  unfold below. rewrite mul_spec. intros.
  by apply SFmul_below; auto using Prim2SF_valid.
Qed.

Lemma add_below (a b : Z) (x y : float) :
  below a x -> below b y -> (-1074 <= Z.max a b)%Z -> (Z.max a b + 2 <= 1024)%Z ->
  below (Z.max a b + 2) (x + y).
Proof.
  unfold below. rewrite add_spec. intros.
  by apply SFadd_below; auto using Prim2SF_valid.
Qed.

Lemma sub_below (a b : Z) (x y : float) :
  below a x -> below b y -> (-1074 <= Z.max a b)%Z -> (Z.max a b + 2 <= 1024)%Z ->
  below (Z.max a b + 2) (x - y).
Proof.
  unfold below. rewrite FloatAxioms.sub_spec. intros.
  by apply SFsub_below; auto using Prim2SF_valid.
Qed.

Lemma div_below (a c : Z) (x y : float) (sy : bool) (my : positive) (ey : Z) :
  below a x -> Prim2SF y = S754_finite sy my ey ->
  (Zpos (digits2_pos my) + ey = c)%Z ->
  (-1074 <= a - c + 1)%Z -> (a - c + 2 <= 1024)%Z ->
  below (a - c + 2) (x / y).
Proof.
  unfold below. rewrite div_spec. intros Hx -> Hc Hmin Hmax.
  by apply SFdiv_below; auto using Prim2SF_valid.
Qed.

(** A double in a magnitude class is finite. *)
Lemma below_is_finite (k : Z) (x : float) : below k x -> is_finite x = true.
Proof.
  unfold below, is_finite, is_nan, is_infinity.
  rewrite !FloatAxioms.eqb_spec, abs_spec.
  change (Prim2SF infinity) with (S754_infinity false).
  destruct (Prim2SF x) as [s|s| |s m e]; try contradiction; intros _.
  - reflexivity.
  - unfold SFeqb, SFcompare. rewrite Z.compare_refl, Pos.compare_cont_refl.
    by destruct s.
Qed.

(** [Math.abs(x) <= c] for a normal double [c = mc 2^ec] puts [x] in the
    magnitude class of [c]. *)
Lemma leb_abs_below (x c : float) (mc : positive) (ec : Z) :
  Prim2SF c = S754_finite false mc ec ->
  (abs x <=? c) = true -> below (53 + ec) x.
Proof.
  intros Hc. unfold below. rewrite FloatAxioms.leb_spec, abs_spec, Hc.
  pose proof (Prim2SF_valid x) as Vx.
  destruct (Prim2SF x) as [s|s| |s m e]; try discriminate; [done|].
  cbn [valid_binary] in Vx. apply bounded_digits in Vx as (_ & Hd & _).
  cbn [SFabs SF_below]. unfold SFleb, SFcompare.
  destruct (Z.compare_spec e ec); try discriminate; intros _;
    change prec with 53%Z in Hd; lia.
Qed.
End Float_magnitude.

(** * Rounding errors

    The value of a rounded result against the exact one, from the
    rounding of [SpecFloat]. *)

Section IEEE_round_error.
Local Open Scope Z_scope.


Lemma div_pow2_bounds (m n : Z) :
  0 <= m -> 0 <= n -> (m / 2 ^ n) * 2 ^ n <= m < (m / 2 ^ n + 1) * 2 ^ n.
Proof.
  intros Hm Hn. assert (Hp : 0 < 2 ^ n) by (apply Z.pow_pos_nonneg; lia).
  pose proof (Z.div_mod m (2 ^ n) ltac:(lia)) as Hdm.
  pose proof (Z.mod_pos_bound m (2 ^ n) Hp). nia.
Qed.

Lemma binary_round_aux_rounded s m e :
  0 < m ->
  exists M E : Z,
    binary_round_aux prec emax s m e loc_Exact = SF_of_rounded s M E /\
    0 <= M /\ e <= E /\
    ((E = e /\ M = m) \/
     (E <= Z.max (Zdigits2 m + e - prec) emin + 1 /\
      m - 2 * 2 ^ (E - e) <= M * 2 ^ (E - e) <= m + 2 * 2 ^ (E - e))).
Proof.
  intros Hm. unfold binary_round_aux, shr_fexp.
  assert (Hprec : prec = 53) by reflexivity.
  assert (Hemax : emax = 1024) by reflexivity.
  assert (Hemin : emin = -1074) by reflexivity.
  set (d := Zdigits2 m) in *.
  set (n1 := fexp prec emax (d + e) - e).
  assert (Hn1 : n1 = Z.max (d + e - prec) emin - e) by reflexivity.
  destruct (Z_le_gt_dec n1 0) as [Hexact|Hround].
  - (* no bit is shifted out *)
    assert (Hshr : shr (shr_record_of_loc m loc_Exact) e n1 =
                   (shr_record_of_loc m loc_Exact, e)).
    { unfold shr. destruct n1; try reflexivity. lia. }
    rewrite Hshr. cbn [shr_record_of_loc loc_of_shr_record shr_m shr_r shr_s
                       round_nearest_even].
    assert (Hshr' := Hshr). unfold n1, d in Hshr'.
    cbn [shr_record_of_loc] in Hshr'. rewrite Hshr'. cbn [shr_m].
    exists m, e. split; [|lia].
    unfold SF_of_rounded. destruct m; try lia. reflexivity.
  - destruct (shr_m_value (shr_record_of_loc m loc_Exact) e n1) as [Hm1 He1];
      [rewrite shr_record_of_loc_m; lia|].
    rewrite shr_record_of_loc_m in Hm1.
    destruct (shr (shr_record_of_loc m loc_Exact) e n1) as [mrs' e1].
    cbn [fst snd] in Hm1, He1. rewrite Z.max_r in Hm1, He1 by lia.
    pose proof (div_pow2_bounds m n1 ltac:(lia) ltac:(lia)) as Hdiv.
    rewrite <- Hm1 in Hdiv.
    assert (Hm'0 : 0 <= shr_m mrs') by (rewrite Hm1; apply div_pow2_nonneg; lia).
    pose proof (round_nearest_even_bounds (shr_m mrs') (loc_of_shr_record mrs')) as Hr.
    set (m1 := round_nearest_even (shr_m mrs') (loc_of_shr_record mrs')) in *.
    assert (Hmd : m < 2 ^ d) by (apply Zdigits2_le; unfold d; try lia; apply Zdigits2_nonneg).
    assert (Hm'p : shr_m mrs' < 2 ^ prec).
    { rewrite Hm1. apply div_pow2_lt; try lia.
      eapply Z.lt_le_trans; [exact Hmd|]. apply Z.pow_le_mono_r; lia. }
    assert (Hp1 : 2 ^ prec < 2 ^ (prec + 1))
      by (apply Z.pow_lt_mono_r; lia).
    assert (Hd1p : Zdigits2 m1 <= prec + 1)
      by (apply Zdigits2_le; lia).
    set (n2 := fexp prec emax (Zdigits2 m1 + e1) - e1).
    assert (Hn2 : n2 = Z.max (Zdigits2 m1 + e1 - prec) emin - e1) by reflexivity.
    destruct (shr_m_value (shr_record_of_loc m1 loc_Exact) e1 n2) as [Hm2 He2];
      [rewrite shr_record_of_loc_m; lia|].
    rewrite shr_record_of_loc_m in Hm2.
    destruct (shr (shr_record_of_loc m1 loc_Exact) e1 n2) as [mrs'' e2].
    cbn [fst snd] in Hm2, He2.
    set (N2 := Z.max 0 n2) in *.
    assert (HN2 : 0 <= N2 <= 1) by lia.
    pose proof (div_pow2_bounds m1 N2 ltac:(lia) ltac:(lia)) as Hdiv2.
    rewrite <- Hm2 in Hdiv2.
    assert (Hm20 : 0 <= shr_m mrs'') by (rewrite Hm2; apply div_pow2_nonneg; lia).
    exists (shr_m mrs''), e2. split; [reflexivity|].
    split; [assumption|]. split; [lia|]. right. split; [lia|].
    replace (e2 - e) with (N2 + n1) by lia.
    rewrite Z.pow_add_r by lia.
    assert (H2 : 1 <= 2 ^ N2 <= 2).
    { destruct (Z.eq_dec N2 0) as [->| ]; [simpl; lia|].
      replace N2 with 1 by lia. simpl. lia. }
    assert (0 < 2 ^ n1) by (apply Z.pow_pos_nonneg; lia).
    nia.
Qed.
End IEEE_round_error.

Section IEEE_real_value.
Local Open Scope R_scope.



Lemma bpow_pos (e : Z) : 0 < bpow e.
Proof. apply powerRZ_lt. lra. Qed.

Lemma bpow_add (a b : Z) : bpow (a + b) = bpow a * bpow b.
Proof. apply powerRZ_add. lra. Qed.

Lemma bpow_IZR (n : Z) : (0 <= n)%Z -> bpow n = IZR (2 ^ n).
Proof.
  intros Hn. unfold bpow. rewrite <- (Z2Nat.id n Hn) at 1 2.
  rewrite <- pow_powerRZ. apply pow_IZR.
Qed.

Lemma bpow_le (a b : Z) : (a <= b)%Z -> bpow a <= bpow b.
Proof.
  intros Hab. replace b with (a + (b - a))%Z by lia.
  rewrite bpow_add, (bpow_IZR (b - a)) by lia.
  assert (1 <= IZR (2 ^ (b - a))).
  { apply IZR_le. assert (0 < 2 ^ (b - a))%Z by (apply Z.pow_pos_nonneg; lia). lia. }
  pose proof (bpow_pos a). nra.
Qed.

Lemma bpow_succ (a : Z) : bpow (a + 1) = 2 * bpow a.
Proof. rewrite bpow_add. unfold bpow at 2. simpl. lra. Qed.

Lemma IZR_cond_Zopp (s : bool) (m : Z) :
  IZR (cond_Zopp s m) = (if s then -1 else 1) * IZR m.
Proof. destruct s; simpl; [rewrite opp_IZR|]; lra. Qed.

Lemma SF2R_rounded (s : bool) (M E : Z) :
  (0 <= M)%Z -> SF_finite (SF_of_rounded s M E) = true ->
  SF2R (SF_of_rounded s M E) = IZR (cond_Zopp s M) * bpow E.
Proof.
  intros HM. unfold SF_of_rounded. destruct M as [|p|p]; [| |lia].
  - intros _. destruct s; cbn [SF2R cond_Zopp Z.opp]; rewrite Rmult_0_l; reflexivity.
  - destruct (E <=? emax - prec)%Z; [reflexivity|discriminate].
Qed.

(** Rounding to the format changes the value by at most [2^-50] of its
    magnitude, or by [2^-1072] where the result is subnormal. *)
Lemma binary_round_aux_error (s : bool) (m e : Z) :
  (0 < m)%Z ->
  SF_finite (binary_round_aux prec emax s m e loc_Exact) = true ->
  Rabs (SF2R (binary_round_aux prec emax s m e loc_Exact)
        - IZR (cond_Zopp s m) * bpow e)
    <= bpow (-50) * (IZR m * bpow e) + bpow (-1072).
Proof.
  intros Hm. destruct (binary_round_aux_rounded s m e Hm)
    as (M & E & -> & HM & HE & Hcase).
  intros Hfin. rewrite SF2R_rounded by assumption.
  pose proof (bpow_pos e) as He. pose proof (bpow_pos (-50)) as H50.
  pose proof (bpow_pos (-1072)) as H1072.
  assert (Hmr : 0 < IZR m) by (apply IZR_lt; assumption).
  assert (Hv : 0 < IZR m * bpow e) by nra.
  destruct Hcase as [[-> ->]|[HEmax [Hlo Hhi]]].
  - rewrite Rminus_diag, Rabs_R0. nra.
  - replace E with (e + (E - e))%Z at 1 by lia.
    rewrite bpow_add, (bpow_IZR (E - e)) by lia.
    set (P := (2 ^ (E - e))%Z) in *.
    apply IZR_le in Hlo, Hhi.
    rewrite minus_IZR, !mult_IZR in Hlo. rewrite plus_IZR, !mult_IZR in Hhi.
    rewrite !IZR_cond_Zopp.
    assert (HPE : IZR P * bpow e = bpow E).
    { unfold P. rewrite <- bpow_IZR, <- bpow_add by lia. f_equal. lia. }
    assert (Hb : 2 * bpow E <= bpow (-50) * (IZR m * bpow e) + bpow (-1072)).
    { assert (Hprec : prec = 53%Z) by reflexivity.
      assert (Hemin : emin = (-1074)%Z) by reflexivity.
      destruct m as [|p|p]; try lia.
      pose proof (digits2_pos_bounds p) as [Hd _].
      cbn [Zdigits2] in HEmax. set (d := Zpos (digits2_pos p)) in *.
      assert (0 < d)%Z by (unfold d; lia).
      apply IZR_le in Hd. rewrite <- bpow_IZR in Hd by lia.
      pose proof (bpow_le E _ HEmax) as HE1. rewrite bpow_succ in HE1.
      destruct (Z.max_spec (d + e - prec) emin) as [[_ Hmx]|[_ Hmx]];
        rewrite Hmx in HE1.
      + rewrite Hemin in HE1.
        replace (-1072)%Z with (-1074 + 1 + 1)%Z by lia.
        rewrite !bpow_succ. nra.
      + replace (d + e - prec)%Z with ((d - 1) + e + (-52))%Z in HE1 by lia.
        rewrite !bpow_add in HE1.
        replace (-50)%Z with (-52 + 1 + 1)%Z by lia.
        rewrite !bpow_succ.
        pose proof (bpow_pos (-52)). pose proof (bpow_pos (d - 1)).
        assert (bpow (d - 1) * bpow e <= IZR (Z.pos p) * bpow e) by nra.
        nra. }
    apply Rabs_le. destruct s; nra.
Qed.
End IEEE_real_value.

Section IEEE_operation_error.
Local Open Scope R_scope.

Lemma shl_align_R (m : positive) (e e' : Z) :
  IZR (Zpos (fst (shl_align m e e'))) * bpow (snd (shl_align m e e'))
  = IZR (Zpos m) * bpow e.
Proof.
  unfold shl_align. destruct (e' - e)%Z as [|d|d] eqn:Hd; cbn [fst snd]; try reflexivity.
  rewrite Pos_iter_xO, mult_IZR, <- bpow_IZR by lia.
  rewrite Rmult_assoc, <- bpow_add. do 2 f_equal. lia.
Qed.

Lemma binary_round_error (s : bool) (m : positive) (e : Z) :
  SF_finite (binary_round prec emax s m e) = true ->
  Rabs (SF2R (binary_round prec emax s m e) - IZR (cond_Zopp s (Zpos m)) * bpow e)
    <= bpow (-50) * (IZR (Zpos m) * bpow e) + bpow (-1072).
Proof.
  unfold binary_round.
  pose proof (shl_align_R m e (fexp prec emax (Zpos (digits2_pos m) + e))) as Hv.
  destruct (shl_align m e _) as [mz ez]. cbn [fst snd] in Hv.
  intros Hfin. rewrite <- Hv.
  replace (IZR (cond_Zopp s (Zpos m)) * bpow e)
    with (IZR (cond_Zopp s (Zpos mz)) * bpow ez)
    by (rewrite !IZR_cond_Zopp, !Rmult_assoc, Hv; reflexivity).
  apply binary_round_aux_error; [lia|assumption].
Qed.

Lemma binary_normalize_error (D e : Z) (sz : bool) :
  SF_finite (binary_normalize prec emax D e sz) = true ->
  Rabs (SF2R (binary_normalize prec emax D e sz) - IZR D * bpow e)
    <= bpow (-50) * Rabs (IZR D * bpow e) + bpow (-1072).
Proof.
  pose proof (bpow_pos e) as He. pose proof (bpow_pos (-1072)).
  destruct D as [|p|p]; cbn [binary_normalize].
  - intros _. cbn [SF2R]. rewrite Rmult_0_l, Rminus_diag, Rabs_R0. lra.
  - intros Hfin. rewrite (Rabs_pos_eq (IZR (Zpos p) * bpow e)).
    + exact (binary_round_error false p e Hfin).
    + assert (0 < IZR (Zpos p)) by (apply IZR_lt; lia). nra.
  - intros Hfin.
    assert (Hp : 0 < IZR (Zpos p)) by (apply IZR_lt; lia).
    change (Zneg p) with (- Zpos p)%Z. rewrite opp_IZR.
    replace (Rabs (- IZR (Zpos p) * bpow e)) with (IZR (Zpos p) * bpow e).
    + exact (binary_round_error true p e Hfin).
    + rewrite Rabs_left by nra. lra.
Qed.

Lemma aligned_R (ez : Z) (s : bool) (m : positive) (e : Z) :
  (ez <= e)%Z -> IZR (aligned ez s m e) * bpow ez = SF2R (S754_finite s m e).
Proof.
  intros Hle. unfold aligned. cbn [SF2R].
  rewrite !IZR_cond_Zopp, shl_align_value, mult_IZR, <- bpow_IZR by lia.
  rewrite !Rmult_assoc, <- bpow_add. do 3 f_equal. lia.
Qed.

(** The error of a rounded product. *)
Lemma SFmul_error (x y : spec_float) :
  SF_finite x = true -> SF_finite y = true -> SF_finite (SF64mul x y) = true ->
  Rabs (SF2R (SF64mul x y) - SF2R x * SF2R y)
    <= bpow (-50) * Rabs (SF2R x * SF2R y) + bpow (-1072).
Proof.
  pose proof (bpow_pos (-1072)).
  destruct x as [sx|sx| |sx mx ex], y as [sy|sy| |sy my ey]; try discriminate;
    intros _ _;
    try (intros _; cbn [SF64mul SFmul SF2R];
         rewrite ?Rmult_0_l, ?Rmult_0_r, Rminus_diag, Rabs_R0; lra).
  unfold SF64mul, SFmul. intros Hfin.
  pose proof (binary_round_aux_error (xorb sx sy) (Zpos (mx * my)) (ex + ey)
                ltac:(lia) Hfin) as Herr.
  cbn [SF2R].
  assert (Hv : IZR (cond_Zopp sx (Zpos mx)) * bpow ex *
               (IZR (cond_Zopp sy (Zpos my)) * bpow ey)
               = IZR (cond_Zopp (xorb sx sy) (Zpos (mx * my))) * bpow (ex + ey)).
  { rewrite !IZR_cond_Zopp, Pos2Z.inj_mul, mult_IZR, bpow_add.
    destruct sx, sy; cbn [xorb]; ring. }
  rewrite Hv.
  assert (Ha : Rabs (IZR (cond_Zopp (xorb sx sy) (Zpos (mx * my))) * bpow (ex + ey))
               = IZR (Zpos (mx * my)) * bpow (ex + ey)).
  { pose proof (bpow_pos (ex + ey)).
    assert (0 < IZR (Zpos (mx * my))) by (apply IZR_lt; lia).
    rewrite IZR_cond_Zopp. destruct (xorb sx sy).
    - rewrite Rabs_left by nra. lra.
    - rewrite Rabs_pos_eq by nra. lra. }
  rewrite Ha. exact Herr.
Qed.

(** The error of a rounded sum. *)
Lemma SFadd_error (x y : spec_float) :
  valid_binary x = true -> valid_binary y = true ->
  SF_finite x = true -> SF_finite y = true -> SF_finite (SF64add x y) = true ->
  Rabs (SF2R (SF64add x y) - (SF2R x + SF2R y))
    <= bpow (-50) * Rabs (SF2R x + SF2R y) + bpow (-1072).
Proof.
  pose proof (bpow_pos (-1072)). pose proof (bpow_pos (-50)).
  assert (Hexact : forall v : R, Rabs (v - v) <= bpow (-50) * Rabs v + bpow (-1072)).
  { intros v. rewrite Rminus_diag, Rabs_R0. pose proof (Rabs_pos v). nra. }
  destruct x as [sx|sx| |sx mx ex], y as [sy|sy| |sy my ey]; try discriminate;
    intros Vx Vy _ _.
  - intros _. unfold SF64add, SFadd.
    destruct sx, sy; cbn [SF2R]; rewrite Rplus_0_l; apply Hexact.
  - intros _. cbn [SF64add SFadd SF2R]. rewrite Rplus_0_l. apply Hexact.
  - intros _. cbn [SF64add SFadd SF2R]. rewrite Rplus_0_r. apply Hexact.
  - cbn [valid_binary] in Vx, Vy.
    unfold SF64add, SFadd.
    fold (aligned (Z.min ex ey) sx mx ex). fold (aligned (Z.min ex ey) sy my ey).
    intros Hfin. apply binary_normalize_error in Hfin.
    rewrite plus_IZR, Rmult_plus_distr_r, !aligned_R in Hfin by lia.
    exact Hfin.
Qed.

Lemma SF2R_opp (x : spec_float) : SF2R (SFopp x) = - SF2R x.
Proof.
  destruct x as [s|s| |s m e]; cbn [SFopp SF2R]; try lra.
  rewrite !IZR_cond_Zopp. destruct s; cbn [negb]; lra.
Qed.

Lemma SF2R_abs (x : spec_float) : SF2R (SFabs x) = Rabs (SF2R x).
Proof.
  destruct x as [s|s| |s m e]; cbn [SFabs SF2R]; try (rewrite Rabs_R0; reflexivity).
  pose proof (bpow_pos e). assert (0 < IZR (Zpos m)) by (apply IZR_lt; lia).
  rewrite !IZR_cond_Zopp. destruct s.
  - rewrite Rabs_left by nra. lra.
  - rewrite Rabs_pos_eq by nra. lra.
Qed.

(** The error of a rounded difference. *)
Lemma SFsub_error (x y : spec_float) :
  valid_binary x = true -> valid_binary y = true ->
  SF_finite x = true -> SF_finite y = true -> SF_finite (SF64sub x y) = true ->
  Rabs (SF2R (SF64sub x y) - (SF2R x - SF2R y))
    <= bpow (-50) * Rabs (SF2R x - SF2R y) + bpow (-1072).
Proof.
  pose proof (bpow_pos (-1072)). pose proof (bpow_pos (-50)).
  assert (Hexact : forall v : R, Rabs (v - v) <= bpow (-50) * Rabs v + bpow (-1072)).
  { intros v. rewrite Rminus_diag, Rabs_R0. pose proof (Rabs_pos v). nra. }
  destruct x as [sx|sx| |sx mx ex], y as [sy|sy| |sy my ey]; try discriminate;
    intros Vx Vy _ _.
  - intros _. unfold SF64sub, SFsub.
    destruct sx, sy; cbn [SF2R]; rewrite Rminus_0_r; apply Hexact.
  - intros _. unfold SF64sub, SFsub.
    change (S754_finite (negb sy) my ey) with (SFopp (S754_finite sy my ey)).
    rewrite SF2R_opp. cbn [SF2R]. rewrite Rminus_0_l. apply Hexact.
  - intros _. cbn [SF64sub SFsub SF2R]. rewrite Rminus_0_r. apply Hexact.
  - cbn [valid_binary] in Vx, Vy.
    unfold SF64sub, SFsub.
    fold (aligned (Z.min ex ey) sx mx ex). fold (aligned (Z.min ex ey) sy my ey).
    intros Hfin. apply binary_normalize_error in Hfin.
    rewrite minus_IZR, Rmult_minus_distr_r, !aligned_R in Hfin by lia.
    exact Hfin.
Qed.

(** Comparison of finite doubles is comparison of their values. *)
Lemma SFleb_R (x y : spec_float) :
  valid_binary x = true -> valid_binary y = true ->
  SF_finite x = true -> SF_finite y = true ->
  SFleb x y = true <-> SF2R x <= SF2R y.
Proof.
  destruct x as [sx|sx| |sx mx ex], y as [sy|sy| |sy my ey]; try discriminate;
    intros Vx Vy _ _.
  - cbn. lra.
  - pose proof (bpow_pos ey). assert (0 < IZR (Zpos my)) by (apply IZR_lt; lia).
    assert (0 < IZR (Zpos my) * bpow ey) by nra.
    unfold SFleb. cbn [SFcompare SF2R]. rewrite IZR_cond_Zopp, Rmult_assoc.
    destruct sy; cbn [SFcompare]; split; intros Hc;
      try discriminate; try reflexivity; try lra; exfalso; lra.
  - pose proof (bpow_pos ex). assert (0 < IZR (Zpos mx)) by (apply IZR_lt; lia).
    assert (0 < IZR (Zpos mx) * bpow ex) by nra.
    unfold SFleb. cbn [SFcompare SF2R]. rewrite IZR_cond_Zopp, Rmult_assoc.
    destruct sx; cbn [SFcompare]; split; intros Hc;
      try discriminate; try reflexivity; try lra; exfalso; lra.
  - cbn [valid_binary] in Vx, Vy. unfold SFleb.
    rewrite (SFcompare_aligned sx mx ex sy my ey Vx Vy).
    rewrite <- (aligned_R (Z.min ex ey) sx mx ex), <- (aligned_R (Z.min ex ey) sy my ey) by lia.
    set (X := aligned (Z.min ex ey) sx mx ex). set (Y := aligned (Z.min ex ey) sy my ey).
    pose proof (bpow_pos (Z.min ex ey)) as Hp.
    destruct (Z.compare_spec X Y) as [Heq|Hlt|Hgt].
    + rewrite Heq. split; [intros _; apply Rle_refl|reflexivity].
    + apply IZR_lt in Hlt. split; [intros _; nra|reflexivity].
    + apply IZR_lt in Hgt. split; [discriminate|intros Hc; exfalso; nra].
Qed.
End IEEE_operation_error.

(** * Rounding errors, on primitive floats *)

Section Float_error.
Local Open Scope R_scope.


Lemma B2R_opp (x : float) : B2R (- x) = - B2R x.
Proof. unfold B2R. rewrite opp_spec. apply SF2R_opp. Qed.

Lemma B2R_abs (x : float) : B2R (abs x) = Rabs (B2R x).
Proof. unfold B2R. rewrite abs_spec. apply SF2R_abs. Qed.

Lemma leb_R (x y : float) :
  is_finite x = true -> is_finite y = true ->
  (x <=? y)%float = true <-> B2R x <= B2R y.
Proof.
  intros Hx%Prim2SF_finite Hy%Prim2SF_finite. rewrite FloatAxioms.leb_spec.
  apply SFleb_R; auto using Prim2SF_valid.
Qed.

Lemma mul_error (x y : float) :
  is_finite x = true -> is_finite y = true -> is_finite (x * y) = true ->
  Rabs (B2R (x * y) - B2R x * B2R y)
    <= bpow (-50) * Rabs (B2R x * B2R y) + bpow (-1072).
Proof.
  intros Hx%Prim2SF_finite Hy%Prim2SF_finite Hxy%Prim2SF_finite.
  unfold B2R. rewrite mul_spec in *. by apply SFmul_error.
Qed.

Lemma add_error (x y : float) :
  is_finite x = true -> is_finite y = true -> is_finite (x + y) = true ->
  Rabs (B2R (x + y) - (B2R x + B2R y))
    <= bpow (-50) * Rabs (B2R x + B2R y) + bpow (-1072).
Proof.
  intros Hx%Prim2SF_finite Hy%Prim2SF_finite Hxy%Prim2SF_finite.
  unfold B2R. rewrite add_spec in *. by apply SFadd_error; auto using Prim2SF_valid.
Qed.

Lemma sub_error (x y : float) :
  is_finite x = true -> is_finite y = true -> is_finite (x - y) = true ->
  Rabs (B2R (x - y) - (B2R x - B2R y))
    <= bpow (-50) * Rabs (B2R x - B2R y) + bpow (-1072).
Proof.
  intros Hx%Prim2SF_finite Hy%Prim2SF_finite Hxy%Prim2SF_finite.
  unfold B2R. rewrite FloatAxioms.sub_spec in *.
  by apply SFsub_error; auto using Prim2SF_valid.
Qed.

Lemma SF_finite_is_finite (x : float) :
  SF_finite (Prim2SF x) = true -> is_finite x = true.
Proof.
  unfold is_finite, is_nan, is_infinity.
  rewrite !FloatAxioms.eqb_spec, abs_spec.
  change (Prim2SF infinity) with (S754_infinity false).
  destruct (Prim2SF x) as [s|s| |s m e]; try discriminate; intros _.
  - reflexivity.
  - unfold SFeqb, SFcompare. rewrite Z.compare_refl, Pos.compare_cont_refl.
    by destruct s.
Qed.

(** A double between two finite doubles is finite. *)
Lemma between_is_finite (lo hi x : float) :
  is_finite lo = true -> is_finite hi = true ->
  (lo <=? x)%float = true -> (x <=? hi)%float = true -> is_finite x = true.
Proof.
  intros Hlo%Prim2SF_finite Hhi%Prim2SF_finite.
  rewrite !FloatAxioms.leb_spec. intros H1 H2.
  apply SF_finite_is_finite.
  destruct (Prim2SF x) as [s|s| |s m e]; try reflexivity.
  - destruct s.
    + destruct (Prim2SF lo) as [sl|sl| |sl ml el]; try discriminate;
        destruct sl; discriminate.
    + destruct (Prim2SF hi) as [sh|sh| |sh mh eh]; try discriminate;
        destruct sh; discriminate.
  - destruct (Prim2SF lo); discriminate.
Qed.
End Float_error.

(** * Tracking the value of a double through a computation *)

Section Error_tracking.
Local Open Scope R_scope.


Lemma bpow_opp_le (k : Z) (q : R) :
  (0 <= k)%Z -> 0 < q -> 1 <= q * IZR (2 ^ k) -> bpow (- k) <= q.
Proof.
  intros Hk Hq Hle. pose proof (bpow_pos (- k)) as Hp.
  assert (Hone : bpow (- k) * IZR (2 ^ k) = 1).
  { rewrite <- bpow_IZR, <- bpow_add by lia.
    replace (- k + k)%Z with 0%Z by lia. reflexivity. }
  assert (0 < IZR (2 ^ k)) by (apply IZR_lt, Z.pow_pos_nonneg; lia).
  nra.
Qed.

Lemma bpow_50_eps : bpow (-50) <= eps.
Proof.
  apply (bpow_opp_le 50); [lia|unfold eps; lra|].
  change (2 ^ 50)%Z with 1125899906842624%Z. unfold eps. lra.
Qed.

Lemma bpow_1072_eps : bpow (-1072) <= eps.
Proof.
  apply Rle_trans with (bpow (-50)); [apply bpow_le; lia|apply bpow_50_eps].
Qed.


Lemma tracks_exact (x : float) (k : Z) (b : R) :
  below k x -> Rabs (B2R x) <= b -> tracks x k (B2R x) b 0.
Proof.
  intros Hk Hb. split; [assumption|]. split; [assumption|].
  rewrite Rminus_diag, Rabs_R0. lra.
Qed.

Lemma tracks_weaken (x : float) (k k' : Z) (r r' b b' e e' : R) :
  tracks x k r b e -> (k <= k')%Z -> r = r' -> b <= b' -> e <= e' ->
  tracks x k' r' b' e'.
Proof.
  intros (Hk & Hb & He) Hkk <- Hbb Hee.
  split; [by apply (below_le k)|]. split; lra.
Qed.

Lemma tracks_opp (x : float) (k : Z) (r b e : R) :
  tracks x k r b e -> tracks (- x) k (- r) b e.
Proof.
  intros (Hk & Hb & He). split; [by apply opp_below|].
  rewrite Rabs_Ropp, B2R_opp. split; [assumption|].
  replace (- B2R x - - r) with (- (B2R x - r)) by lra.
  by rewrite Rabs_Ropp.
Qed.

Lemma tracked_magnitude (x : float) (k : Z) (r b e : R) :
  tracks x k r b e -> Rabs (B2R x) <= b + e.
Proof.
  intros (_ & Hb & He).
  replace (B2R x) with (r + (B2R x - r)) by lra.
  eapply Rle_trans; [apply Rabs_triang|lra].
Qed.

Lemma tracks_mul (h : R) (x y : float) (kx ky : Z) (rx ry b_x b_y ex ey : R) :
  tracks x kx rx b_x ex -> tracks y ky ry b_y ey ->
  (-1074 <= kx + ky)%Z -> (kx + ky + 1 <= 1024)%Z -> bpow (-1072) <= h ->
  tracks (x * y) (kx + ky + 1) (rx * ry) (b_x * b_y)
    (ex * b_y + ey * b_x + ex * ey + eps * ((b_x + ex) * (b_y + ey)) + h).
Proof.
  intros Hx Hy Hlo Hhi Hh.
  pose proof (tracked_magnitude _ _ _ _ _ Hx) as Mx.
  pose proof (tracked_magnitude _ _ _ _ _ Hy) as My.
  destruct Hx as (Kx & Bx & Ex), Hy as (Ky & By & Ey).
  pose proof (mul_below _ _ _ _ Kx Ky Hlo Hhi) as Kxy.
  pose proof (mul_error x y (below_is_finite _ _ Kx) (below_is_finite _ _ Ky)
                (below_is_finite _ _ Kxy)) as Err.
  pose proof (Rabs_pos rx). pose proof (Rabs_pos ry).
  pose proof (Rabs_pos (B2R x)) as Px. pose proof (Rabs_pos (B2R y)) as Py.
  pose proof (Rabs_pos (B2R x - rx)). pose proof (Rabs_pos (B2R y - ry)).
  pose proof bpow_50_eps as Heps. pose proof (bpow_pos (-50)).
  split; [assumption|]. split.
  - rewrite Rabs_mult. apply Rmult_le_compat; assumption.
  - rewrite Rabs_mult in Err.
    assert (Hprod : Rabs (B2R x) * Rabs (B2R y) <= (b_x + ex) * (b_y + ey))
      by (apply Rmult_le_compat; assumption).
    assert (Hdiff : Rabs (B2R x * B2R y - rx * ry) <= ex * b_y + ey * b_x + ex * ey).
    { replace (B2R x * B2R y - rx * ry)
        with ((B2R x - rx) * B2R y + rx * (B2R y - ry)) by ring.
      eapply Rle_trans; [apply Rabs_triang|]. rewrite !Rabs_mult.
      assert (Rabs (B2R x - rx) * Rabs (B2R y) <= ex * (b_y + ey))
        by (apply Rmult_le_compat; assumption).
      assert (Rabs rx * Rabs (B2R y - ry) <= b_x * ey)
        by (apply Rmult_le_compat; assumption).
      lra. }
    replace (B2R (x * y) - rx * ry)
      with ((B2R (x * y) - B2R x * B2R y) + (B2R x * B2R y - rx * ry)) by ring.
    eapply Rle_trans; [apply Rabs_triang|].
    assert (bpow (-50) * (Rabs (B2R x) * Rabs (B2R y))
            <= eps * ((b_x + ex) * (b_y + ey))).
    { apply Rmult_le_compat; try lra. apply Rmult_le_pos; assumption. }
    lra.
Qed.

Lemma tracks_add (h : R) (x y : float) (kx ky : Z) (rx ry b_x b_y ex ey : R) :
  tracks x kx rx b_x ex -> tracks y ky ry b_y ey ->
  (-1074 <= Z.max kx ky)%Z -> (Z.max kx ky + 2 <= 1024)%Z -> bpow (-1072) <= h ->
  tracks (x + y) (Z.max kx ky + 2) (rx + ry) (b_x + b_y)
    (ex + ey + eps * (b_x + ex + b_y + ey) + h).
Proof.
  intros Hx Hy Hlo Hhi Hh.
  pose proof (tracked_magnitude _ _ _ _ _ Hx) as Mx.
  pose proof (tracked_magnitude _ _ _ _ _ Hy) as My.
  destruct Hx as (Kx & Bx & Ex), Hy as (Ky & By & Ey).
  pose proof (add_below _ _ _ _ Kx Ky Hlo Hhi) as Kxy.
  pose proof (add_error x y (below_is_finite _ _ Kx) (below_is_finite _ _ Ky)
                (below_is_finite _ _ Kxy)) as Err.
  pose proof bpow_50_eps as Heps. pose proof (bpow_pos (-50)).
  pose proof (Rabs_triang (B2R x) (B2R y)) as Hsum.
  pose proof (Rabs_pos (B2R x + B2R y)).
  split; [assumption|]. split.
  - eapply Rle_trans; [apply Rabs_triang|lra].
  - replace (B2R (x + y) - (rx + ry))
      with ((B2R (x + y) - (B2R x + B2R y)) + ((B2R x - rx) + (B2R y - ry))) by ring.
    eapply Rle_trans; [apply Rabs_triang|].
    pose proof (Rabs_triang (B2R x - rx) (B2R y - ry)).
    assert (bpow (-50) * Rabs (B2R x + B2R y) <= eps * (b_x + ex + b_y + ey)).
    { apply Rmult_le_compat; lra. }
    lra.
Qed.

Lemma tracks_sub (h : R) (x y : float) (kx ky : Z) (rx ry b_x b_y ex ey : R) :
  tracks x kx rx b_x ex -> tracks y ky ry b_y ey ->
  (-1074 <= Z.max kx ky)%Z -> (Z.max kx ky + 2 <= 1024)%Z -> bpow (-1072) <= h ->
  tracks (x - y) (Z.max kx ky + 2) (rx - ry) (b_x + b_y)
    (ex + ey + eps * (b_x + ex + b_y + ey) + h).
Proof.
  intros Hx Hy Hlo Hhi Hh.
  pose proof (tracked_magnitude _ _ _ _ _ Hx) as Mx.
  pose proof (tracked_magnitude _ _ _ _ _ Hy) as My.
  destruct Hx as (Kx & Bx & Ex), Hy as (Ky & By & Ey).
  pose proof (sub_below _ _ _ _ Kx Ky Hlo Hhi) as Kxy.
  pose proof (sub_error x y (below_is_finite _ _ Kx) (below_is_finite _ _ Ky)
                (below_is_finite _ _ Kxy)) as Err.
  pose proof bpow_50_eps as Heps. pose proof (bpow_pos (-50)).
  pose proof (Rabs_triang (B2R x) (- B2R y)) as Hsum. rewrite Rabs_Ropp in Hsum.
  change (B2R x + - B2R y) with (B2R x - B2R y) in Hsum.
  pose proof (Rabs_pos (B2R x - B2R y)).
  split; [assumption|]. split.
  - unfold Rminus at 1. eapply Rle_trans; [apply Rabs_triang|]. rewrite Rabs_Ropp. lra.
  - replace (B2R (x - y) - (rx - ry))
      with ((B2R (x - y) - (B2R x - B2R y)) + ((B2R x - rx) + - (B2R y - ry))) by ring.
    eapply Rle_trans; [apply Rabs_triang|].
    pose proof (Rabs_triang (B2R x - rx) (- (B2R y - ry))) as Ht.
    rewrite Rabs_Ropp in Ht.
    assert (bpow (-50) * Rabs (B2R x - B2R y) <= eps * (b_x + ex + b_y + ey)).
    { apply Rmult_le_compat; lra. }
    lra.
Qed.
End Error_tracking.

(** * Exact arithmetic *)

Section Exact_arithmetic.
Local Open Scope R_scope.

Lemma Q2R_lit (n : Z) (d : positive) : Q2R (n # d) = IZR n / IZR (Zpos d).
Proof. reflexivity. Qed.

Lemma exact_div_lit (x : R) (q : Q) :
  Q2R q <> 0 -> exact_div (Real x) (Real (Q2R q)) = Real (x / Q2R q).
Proof. intros Hq. unfold exact_div. by destruct (Req_dec_T (Q2R q) 0). Qed.

Lemma exact_pow_10 (y : R) :
  exact_pow (Real (Q2R 10)) (Real y) = Real (Rpower 10 y).
Proof.
  unfold exact_pow. rewrite Q2R_lit.
  replace (10 / 1) with 10 by lra.
  destruct (Rlt_dec 0 10) as [_|Hn]; [done|]. exfalso; lra.
Qed.




End Exact_arithmetic.

Section Exact_tensor.
Local Open Scope R_scope.

Lemma exact_M0 (m : R) :
  Tensors.M0 (Real m) = Real (Rpower 10 (1.5 * m + 9.1)).
Proof.
  unfold Tensors.M0. cbn [Math_pow num js_add js_mul Exact ExactMath exact_lift2].
  by rewrite exact_pow_10.
Qed.

Lemma exact_deg2rad (d : R) :
  Tensors.deg2rad (Real d) = Real (d * PI / 180).
Proof.
  unfold Tensors.deg2rad. cbn [Math_PI num js_div js_mul Exact ExactMath exact_lift2].
  rewrite exact_div_lit; rewrite Q2R_lit; simpl; [f_equal|]; lra.
Qed.


End Exact_tensor.

Section Exact_tensor_values.
Local Open Scope R_scope.
Variables strike dip rake magnitudeMw : R.

Let s := strike * PI / 180.
Let d := dip * PI / 180.
Let r := rake * PI / 180.
Let m0 := Rpower 10 (1.5 * magnitudeMw + 9.1).

(** On real inputs every component is a real number: the closed form. *)
Lemma exact_tensor :
  Tensors.strikeDipRakeToMomentTensor
    (Real strike) (Real dip) (Real rake) (Real magnitudeMw) =
  {| Mrr := Real (- m0 * (sin d * cos r * sin (2 * s) + sin (2 * d) * sin r * sin s * sin s));
     Mtt := Real (m0 * (sin d * cos r * sin (2 * s) - sin (2 * d) * sin r * cos s * cos s));
     Mpp := Real (m0 * sin (2 * d) * sin r);
     Mrp := Real (- m0 * (cos d * cos r * cos s + cos (2 * d) * sin r * sin s));
     Mtp := Real (- m0 * (cos d * cos r * sin s - cos (2 * d) * sin r * cos s));
     Mrt := Real (- m0 * (sin d * cos r * cos (2 * s) + 0.5 * sin (2 * d) * sin r * sin (2 * s))) |}.
Proof.
  unfold Tensors.strikeDipRakeToMomentTensor.
  rewrite exact_M0, !exact_deg2rad.
  cbn [Math_cos Math_sin num js_add js_sub js_mul js_neg Exact ExactMath exact_lift1 exact_lift2].
  replace (Q2R 2) with 2 by (rewrite Q2R_lit; simpl; lra).
  reflexivity.
Qed.

Lemma m0_positive : 0 < m0.
Proof. unfold m0, Rpower. apply exp_pos. Qed.

Lemma unit_product (a b : R) : Rabs a <= 1 -> Rabs b <= 1 -> Rabs (a * b) <= 1.
Proof.
  intros Ha Hb. rewrite Rabs_mult.
  replace 1 with (1 * 1) by lra.
  apply Rmult_le_compat; auto using Rabs_pos.
Qed.

Lemma Rabs_le_between (a b : R) : Rabs a <= b -> - b <= a <= b.
Proof. unfold Rabs. destruct (Rcase_abs a); lra. Qed.

Lemma sin_unit (a : R) : Rabs (sin a) <= 1.
Proof. apply Rabs_le. pose proof (SIN_bound a). lra. Qed.

Lemma cos_unit (a : R) : Rabs (cos a) <= 1.
Proof. apply Rabs_le. pose proof (COS_bound a). lra. Qed.

Lemma scaled_pair_bound (sg a b : R) :
  Rabs a <= 1 -> Rabs b <= 1 ->
  (sg = m0 \/ sg = - m0) -> Rabs (sg * (a + b)) <= 2 * m0 /\ Rabs (sg * (a - b)) <= 2 * m0.
Proof.
  intros Ha Hb Hsg. pose proof m0_positive.
  apply Rabs_le_between in Ha. apply Rabs_le_between in Hb.
  split; apply Rabs_le; destruct Hsg as [-> | ->]; nra.
Qed.
End Exact_tensor_values.

Section Exact_linearity.
Import Spec.




End Exact_linearity.

(** * The eigen-pair sort and the radiation amplitude, in doubles *)

Section Doubles.
Local Open Scope float_scope.

Lemma float_lit_0 : float_lit 0 = 0.
Proof. reflexivity. Qed.

(** The comparator [(a, b) => a.val - b.val] asks for a swap exactly when
    the earlier value is the larger one. *)
Lemma comparator_positive (a b : BeachBallDiagram.EigenPair float) :
  is_nan (BeachBallDiagram.val a) = false ->
  is_nan (BeachBallDiagram.val b) = false ->
  @js_lt float Float64 (@num float Float64 0)
    (@js_sub float Float64 (BeachBallDiagram.val a) (BeachBallDiagram.val b)) =
  (BeachBallDiagram.val b <? BeachBallDiagram.val a).
Proof.
  intros Ha Hb. cbn [js_lt js_sub num Float64 FloatMath].
  rewrite float_lit_0. by apply sub_positive.
Qed.


Section Three.
Variables (v0 v1 v2 : float) (eigenvectors : list (list float)).
Hypotheses (N0 : is_nan v0 = false) (N1 : is_nan v1 = false)
           (N2 : is_nan v2 = false).

Let p (i : nat) (v : float) : BeachBallDiagram.EigenPair float :=
  {| BeachBallDiagram.val := v;
     BeachBallDiagram.vec := (fun row => at_index row i) <$> eigenvectors |}.





End Three.

(** C4. For every moment tensor [M] and direction [d] the radiation
    amplitude at [-d] is the same double as at [d]: each product of the
    quadratic form meets the two sign flips of [-d], and an IEEE product
    depends on the signs of its factors through the sign of its result
    only. *)
Theorem amplitude_negate (mt : MomentTensor float) (dir : THREE.Vector3 float) :
  BeachBallDiagram.amplitude mt (THREE.negate dir) =
  BeachBallDiagram.amplitude mt dir.
Proof.
  unfold BeachBallDiagram.amplitude, THREE.negate.
  cbn [THREE.x THREE.y THREE.z js_mul js_add js_neg num Float64 FloatMath].
  by rewrite !mul_opp_r, !mul_opp_l, !opp_involutive.
Qed.
End Doubles.

(** * Overflow of the seismic moment, in doubles *)

Section Overflow.
Variable L : Libm.
Hypothesis HL : ecma_libm L.
Local Open Scope float_scope.

(** [Mw = 1000] gives the exponent [1509.1], far beyond the range. *)
Lemma M0_overflow : Tensors.M0 (math := FloatMath L) 1000 = infinity.
Proof using HL.
  unfold Tensors.M0. cbn [Math_pow num js_add js_mul Float64 FloatMath].
  change (float_lit 10) with 10.
  apply (ecma_pow_overflow L HL). reflexivity.
Qed.

Lemma tensor_overflow :
  Tensors.strikeDipRakeToMomentTensor (math := FloatMath L) 0 0 0 1000 =
    {| Mrr := nan; Mtt := nan; Mpp := nan;
       Mrp := neg_infinity; Mtp := nan; Mrt := nan |}.
Proof using HL.
  unfold Tensors.strikeDipRakeToMomentTensor. rewrite M0_overflow.
  unfold Tensors.deg2rad.
  cbn [Math_cos Math_sin Math_PI num js_add js_sub js_mul js_div js_neg Float64 FloatMath].
  change (float_lit 2) with 2. change (float_lit 180) with 180.
  change (float_lit 0.5) with 0.5.
  change (0 * 0x1.921fb54442d18p+1 / 180) with 0.
  change (2 * 0) with 0.
  rewrite (ecma_sin_zero L HL), (ecma_cos_zero L HL).
  reflexivity.
Qed.




End Overflow.

(** The properties assumed of a [Math] library are consistent. *)
Lemma ecma_libm_at_zero : ecma_libm libm_at_zero.
Proof.
  split; try reflexivity.
  - intros y Hy. cbn [libm_pow libm_at_zero].
    rewrite Hy, (leb_309_308 y Hy), andb_false_r. reflexivity.
  - intros y H0 H308. cbn [libm_pow libm_at_zero].
    rewrite H0, H308. reflexivity.
Qed.

Lemma libm_unit_range_at_zero : libm_unit_range libm_at_zero.
Proof.
  intros x _. cbn [libm_sin libm_cos libm_at_zero]. split; [|reflexivity].
  destruct (PrimFloat.is_zero x) eqn:Hz; [|reflexivity].
  unfold PrimFloat.is_zero in Hz.
  rewrite FloatAxioms.eqb_spec in Hz. rewrite FloatAxioms.leb_spec, abs_spec.
  destruct (Prim2SF x) as [s|s| |s m e]; try (by destruct s); discriminate Hz.
Qed.

(** * The moment tensor within the range of doubles *)

Section Range.
Variable L : Libm.
Hypothesis unit_range : libm_unit_range L.
Local Open Scope float_scope.

Lemma Prim2SF_one : Prim2SF 1 = S754_finite false 4503599627370496 (-52).
Proof. vm_compute. reflexivity. Qed.

Lemma Prim2SF_2p1000 : Prim2SF 0x1p1000 = S754_finite false 4503599627370496 948.
Proof. vm_compute. reflexivity. Qed.

Lemma Prim2SF_180 : Prim2SF (float_lit 180) = S754_finite false 6333186975989760 (-45).
Proof. vm_compute. reflexivity. Qed.

Lemma below_lit_2 : below 2 (float_lit 2).
Proof. unfold below. vm_compute. discriminate. Qed.

Lemma below_lit_half : below 0 (float_lit 0.5).
Proof. unfold below. vm_compute. discriminate. Qed.

Lemma below_PI : below 2 0x1.921fb54442d18p+1.
Proof. unfold below. vm_compute. discriminate. Qed.

Lemma sin_below (k : Z) (x : float) : below k x -> below 1 (libm_sin L x).
Proof using unit_range.
  intros Hx%below_is_finite. destruct (unit_range x Hx) as [Hs _].
  exact (leb_abs_below _ _ _ _ Prim2SF_one Hs).
Qed.

Lemma cos_below (k : Z) (x : float) : below k x -> below 1 (libm_cos L x).
Proof using unit_range.
  intros Hx%below_is_finite. destruct (unit_range x Hx) as [_ Hc].
  exact (leb_abs_below _ _ _ _ Prim2SF_one Hc).
Qed.

Lemma below_2p1000 (x : float) : (abs x <=? 0x1p1000) = true -> below 1001 x.
Proof. intros Hx. exact (leb_abs_below _ _ _ _ Prim2SF_2p1000 Hx). Qed.

(** An angle of at most [2^1000] degrees is below [2^998] radians. *)
Lemma deg2rad_below (x : float) :
  below 1001 x -> below 998 (Tensors.deg2rad (math := FloatMath L) x).
Proof.
  intros Hx. unfold Tensors.deg2rad.
  cbn [Math_PI num js_mul js_div Float64 FloatMath].
  apply (div_below 1004 8 _ _ _ _ _ (mul_below 1001 2 _ _ Hx below_PI ltac:(lia) ltac:(lia))
           Prim2SF_180); [reflexivity|lia|lia].
Qed.

(** Magnitude class of an expression built from the operators of doubles,
    the sine, the cosine and classified leaves. *)
Ltac magnitude :=
  lazymatch goal with
  | H : below _ ?x |- below _ ?x => exact H
  | |- below _ (PrimFloat.mul _ _) => eapply mul_below; [magnitude|magnitude|lia|lia]
  | |- below _ (PrimFloat.add _ _) => eapply add_below; [magnitude|magnitude|lia|lia]
  | |- below _ (PrimFloat.sub _ _) => eapply sub_below; [magnitude|magnitude|lia|lia]
  | |- below _ (PrimFloat.opp _) => eapply opp_below; magnitude
  | |- below _ (libm_sin L _) => eapply sin_below; magnitude
  | |- below _ (libm_cos L _) => eapply cos_below; magnitude
  end.

Ltac finite_component :=
  apply (below_is_finite 1024); eapply below_le; [magnitude|lia].

Lemma tensor_finite_of_classes (strike dip rake magnitudeMw : float) :
  below 1001 strike -> below 1001 dip -> below 1001 rake ->
  below 1001 (Tensors.M0 (math := FloatMath L) magnitudeMw) ->
  finite_tensor
    (Tensors.strikeDipRakeToMomentTensor (math := FloatMath L)
       strike dip rake magnitudeMw) = true.
Proof using unit_range.
  intros Hs%deg2rad_below Hd%deg2rad_below Hr%deg2rad_below Hm.
  pose proof below_lit_2 as H2. pose proof below_lit_half as Hh.
  unfold finite_tensor, Tensors.strikeDipRakeToMomentTensor.
  cbn [Mrr Mtt Mpp Mrp Mtp Mrt Math_cos Math_sin num js_add js_sub js_mul
       js_neg Float64 FloatMath].
  rewrite !andb_true_iff. repeat split; finite_component.
Qed.
End Range.

(** * The trace of the moment tensor within the range of doubles *)

Section Float_constants.
Local Open Scope R_scope.

Lemma bpow_neg (p : positive) : bpow (Zneg p) = / IZR (2 ^ Zpos p).
Proof.
  rewrite <- bpow_IZR by lia. change (Zneg p) with (- Zpos p)%Z.
  apply powerRZ_neg'.
Qed.

Lemma SF2R_pow2 (e : Z) : SF2R (S754_finite false 4503599627370496 e) = bpow (52 + e).
Proof.
  cbn [SF2R cond_Zopp]. rewrite bpow_add, (bpow_IZR 52) by lia. reflexivity.
Qed.

Lemma B2R_one : B2R 1 = 1.
Proof.
  unfold B2R. rewrite Prim2SF_one, SF2R_pow2. reflexivity.
Qed.

Lemma B2R_2p1000 : B2R 0x1p1000 = bpow 1000.
Proof. unfold B2R. rewrite Prim2SF_2p1000, SF2R_pow2. reflexivity. Qed.

Lemma Prim2SF_2pm900 : Prim2SF 0x1p-900 = S754_finite false 4503599627370496 (-952).
Proof. vm_compute. reflexivity. Qed.

Lemma B2R_2pm900 : B2R 0x1p-900 = bpow (-900).
Proof. unfold B2R. rewrite Prim2SF_2pm900, SF2R_pow2. reflexivity. Qed.

Lemma Prim2SF_millionth :
  Prim2SF (float_lit 0.000001) = S754_finite false 4722366482869645 (-72).
Proof. vm_compute. reflexivity. Qed.

Lemma B2R_millionth :
  B2R (float_lit 0.000001) = 4722366482869645 / 4722366482869645213696.
Proof.
  unfold B2R. rewrite Prim2SF_millionth. cbn [SF2R cond_Zopp].
  rewrite (bpow_neg 72). reflexivity.
Qed.

Lemma below_millionth : below (-19) (float_lit 0.000001).
Proof. unfold below. rewrite Prim2SF_millionth. cbn. lia. Qed.

Lemma abs_below (k : Z) (x : float) : below k x -> below k (abs x).
Proof.
  unfold below. rewrite abs_spec. by destruct (Prim2SF x).
Qed.

(** Below [2^-900], the absolute error [2^-1072] of an operation is
    within the relative one. *)
Lemma subnormal_error_relative (m : R) : bpow (-900) <= m -> bpow (-1072) <= eps * m.
Proof.
  intros Hm. replace (-1072)%Z with (-172 + -900)%Z by lia. rewrite bpow_add.
  pose proof (bpow_pos (-900)). pose proof (bpow_pos (-172)).
  assert (bpow (-172) <= eps).
  { apply Rle_trans with (bpow (-50)); [apply bpow_le; lia|apply bpow_50_eps]. }
  nra.
Qed.
End Float_constants.

Section Trace_in_range.
Variable L : Libm.
Hypothesis unit_range : libm_unit_range L.
Hypothesis pythagorean : libm_pythagorean L.
Local Open Scope R_scope.

Lemma sin_tracks (k : Z) (x : float) :
  below k x -> tracks (libm_sin L x) 1 (B2R (libm_sin L x)) 1 0.
Proof using unit_range.
  intros Hx. pose proof (sin_below L unit_range k x Hx) as Hb.
  apply tracks_exact; [assumption|].
  destruct (unit_range x (below_is_finite _ _ Hx)) as [Hs _].
  apply leb_R in Hs; [|by apply (below_is_finite 1), abs_below|reflexivity].
  by rewrite B2R_abs, B2R_one in Hs.
Qed.

Lemma cos_tracks (k : Z) (x : float) :
  below k x -> tracks (libm_cos L x) 1 (B2R (libm_cos L x)) 1 0.
Proof using unit_range.
  intros Hx. pose proof (cos_below L unit_range k x Hx) as Hb.
  apply tracks_exact; [assumption|].
  destruct (unit_range x (below_is_finite _ _ Hx)) as [_ Hc].
  apply leb_R in Hc; [|by apply (below_is_finite 1), abs_below|reflexivity].
  by rewrite B2R_abs, B2R_one in Hc.
Qed.
End Trace_in_range.

Section Trace_tolerance.
Variable L : Libm.
Hypothesis unit_range : libm_unit_range L.
Hypothesis pythagorean : libm_pythagorean L.
Local Open Scope R_scope.

Lemma abs_is_finite (x : float) : is_finite x = true -> is_finite (abs x) = true.
Proof.
  intros Hx%Prim2SF_finite. apply SF_finite_is_finite.
  rewrite abs_spec. by destruct (Prim2SF x).
Qed.

(** One tracked operation, with the error bound rounded up. *)
Ltac tracked rule h Hh :=
  eapply tracks_weaken;
  [ eapply (rule h); [eassumption|eassumption|lia|lia|exact Hh]
  | lia | try reflexivity | unfold eps; try lra | unfold eps; try lra ].

Lemma trace_tolerance_of_classes (strike dip rake M : float) :
  below 998 strike -> below 998 dip -> below 998 rake ->
  (0x1p-900 <=? M)%float = true -> (M <=? 0x1p1000)%float = true ->
  within
    (((- M) *
      (libm_sin L dip * libm_cos L rake * libm_sin L (float_lit 2 * strike) +
       libm_sin L (float_lit 2 * dip) * libm_sin L rake *
       libm_sin L strike * libm_sin L strike) +
      M *
      (libm_sin L dip * libm_cos L rake * libm_sin L (float_lit 2 * strike) -
       libm_sin L (float_lit 2 * dip) * libm_sin L rake *
       libm_cos L strike * libm_cos L strike)) +
     M * libm_sin L (float_lit 2 * dip) * libm_sin L rake)%float
    (float_lit 0.000001 * M)%float = true.
Proof using unit_range pythagorean.
  intros Hs Hd Hr Hlo Hhi.
  assert (Hfin : is_finite M = true)
    by (apply (between_is_finite 0x1p-900 0x1p1000); auto).
  apply leb_R in Hlo; [|reflexivity|assumption].
  apply leb_R in Hhi; [|assumption|reflexivity].
  rewrite B2R_2pm900 in Hlo. rewrite B2R_2p1000 in Hhi.
  set (m := B2R M) in *.
  pose proof (bpow_pos (-900)) as Hpos.
  pose proof (subnormal_error_relative m Hlo) as Hsub.
  assert (HM : tracks M 1001 m m 0).
  { apply tracks_exact.
    - apply below_2p1000. apply leb_R; [by apply abs_is_finite|reflexivity|].
      rewrite B2R_abs, B2R_2p1000. fold m. rewrite Rabs_pos_eq; lra.
    - fold m. rewrite Rabs_pos_eq; lra. }
  assert (HnM : tracks (- M) 1001 (- m) m 0) by (by apply tracks_opp).
  assert (H2s : below 1001 (float_lit 2 * strike))
    by (apply (mul_below 2 998); [apply below_lit_2|assumption|lia|lia]).
  assert (H2d : below 1001 (float_lit 2 * dip))
    by (apply (mul_below 2 998); [apply below_lit_2|assumption|lia|lia]).
  pose proof (sin_tracks L unit_range _ _ Hd) as Tsd.
  pose proof (cos_tracks L unit_range _ _ Hr) as Tcr.
  pose proof (sin_tracks L unit_range _ _ H2s) as Ts2s.
  pose proof (sin_tracks L unit_range _ _ H2d) as Ts2d.
  pose proof (sin_tracks L unit_range _ _ Hr) as Tsr.
  pose proof (sin_tracks L unit_range _ _ Hs) as Tss.
  pose proof (cos_tracks L unit_range _ _ Hs) as Tcs.
  pose proof (pythagorean strike (below_is_finite _ _ Hs)) as Hpyth.
  set (sd := libm_sin L dip) in *. set (cr := libm_cos L rake) in *.
  set (s2s := libm_sin L (float_lit 2 * strike)) in *.
  set (s2d := libm_sin L (float_lit 2 * dip)) in *.
  set (sr := libm_sin L rake) in *.
  set (ss := libm_sin L strike) in *. set (cs := libm_cos L strike) in *.
  assert (T1 : tracks (sd * cr) 3 (B2R sd * B2R cr) 1 (2 * eps))
    by tracked tracks_mul eps bpow_1072_eps.
  assert (TA : tracks (sd * cr * s2s) 5 (B2R sd * B2R cr * B2R s2s) 1 (5 * eps))
    by tracked tracks_mul eps bpow_1072_eps.
  assert (T2 : tracks (s2d * sr) 3 (B2R s2d * B2R sr) 1 (2 * eps))
    by tracked tracks_mul eps bpow_1072_eps.
  assert (T3 : tracks (s2d * sr * ss) 5 (B2R s2d * B2R sr * B2R ss) 1 (5 * eps))
    by tracked tracks_mul eps bpow_1072_eps.
  assert (TB1 : tracks (s2d * sr * ss * ss) 7
                  (B2R s2d * B2R sr * B2R ss * B2R ss) 1 (8 * eps))
    by tracked tracks_mul eps bpow_1072_eps.
  assert (T4 : tracks (s2d * sr * cs) 5 (B2R s2d * B2R sr * B2R cs) 1 (5 * eps))
    by tracked tracks_mul eps bpow_1072_eps.
  assert (TB2 : tracks (s2d * sr * cs * cs) 7
                  (B2R s2d * B2R sr * B2R cs * B2R cs) 1 (8 * eps))
    by tracked tracks_mul eps bpow_1072_eps.
  assert (TX1 : tracks (sd * cr * s2s + s2d * sr * ss * ss) 9
                  (B2R sd * B2R cr * B2R s2s + B2R s2d * B2R sr * B2R ss * B2R ss)
                  2 (17 * eps))
    by tracked tracks_add eps bpow_1072_eps.
  assert (TX2 : tracks (sd * cr * s2s - s2d * sr * cs * cs) 9
                  (B2R sd * B2R cr * B2R s2s - B2R s2d * B2R sr * B2R cs * B2R cs)
                  2 (17 * eps))
    by tracked tracks_sub eps bpow_1072_eps.
  assert (Hm0 : 0 < m) by lra.
  assert (Trr : tracks (- M * (sd * cr * s2s + s2d * sr * ss * ss)) 1011
                  (- m * (B2R sd * B2R cr * B2R s2s
                          + B2R s2d * B2R sr * B2R ss * B2R ss))
                  (2 * m) (21 * eps * m))
    by tracked tracks_mul (eps * m) Hsub.
  assert (Ttt : tracks (M * (sd * cr * s2s - s2d * sr * cs * cs)) 1011
                  (m * (B2R sd * B2R cr * B2R s2s
                        - B2R s2d * B2R sr * B2R cs * B2R cs))
                  (2 * m) (21 * eps * m))
    by tracked tracks_mul (eps * m) Hsub.
  assert (T5 : tracks (M * s2d) 1003 (m * B2R s2d) m (2 * eps * m))
    by tracked tracks_mul (eps * m) Hsub.
  assert (Tpp : tracks (M * s2d * sr) 1005 (m * B2R s2d * B2R sr) m (5 * eps * m))
    by tracked tracks_mul (eps * m) Hsub.
  assert (T6 : tracks (- M * (sd * cr * s2s + s2d * sr * ss * ss)
                       + M * (sd * cr * s2s - s2d * sr * cs * cs)) 1013
                 (- m * (B2R sd * B2R cr * B2R s2s
                          + B2R s2d * B2R sr * B2R ss * B2R ss)
                  + m * (B2R sd * B2R cr * B2R s2s
                        - B2R s2d * B2R sr * B2R cs * B2R cs))
                 (4 * m) (48 * eps * m))
    by tracked tracks_add (eps * m) Hsub.
  assert (Ttr : tracks (- M * (sd * cr * s2s + s2d * sr * ss * ss)
                        + M * (sd * cr * s2s - s2d * sr * cs * cs)
                        + M * s2d * sr) 1015
                  (m * (B2R s2d * B2R sr)
                   * (1 - (B2R ss * B2R ss + B2R cs * B2R cs)))
                  (5 * m) (60 * eps * m)).
  { tracked tracks_add (eps * m) Hsub. ring. }
  pose proof below_millionth as Hc6.
  assert (Tc6 : tracks (float_lit 0.000001) (-19) (B2R (float_lit 0.000001))
                  (1.01e-6) 0).
  { apply tracks_exact; [assumption|]. rewrite B2R_millionth.
    rewrite Rabs_pos_eq; lra. }
  assert (Ttol : tracks (float_lit 0.000001 * M) 983 (B2R (float_lit 0.000001) * m)
                   (1.01e-6 * m) (3 * eps * m))
    by tracked tracks_mul (eps * m) Hsub.
  destruct Ttr as (Ktr & _ & Etr), Ttol as (Ktol & _ & Etol).
  set (t := (- M * (sd * cr * s2s + s2d * sr * ss * ss)
             + M * (sd * cr * s2s - s2d * sr * cs * cs) + M * s2d * sr)%float) in *.
  set (tol := (float_lit 0.000001 * M)%float) in *.
  unfold within. apply leb_R;
    [by apply abs_is_finite, (below_is_finite 1015)
    |by apply (below_is_finite 983)|].
  rewrite B2R_abs. rewrite B2R_millionth in Etol.
  set (defect := 1 - (B2R ss * B2R ss + B2R cs * B2R cs)) in *.
  assert (Hdefect : Rabs defect <= 1e-7).
  { unfold defect. rewrite Rabs_minus_sym. exact Hpyth. }
  assert (Hpq : Rabs (B2R s2d * B2R sr) <= 1) by (destruct T2 as (_ & H & _); exact H).
  assert (Hexact : Rabs (m * (B2R s2d * B2R sr) * defect) <= m * 1e-7).
  { rewrite (Rabs_mult _ defect), (Rabs_mult m), (Rabs_pos_eq m) by lra.
    pose proof (Rabs_pos (B2R s2d * B2R sr)). pose proof (Rabs_pos defect).
    assert (Rabs (B2R s2d * B2R sr) * Rabs defect <= 1 * 1e-7)
      by (apply Rmult_le_compat; assumption).
    rewrite Rmult_assoc. apply Rmult_le_compat_l; lra. }
  assert (Htr : Rabs (B2R t) <= m * 1e-7 + 60 * eps * m).
  { replace (B2R t)
      with (m * (B2R s2d * B2R sr) * defect
            + (B2R t - m * (B2R s2d * B2R sr) * defect)) by ring.
    eapply Rle_trans; [apply Rabs_triang|]. lra. }
  apply Rabs_le_between in Etol. unfold eps in *. lra.
Qed.
End Trace_tolerance.

(** The degenerate library is on the unit circle. *)
Lemma libm_pythagorean_at_zero : libm_pythagorean libm_at_zero.
Proof.
  intros x _. cbn [libm_sin libm_cos libm_at_zero]. rewrite B2R_one.
  assert (Hs : B2R (if PrimFloat.is_zero x then x else 0%float) = 0%R).
  { destruct (PrimFloat.is_zero x) eqn:Hz; [|reflexivity].
    unfold PrimFloat.is_zero in Hz. rewrite FloatAxioms.eqb_spec in Hz.
    unfold B2R. destruct (Prim2SF x) as [s|s| |s m e]; try reflexivity.
    destruct s; discriminate Hz. }
  rewrite Hs.
  replace (0 * 0 + 1 * 1 - 1)%R with 0%R by ring. rewrite Rabs_R0. lra.
Qed.

(** * The synthesizer: samples, lengths, missing channels, the second copy *)

Section Synthesizer_claims.
Context {F : Type} {number : JsNumber F} {math : JsMath F}.
Local Open Scope string_scope.
Import Spec.

(** C1. For every moment tensor, azimuth and store, the synthesis succeeds
    and builds each trace sample by sample: the vertical and the radial
    trace have one sample per index of that channel's [SS] basis trace, up
    to 4000, and sample [i] is the weighted sum [ZR_sample] of sample [i]
    of the channel's four basis traces; the transverse trace likewise,
    with the weighted sum [T_sample] of sample [i] of its two basis
    traces. [generateWaveforms] runs this synthesis on the tensor built
    from its inputs and on the azimuth in radians. *)
Theorem synthesized_samples (mt : MomentTensor F) (az : F) (fetch : Store F) :
  exists out : Waveforms F,
    SeismicPlot.synthesize mt az (SeismicPlot.preload fetch) = Some out /\
    (forall inputs : Inputs F,
       SeismicPlot.generateWaveforms inputs fetch =
         SeismicPlot.synthesize
           (Tensors.strikeDipRakeToMomentTensor
              (strike inputs) (dip inputs) (rake inputs) (magnitude inputs))
           (js_div (js_mul (azimuth inputs) Math_PI) (num 180))
           (SeismicPlot.preload fetch)) /\
    (length (output_Z out) = Nat.min 4000 (length (basis fetch "ZSS")) /\
     forall i, i < length (output_Z out) ->
       output_Z out !! i =
         Some (ZR_sample mt az
                 (at_index (basis fetch "ZSS") i) (at_index (basis fetch "ZDD") i)
                 (at_index (basis fetch "ZEP") i) (at_index (basis fetch "ZDS") i))) /\
    (length (output_R out) = Nat.min 4000 (length (basis fetch "RSS")) /\
     forall i, i < length (output_R out) ->
       output_R out !! i =
         Some (ZR_sample mt az
                 (at_index (basis fetch "RSS") i) (at_index (basis fetch "RDD") i)
                 (at_index (basis fetch "REP") i) (at_index (basis fetch "RDS") i))) /\
    (length (output_T out) = Nat.min 4000 (length (basis fetch "TSS")) /\
     forall i, i < length (output_T out) ->
       output_T out !! i =
         Some (T_sample mt az
                 (at_index (basis fetch "TSS") i) (at_index (basis fetch "TDS") i))).
Proof.
  exists (synthesized mt az fetch).
  split; [apply synthesize_preload|].
  split; [intros; apply generateWaveforms_unfold|].
  unfold synthesized; cbn [output_Z output_R output_T].
  rewrite !length_take_tabulate.
  repeat split; intros i Hi; tabulated_sample.
Qed.


(** C8, as the code has it. Each output trace is cut to at most 4000
    samples and never padded: its length is the smaller of 4000 and the
    length of the channel's [SS] basis trace, so a zero-filled fallback
    (15520 samples) gives 4000. *)
Theorem output_lengths (inputs : Inputs F) (fetch : Store F) :
  exists out : Waveforms F,
    SeismicPlot.generateWaveforms inputs fetch = Some out /\
    length (output_Z out) = Nat.min 4000 (length (basis fetch "ZSS")) /\
    length (output_R out) = Nat.min 4000 (length (basis fetch "RSS")) /\
    length (output_T out) = Nat.min 4000 (length (basis fetch "TSS")) /\
    Nat.min 4000 (length (zero_trace (F := F))) = 4000%nat.
Proof.
  rewrite generateWaveforms_unfold, synthesize_preload.
  eexists; split; [reflexivity|].
  unfold synthesized; cbn [output_Z output_R output_T].
  rewrite !length_take_tabulate.
  refine (conj eq_refl (conj eq_refl (conj eq_refl _))).
  unfold zero_trace. by rewrite length_replicate.
Qed.

(** C10. The copy of [generateWaveforms] in SeismicSimulator.jsx computes
    what the one in SeismicPlot.jsx computes, on every input and store. *)
Theorem generateWaveforms_copies_agree (inputs : Inputs F) (fetch : Store F) :
  SeismicSimulator.generateWaveforms inputs fetch =
  SeismicPlot.generateWaveforms inputs fetch.
Proof.
  unfold SeismicSimulator.generateWaveforms, SeismicPlot.generateWaveforms.
  destruct inputs as [strike dip rake magnitude azimuth].
  by rewrite copy_preload, copy_synthesize.
Qed.
End Synthesizer_claims.


(** C8, as stated, fails: a store whose basis traces hold one sample gives
    output traces of one sample, not of 4000. *)
Lemma short_basis_trace_is_not_padded :
  exists out : Waveforms exact,
    SeismicPlot.generateWaveforms
      {| strike := Real 0; dip := Real 0; rake := Real 0;
         magnitude := Real 0; azimuth := Real 0 |}
      ((fun _ => Some [Real 0]) : Store exact) = Some out /\
    length (output_Z out) = 1%nat /\
    length (output_R out) = 1%nat /\
    length (output_T out) = 1%nat /\
    length (output_Z out) <> 4000%nat.
Proof.
  rewrite generateWaveforms_unfold, synthesize_preload.
  eexists; split; [reflexivity|].
  unfold Spec.synthesized; cbn [output_Z output_R output_T].
  rewrite !length_take_tabulate. unfold Spec.basis. cbn [default length].
  repeat split. discriminate.
Qed.

(** * The moment tensor: trace, finiteness, linearity in the moment *)

(** C2, as stated, fails in doubles once the seismic moment overflows:
    strike = dip = rake = 0 and Mw = 1000 give [M0 = Infinity] and
    [Mrr = -Infinity * 0 = NaN], so the trace is NaN and the comparison
    [|trace| <= 1e-6 * M0] is false, whatever the [Math] library. *)
Lemma trace_tolerance_fails_on_overflow :
  refuted_for_every_libm
    (fun L => trace_within_tolerance L 0%float 0%float 0%float 1000%float = true).
Proof.
  intros L HL. unfold trace_within_tolerance.
  rewrite tensor_overflow, M0_overflow by done.
  vm_compute. discriminate.
Qed.

(** C2 within the range of doubles. When the three angles are at most
    [2^1000] in magnitude, the seismic moment [M0 = Math.pow(10, 1.5 Mw +
    9.1)] lies between [2^-900] and [2^1000], and [Math.sin] and
    [Math.cos] return values in [[-1, 1]] that are within [1e-7] of the
    unit circle, the test [|Mrr + Mtt + Mpp| <= 1e-6 * M0] succeeds on the
    doubles the function returns. *)
Theorem trace_within_tolerance_in_range (L : Libm)
    (strike dip rake magnitudeMw : float) :
  libm_unit_range L -> libm_pythagorean L ->
  PrimFloat.leb (PrimFloat.abs strike) 0x1p1000 = true ->
  PrimFloat.leb (PrimFloat.abs dip) 0x1p1000 = true ->
  PrimFloat.leb (PrimFloat.abs rake) 0x1p1000 = true ->
  PrimFloat.leb 0x1p-900 (Tensors.M0 (math := FloatMath L) magnitudeMw) = true ->
  PrimFloat.leb (Tensors.M0 (math := FloatMath L) magnitudeMw) 0x1p1000 = true ->
  trace_within_tolerance L strike dip rake magnitudeMw = true.
Proof.
  intros HU HP Hs%below_2p1000 Hd%below_2p1000 Hr%below_2p1000 Hlo Hhi.
  apply (deg2rad_below L) in Hs, Hd, Hr.
  unfold trace_within_tolerance, Tensors.trace, Tensors.strikeDipRakeToMomentTensor.
  cbn [Mrr Mtt Mpp Math_cos Math_sin num js_add js_sub js_mul js_neg
       Float64 FloatMath].
  by apply trace_tolerance_of_classes.
Qed.

Lemma trace_within_tolerance_in_range_witness :
  libm_unit_range libm_at_zero /\ libm_pythagorean libm_at_zero /\
  trace_within_tolerance libm_at_zero 30%float 45%float 60%float 6%float = true.
Proof.
  split; [exact libm_unit_range_at_zero|].
  split; [exact libm_pythagorean_at_zero|].
  apply (trace_within_tolerance_in_range libm_at_zero 30 45 60 6
           libm_unit_range_at_zero libm_pythagorean_at_zero);
    reflexivity.
Defined.

(** The same trace in exact arithmetic: for every strike, dip, rake and
    magnitude [Mrr + Mtt + Mpp] is exactly 0, hence within [1e-6 * M0] of
    zero: the double couple is traceless. *)
Theorem exact_trace_is_zero (strike dip rake magnitudeMw : R) :
  Tensors.trace
    (Tensors.strikeDipRakeToMomentTensor
       (Real strike) (Real dip) (Real rake) (Real magnitudeMw)) = Real 0 /\
  exists m0 : R,
    Tensors.M0 (Real magnitudeMw) = Real m0 /\
    (Rabs 0 <= 0.000001 * m0)%R.
Proof.
  rewrite exact_tensor, exact_M0. unfold Tensors.trace.
  cbn [Mrr Mtt Mpp js_add Exact ExactMath exact_lift2].
  split.
  - f_equal.
    set (s := (strike * PI / 180)%R). set (d := (dip * PI / 180)%R).
    set (r := (rake * PI / 180)%R).
    set (m0 := Rpower 10 (1.5 * magnitudeMw + 9.1)).
    pose proof (sin2_cos2 s) as Hs. unfold Rsqr in Hs.
    transitivity (m0 * (sin (2 * d) * sin r) * (1 - (sin s * sin s + cos s * cos s)))%R;
      [ring|rewrite Hs; ring].
  - eexists; split; [reflexivity|].
    rewrite Rabs_R0. pose proof (m0_positive magnitudeMw). lra.
Qed.

(** C9, as stated, fails in doubles: the finite inputs strike = dip = rake
    = 0, Mw = 1000 give the components NaN, NaN, NaN, -Infinity, NaN, NaN,
    whatever the [Math] library. *)
Lemma finite_inputs_give_non_finite_tensor :
  is_finite 0%float = true /\ is_finite 1000%float = true /\
  refuted_for_every_libm
    (fun L => finite_tensor
                (Tensors.strikeDipRakeToMomentTensor (math := FloatMath L)
                   0%float 0%float 0%float 1000%float)
              = true).
Proof.
  split; [reflexivity|]. split; [reflexivity|].
  intros L HL. rewrite tensor_overflow by done.
  vm_compute. discriminate.
Qed.

(** C9 within the range of doubles. The function is total; when the three
    angles and the seismic moment [M0 = Math.pow(10, 1.5 Mw + 9.1)] are at
    most [2^1000] in magnitude, and [Math.sin] and [Math.cos] return values
    in [[-1, 1]] on finite arguments, the six components are finite. *)
Theorem tensor_finite_in_range (L : Libm) (strike dip rake magnitudeMw : float) :
  libm_unit_range L ->
  PrimFloat.leb (PrimFloat.abs strike) 0x1p1000 = true ->
  PrimFloat.leb (PrimFloat.abs dip) 0x1p1000 = true ->
  PrimFloat.leb (PrimFloat.abs rake) 0x1p1000 = true ->
  PrimFloat.leb
    (PrimFloat.abs (Tensors.M0 (math := FloatMath L) magnitudeMw)) 0x1p1000 = true ->
  finite_tensor
    (Tensors.strikeDipRakeToMomentTensor (math := FloatMath L)
       strike dip rake magnitudeMw) = true.
Proof.
  intros HL Hs Hd Hr Hm.
  apply tensor_finite_of_classes; auto using below_2p1000.
Qed.

Lemma tensor_finite_in_range_witness :
  libm_unit_range libm_at_zero /\
  finite_tensor
    (Tensors.strikeDipRakeToMomentTensor (math := FloatMath libm_at_zero)
       30%float 45%float 60%float 6%float) = true.
Proof.
  split; [exact libm_unit_range_at_zero|].
  apply (tensor_finite_in_range libm_at_zero 30 45 60 6 libm_unit_range_at_zero);
    reflexivity.
Defined.

(** The same function in exact arithmetic: on real inputs each of the six
    components is a real number of magnitude at most [2 * M0], where
    [M0 = 10^(1.5 Mw + 9.1) > 0]. *)
Theorem exact_tensor_is_bounded (strike dip rake magnitudeMw : R) :
  exists m0 rr tt pp rp tp rt : R,
    Tensors.M0 (Real magnitudeMw) = Real m0 /\
    Tensors.strikeDipRakeToMomentTensor
      (Real strike) (Real dip) (Real rake) (Real magnitudeMw) =
      {| Mrr := Real rr; Mtt := Real tt; Mpp := Real pp;
         Mrp := Real rp; Mtp := Real tp; Mrt := Real rt |} /\
    (0 < m0 /\
     Rabs rr <= 2 * m0 /\ Rabs tt <= 2 * m0 /\ Rabs pp <= 2 * m0 /\
     Rabs rp <= 2 * m0 /\ Rabs tp <= 2 * m0 /\ Rabs rt <= 2 * m0)%R.
Proof.
  rewrite exact_tensor, exact_M0.
  do 7 eexists. split; [reflexivity|]. split; [reflexivity|].
  set (s := (strike * PI / 180)%R). set (d := (dip * PI / 180)%R).
  set (r := (rake * PI / 180)%R).
  set (m0 := Rpower 10 (1.5 * magnitudeMw + 9.1)).
  pose proof (m0_positive magnitudeMw) as Hm0. fold m0 in Hm0.
  assert (Hhalf : (Rabs 0.5 <= 1)%R) by (apply Rabs_le; lra).
  split; [assumption|].
  split; [apply (scaled_pair_bound magnitudeMw); auto 8 using unit_product, sin_unit, cos_unit|].
  split; [apply (scaled_pair_bound magnitudeMw); auto 8 using unit_product, sin_unit, cos_unit|].
  split.
  { pose proof (unit_product _ _ (sin_unit (2 * d)) (sin_unit r)) as Hp.
    apply Rabs_le_between in Hp. apply Rabs_le.
    rewrite Rmult_assoc. nra. }
  split; [apply (scaled_pair_bound magnitudeMw); auto 8 using unit_product, sin_unit, cos_unit|].
  split; [apply (scaled_pair_bound magnitudeMw); auto 8 using unit_product, sin_unit, cos_unit|].
  apply (scaled_pair_bound magnitudeMw); auto 8 using unit_product, sin_unit, cos_unit.
Qed.



(** * Witnesses *)


(** * NaN and zeros through the arithmetic of doubles *)

Section Float_nan.
Local Open Scope float_scope.

Lemma is_nan_eq (x : float) : is_nan x = true -> x = nan.
Proof.
  unfold is_nan. rewrite negb_true_iff, FloatAxioms.eqb_spec. intros Hx.
  rewrite <- (SF2Prim_Prim2SF x).
  destruct (Prim2SF x) as [s|s| |s m e]; try reflexivity; exfalso.
  - by destruct s.
  - by destruct s.
  - unfold SFeqb, SFcompare in Hx.
    rewrite Z.compare_refl, Pos.compare_cont_refl in Hx. by destruct s.
Qed.

Lemma nan_add_l (x : float) : nan + x = nan.
Proof. rewrite <- (SF2Prim_Prim2SF (nan + x)), add_spec. reflexivity. Qed.

Lemma nan_add_r (x : float) : x + nan = nan.
Proof.
  rewrite <- (SF2Prim_Prim2SF (x + nan)), add_spec.
  change (Prim2SF nan) with S754_nan. by destruct (Prim2SF x).
Qed.

Lemma nan_sub_l (x : float) : nan - x = nan.
Proof. rewrite <- (SF2Prim_Prim2SF (nan - x)), FloatAxioms.sub_spec. reflexivity. Qed.

Lemma nan_sub_r (x : float) : x - nan = nan.
Proof.
  rewrite <- (SF2Prim_Prim2SF (x - nan)), FloatAxioms.sub_spec.
  change (Prim2SF nan) with S754_nan. by destruct (Prim2SF x).
Qed.

Lemma nan_mul_l (x : float) : nan * x = nan.
Proof. rewrite <- (SF2Prim_Prim2SF (nan * x)), mul_spec. reflexivity. Qed.

Lemma nan_mul_r (x : float) : x * nan = nan.
Proof.
  rewrite <- (SF2Prim_Prim2SF (x * nan)), mul_spec.
  change (Prim2SF nan) with S754_nan. by destruct (Prim2SF x).
Qed.

Lemma nan_div_l (x : float) : nan / x = nan.
Proof. rewrite <- (SF2Prim_Prim2SF (nan / x)), div_spec. reflexivity. Qed.

Lemma nan_opp : - nan = nan.
Proof. reflexivity. Qed.
End Float_nan.

(** NaN absorbs every operation it meets. *)
Ltac nan_absorb :=
  repeat first
    [ rewrite nan_add_l | rewrite nan_add_r | rewrite nan_sub_l | rewrite nan_sub_r
    | rewrite nan_mul_l | rewrite nan_mul_r | rewrite nan_div_l | rewrite nan_opp ].

(** * NaN through the tensor and the synthesis *)

Section Nan_propagation.
Variable L : Libm.
Local Open Scope float_scope.
Import Spec.

Ltac float_ops :=
  cbn [Mrr Mtt Mpp Mrp Mtp Mrt Math_cos Math_sin Math_pow Math_PI num
       js_add js_sub js_mul js_div js_neg Float64 FloatMath].

Lemma deg2rad_nan : Tensors.deg2rad (math := FloatMath L) nan = nan.
Proof. unfold Tensors.deg2rad. float_ops. by nan_absorb. Qed.

(** [Mtt] involves all four parameters: a NaN among them makes it NaN. *)
Lemma Mtt_nan (strike dip rake magnitudeMw : float) :
  libm_nan L ->
  strike = nan \/ dip = nan \/ rake = nan \/ magnitudeMw = nan ->
  Mtt (Tensors.strikeDipRakeToMomentTensor (math := FloatMath L)
         strike dip rake magnitudeMw) = nan.
Proof.
  intros (Hsin & Hcos & Hpow) Hnan.
  unfold Tensors.strikeDipRakeToMomentTensor, Tensors.M0. float_ops.
  destruct Hnan as [->|[->|[->| ->]]]; rewrite ?deg2rad_nan;
    nan_absorb; rewrite ?Hsin, ?Hcos, ?Hpow; by nan_absorb.
Qed.

Lemma ZR_sample_nan_Mtt (mt : MomentTensor float) (az SS DD EP DS : float) :
  Mtt mt = nan -> ZR_sample (math := FloatMath L) mt az SS DD EP DS = nan.
Proof. intros H. unfold ZR_sample. float_ops. rewrite H. by nan_absorb. Qed.

Lemma T_sample_nan_Mtt (mt : MomentTensor float) (az SS DS : float) :
  Mtt mt = nan -> T_sample (math := FloatMath L) mt az SS DS = nan.
Proof. intros H. unfold T_sample. float_ops. rewrite H. by nan_absorb. Qed.

Lemma ZR_sample_nan_az (mt : MomentTensor float) (SS DD EP DS : float) :
  libm_nan L -> ZR_sample (math := FloatMath L) mt nan SS DD EP DS = nan.
Proof.
  intros (Hsin & Hcos & _). unfold ZR_sample. float_ops.
  nan_absorb. rewrite ?Hsin, ?Hcos. by nan_absorb.
Qed.

Lemma T_sample_nan_az (mt : MomentTensor float) (SS DS : float) :
  libm_nan L -> T_sample (math := FloatMath L) mt nan SS DS = nan.
Proof.
  intros (Hsin & Hcos & _). unfold T_sample. float_ops.
  nan_absorb. rewrite ?Hsin, ?Hcos. by nan_absorb.
Qed.

(** A basis sample that is NaN, other than the [SS] one that drives the
    loop, makes the synthesized sample NaN. *)
Lemma ZR_sample_nan_DD (mt : MomentTensor float) (az SS EP DS : float) :
  ZR_sample (math := FloatMath L) mt az SS nan EP DS = nan.
Proof. unfold ZR_sample. float_ops. by nan_absorb. Qed.

Lemma ZR_sample_nan_EP (mt : MomentTensor float) (az SS DD DS : float) :
  ZR_sample (math := FloatMath L) mt az SS DD nan DS = nan.
Proof. unfold ZR_sample. float_ops. by nan_absorb. Qed.

Lemma ZR_sample_nan_DS (mt : MomentTensor float) (az SS DD EP : float) :
  ZR_sample (math := FloatMath L) mt az SS DD EP nan = nan.
Proof. unfold ZR_sample. float_ops. by nan_absorb. Qed.

Lemma T_sample_nan_DS (mt : MomentTensor float) (az SS : float) :
  T_sample (math := FloatMath L) mt az SS nan = nan.
Proof. unfold T_sample. float_ops. by nan_absorb. Qed.
End Nan_propagation.

Section Nan_traces.
Variable L : Libm.
Local Open Scope string_scope.
Import Spec.

Lemma libm_nan_at_zero_nan : libm_nan libm_at_zero_nan.
Proof. by repeat split. Qed.

Lemma or_nan (a b c d e : float) :
  PrimFloat.is_nan a || PrimFloat.is_nan b || PrimFloat.is_nan c
    || PrimFloat.is_nan d || PrimFloat.is_nan e = true ->
  (a = nan \/ b = nan \/ c = nan \/ d = nan) \/ e = nan.
Proof.
  rewrite !orb_true_iff. intros [[[[H|H]|H]|H]|H]; apply is_nan_eq in H; tauto.
Qed.

(** X1. A NaN among the five inputs (an emptied field: [parseFloat("")] is
    NaN) makes every sample of the three traces NaN, whatever the store
    holds. *)
Theorem nan_input_gives_nan_traces (inputs : Inputs float) (fetch : Store float) :
  libm_nan L ->
  PrimFloat.is_nan (strike inputs) || PrimFloat.is_nan (dip inputs)
    || PrimFloat.is_nan (rake inputs) || PrimFloat.is_nan (magnitude inputs)
    || PrimFloat.is_nan (azimuth inputs) = true ->
  exists out : Waveforms float,
    SeismicPlot.generateWaveforms (math := FloatMath L) inputs fetch = Some out /\
    all_nan (output_Z out) /\ all_nan (output_R out) /\ all_nan (output_T out).
Proof.
  intros HL Hnan%or_nan.
  rewrite generateWaveforms_unfold, synthesize_preload.
  eexists; split; [reflexivity|].
  unfold synthesized, all_nan; cbn [output_Z output_R output_T].
  destruct Hnan as [Hnan| ->].
  - pose proof (Mtt_nan L _ _ _ _ HL Hnan) as Htt.
    repeat split; intros i v [-> _]%lookup_take_tabulate;
      by rewrite ?(ZR_sample_nan_Mtt L _ _ _ _ _ _ Htt),
                 ?(T_sample_nan_Mtt L _ _ _ _ Htt).
  - cbn [js_mul js_div Float64]. rewrite nan_mul_l, nan_div_l.
    repeat split; intros i v [-> _]%lookup_take_tabulate;
      by rewrite ?(ZR_sample_nan_az L _ _ _ _ _ HL), ?(T_sample_nan_az L _ _ _ HL).
Qed.

(** X2. A basis trace that is shorter than the [SS] trace of its group
    turns every sample from its end on into NaN: beyond the end the array
    read is [undefined]. *)
Theorem short_basis_gives_nan_tail (inputs : Inputs float) (fetch : Store float) :
  exists out : Waveforms float,
    SeismicPlot.generateWaveforms (math := FloatMath L) inputs fetch = Some out /\
    (forall ch data i v,
       ch ∈ ["ZDD"; "ZEP"; "ZDS"] -> fetch ch = Some data -> length data <= i ->
       output_Z out !! i = Some v -> PrimFloat.is_nan v = true) /\
    (forall ch data i v,
       ch ∈ ["RDD"; "REP"; "RDS"] -> fetch ch = Some data -> length data <= i ->
       output_R out !! i = Some v -> PrimFloat.is_nan v = true) /\
    (forall data i v,
       fetch "TDS" = Some data -> length data <= i ->
       output_T out !! i = Some v -> PrimFloat.is_nan v = true).
Proof.
  rewrite generateWaveforms_unfold, synthesize_preload.
  eexists; split; [reflexivity|].
  unfold synthesized; cbn [output_Z output_R output_T].
  assert (Hshort : forall ch data i,
            fetch ch = Some data -> length data <= i ->
            at_index (basis fetch ch) i = nan).
  { intros ch data i Hch Hlen. unfold basis, at_index. rewrite Hch. simpl.
    by rewrite (lookup_ge_None_2 data i Hlen). }
  repeat split.
  - intros ch data i v Hin Hch Hlen [-> _]%lookup_take_tabulate.
    rewrite !elem_of_cons, elem_of_nil in Hin.
    destruct Hin as [->|[->|[->|[]]]]; rewrite (Hshort _ _ _ Hch Hlen);
      by rewrite ?ZR_sample_nan_DD, ?ZR_sample_nan_EP, ?ZR_sample_nan_DS.
  - intros ch data i v Hin Hch Hlen [-> _]%lookup_take_tabulate.
    rewrite !elem_of_cons, elem_of_nil in Hin.
    destruct Hin as [->|[->|[->|[]]]]; rewrite (Hshort _ _ _ Hch Hlen);
      by rewrite ?ZR_sample_nan_DD, ?ZR_sample_nan_EP, ?ZR_sample_nan_DS.
  - intros data i v Hch Hlen [-> _]%lookup_take_tabulate.
    rewrite (Hshort _ _ _ Hch Hlen). by rewrite T_sample_nan_DS.
Qed.
End Nan_traces.

Lemma nan_input_gives_nan_traces_witness :
  exists out : Waveforms float,
    SeismicPlot.generateWaveforms (math := FloatMath libm_at_zero_nan)
      {| strike := 30%float; dip := 45%float; rake := nan; magnitude := 6%float;
         azimuth := 45%float |}
      ((fun _ => None) : Store float) = Some out /\
    all_nan (output_Z out) /\ all_nan (output_R out) /\ all_nan (output_T out).
Proof.
  apply (nan_input_gives_nan_traces libm_at_zero_nan
           {| strike := 30%float; dip := 45%float; rake := nan; magnitude := 6%float;
         azimuth := 45%float |}
           ((fun _ => None) : Store float) libm_nan_at_zero_nan).
  reflexivity.
Defined.

(** * Zeros through the synthesis *)

Section Float_zero.
Local Open Scope float_scope.

Lemma is_zero_spec (x : float) :
  is_zero x = true <-> exists s, Prim2SF x = S754_zero s.
Proof.
  unfold is_zero. rewrite FloatAxioms.eqb_spec.
  change (Prim2SF zero) with (S754_zero false).
  destruct (Prim2SF x) as [s|s| |s m e]; split;
    try discriminate; try (by intros [? ?]); eauto.
  - by destruct s.
  - by destruct s.
Qed.

Lemma zero_is_finite (x : float) : is_zero x = true -> is_finite x = true.
Proof.
  intros [s Hs]%is_zero_spec. apply SF_finite_is_finite. by rewrite Hs.
Qed.

Lemma zero_add (x y : float) :
  is_zero x = true -> is_zero y = true -> is_zero (x + y) = true.
Proof.
  intros [sx Hx]%is_zero_spec [sy Hy]%is_zero_spec. apply is_zero_spec.
  rewrite add_spec, Hx, Hy. destruct sx, sy; simpl; eauto.
Qed.

Lemma zero_sub (x y : float) :
  is_zero x = true -> is_zero y = true -> is_zero (x - y) = true.
Proof.
  intros [sx Hx]%is_zero_spec [sy Hy]%is_zero_spec. apply is_zero_spec.
  rewrite FloatAxioms.sub_spec, Hx, Hy. destruct sx, sy; simpl; eauto.
Qed.

Lemma zero_mul_l (x y : float) :
  is_zero x = true -> is_finite y = true -> is_zero (x * y) = true.
Proof.
  intros [sx Hx]%is_zero_spec Hy. apply is_zero_spec.
  exact (zero_mul_finite x y sx Hx Hy).
Qed.

Lemma zero_mul_r (x y : float) :
  is_finite x = true -> is_zero y = true -> is_zero (x * y) = true.
Proof.
  intros Hx [sy Hy]%is_zero_spec. apply is_zero_spec.
  exact (finite_mul_zero x y sy Hx Hy).
Qed.
End Float_zero.

Section Zero_traces.
Variable L : Libm.
Hypothesis unit_range : libm_unit_range L.
Local Open Scope float_scope.
Import Spec.

(** A sum of products in which one factor of each product is a zero and
    the other is finite. *)
Ltac zeros :=
  lazymatch goal with
  | |- is_zero (_ + _) = true => apply zero_add; zeros
  | |- is_zero (_ - _) = true => apply zero_sub; zeros
  | |- is_zero (_ * _) = true =>
      first [ apply zero_mul_r; [assumption|zeros]
            | apply zero_mul_l; [zeros|assumption] ]
  | |- is_zero _ = true => reflexivity
  end.

Lemma ZR_sample_zero (mt : MomentTensor float) (az : float) :
  finite_tensor mt = true ->
  is_finite (libm_cos L (float_lit 2 * az)) = true ->
  is_finite (libm_sin L (float_lit 2 * az)) = true ->
  is_finite (libm_cos L az) = true -> is_finite (libm_sin L az) = true ->
  is_zero (ZR_sample (math := FloatMath L) mt az 0 0 0 0) = true.
Proof.
  unfold finite_tensor. rewrite !andb_true_iff.
  intros [[[[[Hrr Htt] Hpp] Hrp] Htp] Hrt] Hc2 Hs2 Hc Hs.
  unfold ZR_sample.
  cbn [Math_cos Math_sin num js_add js_sub js_mul js_div js_neg Float64 FloatMath].
  change (0 / float_lit 2) with 0. change (- 0 / float_lit 2) with (-0).
  change (0 / float_lit 6) with 0. change (0 / float_lit 3) with 0.
  zeros.
Qed.

Lemma T_sample_zero (mt : MomentTensor float) (az : float) :
  finite_tensor mt = true ->
  is_finite (libm_cos L (float_lit 2 * az)) = true ->
  is_finite (libm_sin L (float_lit 2 * az)) = true ->
  is_finite (libm_cos L az) = true -> is_finite (libm_sin L az) = true ->
  is_zero (T_sample (math := FloatMath L) mt az 0 0) = true.
Proof.
  unfold finite_tensor. rewrite !andb_true_iff.
  intros [[[[[Hrr Htt] Hpp] Hrp] Htp] Hrt] Hc2 Hs2 Hc Hs.
  unfold T_sample.
  cbn [Math_cos Math_sin num js_add js_sub js_mul js_div js_neg Float64 FloatMath].
  change (0 / float_lit 2) with 0.
  zeros.
Qed.
End Zero_traces.

Section No_data.
Variable L : Libm.
Hypothesis unit_range : libm_unit_range L.
Local Open Scope float_scope.
Import Spec.

Lemma zero_trace_sample (i : nat) :
  (i < 4000)%nat -> at_index (zero_trace (F := float)) i = 0.
Proof.
  intros Hi. unfold at_index, zero_trace.
  rewrite lookup_replicate_2; [reflexivity|].
  apply Nat.lt_le_trans with 4000%nat; [exact Hi|].
  apply Nat.leb_le. vm_compute. reflexivity.
Qed.

(** X3. When every retrieval fails and the inputs are within the range of
    doubles, the three traces are 4000 zeros each: the plot is a flat
    line. *)
Theorem no_data_gives_zero_traces (inputs : Inputs float) :
  (abs (strike inputs) <=? 0x1p1000) = true ->
  (abs (dip inputs) <=? 0x1p1000) = true ->
  (abs (rake inputs) <=? 0x1p1000) = true ->
  (abs (azimuth inputs) <=? 0x1p1000) = true ->
  (abs (Tensors.M0 (math := FloatMath L) (magnitude inputs)) <=? 0x1p1000) = true ->
  exists out : Waveforms float,
    SeismicPlot.generateWaveforms (math := FloatMath L) inputs ((fun _ => None) : Store float)
      = Some out /\
    length (output_Z out) = 4000%nat /\ length (output_R out) = 4000%nat /\
    length (output_T out) = 4000%nat /\
    all_zero (output_Z out) /\ all_zero (output_R out) /\ all_zero (output_T out).
Proof using unit_range.
  intros Hs%below_2p1000 Hd%below_2p1000 Hr%below_2p1000 Ha%below_2p1000
         Hm%below_2p1000.
  rewrite generateWaveforms_unfold, synthesize_preload.
  eexists; split; [reflexivity|].
  pose proof (tensor_finite_of_classes L unit_range _ _ _ _ Hs Hd Hr Hm) as Hmt.
  apply (deg2rad_below L) in Ha. unfold Tensors.deg2rad in Ha.
  set (az := js_div (js_mul (azimuth inputs) Math_PI) (num 180)) in *.
  assert (H2a : below 1001 (float_lit 2 * az))
    by (apply (mul_below 2 998); [apply below_lit_2|assumption|lia|lia]).
  pose proof (below_is_finite _ _ (cos_below L unit_range _ _ H2a)) as Hc2.
  pose proof (below_is_finite _ _ (sin_below L unit_range _ _ H2a)) as Hs2.
  pose proof (below_is_finite _ _ (cos_below L unit_range _ _ Ha)) as Hc.
  pose proof (below_is_finite _ _ (sin_below L unit_range _ _ Ha)) as Hs1.
  unfold synthesized, all_zero; cbn [output_Z output_R output_T].
  rewrite !length_take_tabulate. unfold basis. cbn [default].
  assert (Hlen : length (zero_trace (F := float)) = 15520%nat)
    by apply length_replicate.
  rewrite Hlen.
  split; [reflexivity|]. split; [reflexivity|]. split; [reflexivity|].
  repeat split; intros i v (-> & Hi & _)%lookup_take_tabulate;
    rewrite !zero_trace_sample by assumption.
  - by apply ZR_sample_zero.
  - by apply ZR_sample_zero.
  - by apply T_sample_zero.
Qed.
End No_data.

Lemma no_data_gives_zero_traces_witness :
  exists out : Waveforms float,
    SeismicPlot.generateWaveforms (math := FloatMath libm_at_zero)
      {| strike := 30%float; dip := 45%float; rake := 60%float;
         magnitude := 6%float; azimuth := 45%float |}
      ((fun _ => None) : Store float) = Some out /\
    length (output_Z out) = 4000%nat /\ length (output_R out) = 4000%nat /\
    length (output_T out) = 4000%nat /\
    all_zero (output_Z out) /\ all_zero (output_R out) /\ all_zero (output_T out).
Proof.
  apply (no_data_gives_zero_traces libm_at_zero libm_unit_range_at_zero
           {| strike := 30%float; dip := 45%float; rake := 60%float;
              magnitude := 6%float; azimuth := 45%float |});
    reflexivity.
Defined.

(** * What each trace reads of the store *)

Section Frame.
Context {F : Type} {number : JsNumber F} {math : JsMath F}.
Local Open Scope string_scope.
Import Spec.

Lemma basis_agree (fetch1 fetch2 : Store F) (ch : string) :
  fetch1 ch = fetch2 ch -> basis fetch1 ch = basis fetch2 ch.
Proof. unfold basis. by intros ->. Qed.

(** X4. Each trace depends on the store through the channels of its own
    group only: two stores that agree on [ZSS], [ZDD], [ZEP], [ZDS] give the
    same vertical trace, whatever else they hold or fail to hold, and
    likewise the radial trace and [RSS], [RDD], [REP], [RDS], the
    transverse trace and [TSS], [TDS]. *)
Theorem traces_read_their_own_channels
    (inputs : Inputs F) (fetch1 fetch2 : Store F) :
  ((forall ch, ch ∈ ["ZSS"; "ZDD"; "ZEP"; "ZDS"] -> fetch1 ch = fetch2 ch) ->
   output_Z <$> SeismicPlot.generateWaveforms inputs fetch1 =
   output_Z <$> SeismicPlot.generateWaveforms inputs fetch2) /\
  ((forall ch, ch ∈ ["RSS"; "RDD"; "REP"; "RDS"] -> fetch1 ch = fetch2 ch) ->
   output_R <$> SeismicPlot.generateWaveforms inputs fetch1 =
   output_R <$> SeismicPlot.generateWaveforms inputs fetch2) /\
  ((forall ch, ch ∈ ["TSS"; "TDS"] -> fetch1 ch = fetch2 ch) ->
   output_T <$> SeismicPlot.generateWaveforms inputs fetch1 =
   output_T <$> SeismicPlot.generateWaveforms inputs fetch2).
Proof.
  rewrite !generateWaveforms_unfold, !synthesize_preload.
  unfold synthesized; cbn [fmap option_fmap option_map output_Z output_R output_T].
  repeat split; intros Hagree; f_equal.
  - rewrite !(basis_agree fetch1 fetch2) by (apply Hagree; set_solver). done.
  - rewrite !(basis_agree fetch1 fetch2) by (apply Hagree; set_solver). done.
  - rewrite !(basis_agree fetch1 fetch2) by (apply Hagree; set_solver). done.
Qed.
End Frame.

(** * The rows of the download *)

Section Download_rows.
Context {F : Type} {number : JsNumber F} {math : JsMath F}.
Import Spec.

Lemma time_lookup (i : nat) :
  (i < 4000)%nat ->
  Download.time (F := F) !! i =
    Some (js_div (num (inject_Z (Z.of_nat i))) (num 4)).
Proof.
  intros Hi. unfold Download.time.
  rewrite list_lookup_fmap, lookup_seq_lt by assumption. reflexivity.
Qed.

Lemma data_lookup (w : Waveforms F) (i : nat) (d : Download.Row) :
  Download.data w !! i = Some d ->
  (i < length (output_Z w))%nat /\
  d = {| Download.row_time := Download.time !! i;
         Download.row_Z := output_Z w !! i;
         Download.row_R := output_R w !! i;
         Download.row_T := output_T w !! i |}.
Proof.
  unfold Download.data. rewrite list_lookup_imap.
  destruct (output_Z w !! i) as [z|] eqn:Hz; [|discriminate].
  intros [= <-]. split; [by eapply lookup_lt_Some|done].
Qed.

(** X5. The download has one row per sample of the vertical trace. For
    the traces [generateWaveforms] returns, row [i] carries the time
    [i / 4] and the vertical sample, never [undefined]; its radial or
    transverse cell is [undefined] exactly when that trace has no sample
    [i], being shorter than the vertical one. *)
Theorem download_rows (inputs : Inputs F) (fetch : Store F) :
  exists out : Waveforms F,
    SeismicPlot.generateWaveforms inputs fetch = Some out /\
    length (Download.data out) = length (output_Z out) /\
    forall i d, Download.data out !! i = Some d ->
      Download.row_time d = Some (js_div (num (inject_Z (Z.of_nat i))) (num 4)) /\
      (exists z, Download.row_Z d = Some z /\ output_Z out !! i = Some z) /\
      (Download.row_R d = None <-> (length (output_R out) <= i)%nat) /\
      (Download.row_T d = None <-> (length (output_T out) <= i)%nat).
Proof.
  rewrite generateWaveforms_unfold, synthesize_preload.
  eexists; split; [reflexivity|].
  split; [apply length_imap|].
  intros i d [Hi ->]%data_lookup. cbn [Download.row_time Download.row_Z
    Download.row_R Download.row_T].
  assert (Hi4 : (i < 4000)%nat).
  { revert Hi. unfold synthesized; cbn [output_Z].
    rewrite length_take_tabulate. lia. }
  split; [by apply time_lookup|].
  split; [apply lookup_lt_is_Some_2 in Hi as [z Hz]; eauto|].
  split; apply lookup_ge_None.
Qed.
End Download_rows.

(** * The order of doubles *)

Section Float_order_trans.
Local Open Scope Z_scope.

Lemma SFleb_finite_same_sign (s : bool) (m1 m2 : positive) (e1 e2 : Z) :
  SFleb (S754_finite s m1 e1) (S754_finite s m2 e2) =
    if s then ((e2 <? e1) || ((e2 =? e1) && (m2 <=? m1)%positive))
    else ((e1 <? e2) || ((e1 =? e2) && (m1 <=? m2)%positive)).
Proof.
  unfold SFleb, SFcompare. rewrite !Pos.compare_cont_spec. cbn [Pos.switch_Eq].
  destruct s.
  - rewrite (Z.compare_antisym e2 e1), (Pos.compare_antisym m2 m1).
    destruct (Z.compare_spec e2 e1) as [->|H|H]; cbn [CompOpp].
    + rewrite Z.ltb_irrefl, Z.eqb_refl. cbn [orb andb].
      unfold Pos.leb. by destruct (m2 ?= m1)%positive.
    + rewrite (proj2 (Z.ltb_lt _ _) H). reflexivity.
    + rewrite (proj2 (Z.ltb_ge _ _)) by lia.
      rewrite (proj2 (Z.eqb_neq _ _)) by lia. reflexivity.
  - destruct (Z.compare_spec e1 e2) as [->|H|H].
    + rewrite Z.ltb_irrefl, Z.eqb_refl. cbn [orb andb].
      unfold Pos.leb. by destruct (m1 ?= m2)%positive.
    + rewrite (proj2 (Z.ltb_lt _ _) H). reflexivity.
    + rewrite (proj2 (Z.ltb_ge _ _)) by lia.
      rewrite (proj2 (Z.eqb_neq _ _)) by lia. reflexivity.
Qed.

(** [<=] on doubles is transitive. *)
Lemma SFleb_trans (x y z : spec_float) :
  SFleb x y = true -> SFleb y z = true -> SFleb x z = true.
Proof.
  destruct x as [sx|sx| |sx mx ex], y as [sy|sy| |sy my ey],
    z as [sz|sz| |sz mz ez];
    try discriminate; try reflexivity;
    destruct sx, sy, sz; try discriminate; try reflexivity;
    rewrite ?SFleb_finite_same_sign;
    rewrite ?orb_true_iff, ?andb_true_iff, ?Z.ltb_lt, ?Z.eqb_eq, ?Pos.leb_le;
    intros H1 H2; lia.
Qed.
End Float_order_trans.

Section Float_order_facts.
Local Open Scope float_scope.

Lemma leb_trans (x y z : float) :
  (x <=? y) = true -> (y <=? z) = true -> (x <=? z) = true.
Proof. rewrite !FloatAxioms.leb_spec. apply SFleb_trans. Qed.

Lemma leb_refl (x : float) : is_nan x = false -> (x <=? x) = true.
Proof.
  intros Hx. destruct (x <? x) eqn:Hlt.
  - by apply ltb_leb.
  - by apply not_ltb_leb.
Qed.
End Float_order_facts.

(** * The sort, on lists of any length *)

Section Sort_permutation.
Context {F : Type} {number : JsNumber F} {A : Type}.
Variable comparefn : A -> A -> F.

Lemma insert_element_Permutation (element : A) (prefix_rev : list A) :
  BeachBallDiagram.insert_element comparefn element prefix_rev
    ≡ₚ element :: prefix_rev.
Proof.
  induction prefix_rev as [|tmp rest IH]; cbn [BeachBallDiagram.insert_element];
    [done|].
  destruct (js_lt _ _); [|done].
  rewrite IH. apply perm_swap.
Qed.

Lemma insertion_Permutation (a prefix_rev : list A) :
  foldl (fun prefix_rev element =>
           BeachBallDiagram.insert_element comparefn element prefix_rev)
        prefix_rev a ≡ₚ prefix_rev ++ a.
Proof.
  revert prefix_rev. induction a as [|element a IH]; intros prefix_rev;
    cbn [foldl].
  - by rewrite app_nil_r.
  - rewrite IH, insert_element_Permutation.
    by rewrite (Permutation_middle prefix_rev a element).
Qed.

Lemma js_sort_Permutation (a : list A) :
  BeachBallDiagram.js_sort comparefn a ≡ₚ a.
Proof.
  unfold BeachBallDiagram.js_sort.
  by rewrite <- Permutation_rev, insertion_Permutation.
Qed.
End Sort_permutation.

Section Axes.
Context {F : Type} {number : JsNumber F}.

Lemma sorted_Permutation (eigenvalues : list F) (eigenvectors : list (list F)) :
  BeachBallDiagram.sorted eigenvalues eigenvectors
    ≡ₚ BeachBallDiagram.eigenPairs eigenvalues eigenvectors.
Proof. apply js_sort_Permutation. Qed.

Lemma sorted_length (eigenvalues : list F) (eigenvectors : list (list F)) :
  length (BeachBallDiagram.sorted eigenvalues eigenvectors) = length eigenvalues.
Proof.
  rewrite (Permutation_length (sorted_Permutation _ _)).
  unfold BeachBallDiagram.eigenPairs. apply length_imap.
Qed.

(** X6. The sort neither drops nor duplicates an eigen-pair, whatever the
    eigenvalues are (NaN included, where the comparator answers NaN): the
    sorted array is a permutation of the pairs built from the solver's
    output, and every sorted pair is one of them, its vector the column of
    the eigenvector matrix at its eigenvalue's index. *)
Theorem sorted_is_a_permutation
    (eigenvalues : list F) (eigenvectors : list (list F)) :
  BeachBallDiagram.sorted eigenvalues eigenvectors
    ≡ₚ BeachBallDiagram.eigenPairs eigenvalues eigenvectors /\
  length (BeachBallDiagram.sorted eigenvalues eigenvectors) = length eigenvalues /\
  forall p, p ∈ BeachBallDiagram.sorted eigenvalues eigenvectors ->
    exists i, eigenvalues !! i = Some (BeachBallDiagram.val p) /\
      BeachBallDiagram.vec p = (fun row => at_index row i) <$> eigenvectors.
Proof.
  split; [apply sorted_Permutation|]. split; [apply sorted_length|].
  intros p Hp. rewrite sorted_Permutation in Hp.
  apply list_elem_of_lookup_1 in Hp as [i Hi]. exists i.
  unfold BeachBallDiagram.eigenPairs in Hi. rewrite list_lookup_imap in Hi.
  destruct (eigenvalues !! i) as [v|]; [|discriminate].
  by injection Hi as <-.
Qed.

(** X7. The axes exist exactly when the solver returned at least three
    eigenvalues; with fewer, [sorted[2]] (or an earlier one) is
    [undefined] and reading its [vec] throws. The axes are then the first
    three sorted pairs. *)
Theorem principalAxes_defined
    (eigenvalues : list F) (eigenvectors : list (list F)) :
  (is_Some (BeachBallDiagram.principalAxes eigenvalues eigenvectors)
     <-> (3 <= length eigenvalues)%nat) /\
  forall P B T,
    BeachBallDiagram.principalAxes eigenvalues eigenvectors = Some (P, B, T) ->
    take 3 (BeachBallDiagram.sorted eigenvalues eigenvectors) = [P; B; T].
Proof.
  unfold BeachBallDiagram.principalAxes.
  pose proof (sorted_length eigenvalues eigenvectors) as Hlen.
  destruct (BeachBallDiagram.sorted eigenvalues eigenvectors)
    as [|P [|B [|T rest]]]; cbn in *; (split; [|intros ???; try discriminate]).
  - split; [by intros []|lia].
  - split; [by intros []|lia].
  - split; [by intros []|lia].
  - split; [lia|eauto].
  - by intros [= -> -> ->].
Qed.
End Axes.

(** * The sort of the eigen-pairs, on doubles: ascending and stable *)

Section Sort_natural.
Context {F : Type} {number : JsNumber F} {A B : Type}.
Variables (f : B -> A) (comparefn : A -> A -> F).

(** Sorting does not look into what the comparator does not read. *)
Lemma insert_element_fmap (element : B) (prefix_rev : list B) :
  BeachBallDiagram.insert_element comparefn (f element) (f <$> prefix_rev) =
  f <$> BeachBallDiagram.insert_element
          (fun x y => comparefn (f x) (f y)) element prefix_rev.
Proof.
  induction prefix_rev as [|tmp rest IH]; [done|].
  cbn [fmap list_fmap BeachBallDiagram.insert_element].
  destruct (js_lt _ _); [|done].
  cbn [fmap list_fmap]. f_equal. exact IH.
Qed.

Lemma insertion_fmap (a prefix_rev : list B) :
  foldl (fun prefix_rev element =>
           BeachBallDiagram.insert_element comparefn element prefix_rev)
        (f <$> prefix_rev) (f <$> a) =
  f <$> foldl (fun prefix_rev element =>
                 BeachBallDiagram.insert_element
                   (fun x y => comparefn (f x) (f y)) element prefix_rev)
              prefix_rev a.
Proof.
  revert prefix_rev. induction a as [|element a IH]; intros prefix_rev; [done|].
  cbn [fmap list_fmap foldl]. rewrite insert_element_fmap. apply IH.
Qed.

Lemma rev_fmap (l : list B) : rev (f <$> l) = f <$> rev l.
Proof.
  assert (Hrev : forall C (k : list C), rev k = reverse k)
    by (intros; unfold reverse; apply rev_alt).
  by rewrite !Hrev, fmap_reverse.
Qed.

Lemma js_sort_fmap (a : list B) :
  BeachBallDiagram.js_sort comparefn (f <$> a) =
  f <$> BeachBallDiagram.js_sort (fun x y => comparefn (f x) (f y)) a.
Proof.
  unfold BeachBallDiagram.js_sort.
  rewrite <- rev_fmap. f_equal. exact (insertion_fmap a []).
Qed.
End Sort_natural.

Section Sort_doubles.
Local Open Scope float_scope.

Lemma by_val_positive (tmp element : indexed) :
  number_val tmp -> number_val element ->
  @js_lt float Float64 (@num float Float64 0) (by_val tmp element) =
  (BeachBallDiagram.val element.2 <? BeachBallDiagram.val tmp.2).
Proof. intros. by apply (comparator_positive tmp.2 element.2). Qed.

Lemma insert_element_later (element : indexed) (prefix_rev : list indexed) :
  number_val element -> Forall number_val prefix_rev ->
  Forall (fun x => (x.1 < element.1)%nat) prefix_rev ->
  StronglySorted later prefix_rev ->
  StronglySorted later (BeachBallDiagram.insert_element by_val element prefix_rev).
Proof.
  intros He. induction prefix_rev as [|tmp rest IH];
    intros Hnum Hidx Hsorted; cbn [BeachBallDiagram.insert_element].
  - repeat constructor.
  - apply Forall_cons in Hnum as [Htmp Hnum]. apply Forall_cons in Hidx as [Itmp Hidx].
    apply StronglySorted_inv in Hsorted as [Hrest Hall].
    rewrite by_val_positive by assumption.
    destruct (BeachBallDiagram.val element.2 <? BeachBallDiagram.val tmp.2) eqn:Hlt.
    + constructor; [by apply IH|].
      rewrite (insert_element_Permutation by_val element rest).
      constructor; [|assumption]. split; [by apply ltb_leb|].
      intros Heq. apply ltb_not_eqb in Hlt as [Hne _]. congruence.
    + assert (Hle : (BeachBallDiagram.val tmp.2 <=? BeachBallDiagram.val element.2) = true)
        by (by apply not_ltb_leb).
      constructor; [by constructor|].
      constructor; [by split|].
      rewrite Forall_forall in Hall, Hidx |- *. intros x Hx. split.
      * destruct (Hall x Hx) as [Hxt _]. by apply (leb_trans _ _ _ Hxt).
      * intros _. by apply Hidx.
Qed.

Lemma insertion_later (a prefix_rev : list indexed) :
  Forall number_val a -> Forall number_val prefix_rev ->
  StronglySorted (fun x y => (x.1 < y.1)%nat) a ->
  Forall (fun x => Forall (fun y => (x.1 < y.1)%nat) a) prefix_rev ->
  StronglySorted later prefix_rev ->
  StronglySorted later
    (foldl (fun prefix_rev element =>
              BeachBallDiagram.insert_element by_val element prefix_rev)
           prefix_rev a).
Proof.
  revert prefix_rev. induction a as [|element a IH];
    intros prefix_rev Ha Hp Hinc Hbefore Hsorted; cbn [foldl]; [assumption|].
  apply Forall_cons in Ha as [He Ha].
  apply StronglySorted_inv in Hinc as [Hinc Hea].
  assert (Hidx : Forall (fun x => (x.1 < element.1)%nat) prefix_rev).
  { eapply Forall_impl; [exact Hbefore|]. intros x Hx.
    by apply Forall_cons in Hx as [? _]. }
  apply IH; try assumption.
  - rewrite (insert_element_Permutation by_val element prefix_rev). by constructor.
  - rewrite (insert_element_Permutation by_val element prefix_rev).
    constructor; [assumption|].
    eapply Forall_impl; [exact Hbefore|]. intros x Hx.
    by apply Forall_cons in Hx as [_ ?].
  - by apply insert_element_later.
Qed.

Lemma StronglySorted_lookup {A} (R : A -> A -> Prop) (l : list A) (i j : nat) (x y : A) :
  StronglySorted R l -> (i < j)%nat -> l !! i = Some x -> l !! j = Some y -> R x y.
Proof.
  intros Hl. revert i j. induction Hl as [|a l Hl IH Ha]; intros i j Hij Hi Hj.
  - discriminate.
  - destruct j as [|j]; [lia|]. destruct i as [|i].
    + injection Hi as <-. rewrite Forall_forall in Ha.
      apply Ha. by eapply list_elem_of_lookup_2.
    + apply (IH i j); [lia|assumption|assumption].
Qed.

Lemma seq_increasing (start len : nat) :
  StronglySorted lt (seq start len).
Proof.
  revert start. induction len as [|len IH]; intros start; cbn [seq];
    constructor; [apply IH|].
  apply Forall_forall. intros x Hx%elem_of_seq. lia.
Qed.
End Sort_doubles.

Section Sorted_doubles.
Local Open Scope float_scope.

(** The eigen-pairs with their indices. *)
Lemma indexed_pairs (pairs : list (BeachBallDiagram.EigenPair float)) :
  let I := zip (seq 0 (length pairs)) pairs in
  I.*2 = pairs /\ I.*1 = seq 0 (length pairs) /\
  StronglySorted (fun x y : indexed => (x.1 < y.1)%nat) I /\
  (forall x : indexed, x ∈ I -> pairs !! x.1 = Some x.2).
Proof.
  intros I. assert (Hlen : length (seq 0 (length pairs)) = length pairs)
    by apply length_seq.
  split; [apply snd_zip; lia|]. split; [apply fst_zip; lia|]. split.
  - assert (Hfst : I.*1 = seq 0 (length pairs)) by (apply fst_zip; lia).
    pose proof (seq_increasing 0 (length pairs)) as Hinc. rewrite <- Hfst in Hinc.
    clear -Hinc. induction I as [|x I IH]; [constructor|].
    cbn [fmap list_fmap] in Hinc. apply StronglySorted_inv in Hinc as [Hrest Hall].
    constructor; [by apply IH|].
    rewrite Forall_fmap in Hall. exact Hall.
  - intros [i p] [k Hk]%list_elem_of_lookup_1.
    apply lookup_zip_Some in Hk as [Hi Hp].
    apply lookup_seq in Hi as [-> _]. exact Hp.
Qed.

(** X8. For eigenvalues that are Numbers other than NaN, however many, the
    sorted array lists the eigen-pairs in ascending order of eigenvalue,
    and pairs whose eigenvalues are equal ([==]) keep the order of their
    indices in the solver's output: [order] gives, for each place of the
    sorted array, the index its pair came from. *)
Theorem sorted_ascending_stable
    (eigenvalues : list float) (eigenvectors : list (list float)) :
  forallb (fun v => negb (is_nan v)) eigenvalues = true ->
  exists order : list nat,
    order ≡ₚ seq 0 (length eigenvalues) /\
    (forall k i, order !! k = Some i ->
       exists p, BeachBallDiagram.sorted eigenvalues eigenvectors !! k = Some p /\
                 eigenPair_at eigenvalues eigenvectors i = Some p) /\
    (forall k l i j p q, (k < l)%nat ->
       order !! k = Some i -> order !! l = Some j ->
       BeachBallDiagram.sorted eigenvalues eigenvectors !! k = Some p ->
       BeachBallDiagram.sorted eigenvalues eigenvectors !! l = Some q ->
       (BeachBallDiagram.val p <=? BeachBallDiagram.val q) = true /\
       ((BeachBallDiagram.val p =? BeachBallDiagram.val q) = true -> (i < j)%nat)).
Proof.
  intros Hnum.
  set (pairs := BeachBallDiagram.eigenPairs eigenvalues eigenvectors).
  assert (Hplen : length pairs = length eigenvalues) by apply length_imap.
  destruct (indexed_pairs pairs) as (Hsnd & Hfst & Hinc & Hin).
  set (I := zip (seq 0 (length pairs)) pairs) in *.
  set (S := BeachBallDiagram.js_sort by_val I).
  assert (HS : BeachBallDiagram.sorted eigenvalues eigenvectors = S.*2).
  { unfold BeachBallDiagram.sorted. fold pairs. rewrite <- Hsnd.
    exact (js_sort_fmap snd (fun a b => @js_sub float Float64
             (BeachBallDiagram.val a) (BeachBallDiagram.val b)) I). }
  assert (HSI : S ≡ₚ I) by apply js_sort_Permutation.
  assert (HnumI : Forall number_val I).
  { apply Forall_forall. intros x Hx. specialize (Hin x Hx).
    unfold pairs, BeachBallDiagram.eigenPairs in Hin.
    rewrite list_lookup_imap in Hin.
    destruct (eigenvalues !! x.1) as [v|] eqn:Hv; [|discriminate].
    injection Hin as Hin. unfold number_val. rewrite <- Hin. cbn [BeachBallDiagram.val].
    rewrite forallb_forall in Hnum.
    apply negb_true_iff, Hnum, list_elem_of_In. by eapply list_elem_of_lookup_2. }
  assert (Hsorted : StronglySorted later (rev S)).
  { unfold S, BeachBallDiagram.js_sort. rewrite rev_involutive.
    apply insertion_later; try assumption; constructor. }
  assert (Hrev : forall k x, S !! k = Some x ->
            rev S !! (length S - Datatypes.S k)%nat = Some x).
  { intros k x Hk. pose proof (lookup_lt_Some _ _ _ Hk) as Hlt.
    assert (Hr : rev S = reverse S) by (unfold reverse; apply rev_alt).
    rewrite Hr, reverse_lookup by lia.
    replace (length S - Datatypes.S (length S - Datatypes.S k))%nat with k by lia.
    exact Hk. }
  exists (S.*1). split; [by rewrite HSI, Hfst, Hplen|]. split.
  - intros k i Hk.
    apply list_lookup_fmap_Some in Hk as ([i' p] & -> & HSk). exists p. split.
    + by rewrite HS, list_lookup_fmap, HSk.
    + apply (Hin (i', p)). rewrite <- HSI. by eapply list_elem_of_lookup_2.
  - intros k l i j p q Hkl Hk Hl Hp Hq. rewrite HS in Hp, Hq.
    apply list_lookup_fmap_Some in Hk as ([i' p'] & -> & HSk).
    apply list_lookup_fmap_Some in Hl as ([j' q'] & -> & HSl).
    rewrite list_lookup_fmap, HSk in Hp. rewrite list_lookup_fmap, HSl in Hq.
    injection Hp as <-. injection Hq as <-.
    pose proof (lookup_lt_Some _ _ _ HSl) as Hlt.
    apply Hrev in HSk, HSl.
    change (later (j', q') (i', p')).
    eapply (StronglySorted_lookup later (rev S)); [exact Hsorted| |exact HSl|exact HSk].
    unfold indexed in *. lia.
Qed.
End Sorted_doubles.

Lemma sorted_ascending_stable_witness :
  exists order : list nat,
    order ≡ₚ seq 0 (length [2; 1; 2; 1]%float) /\
    (forall k i, order !! k = Some i ->
       exists p, BeachBallDiagram.sorted [2; 1; 2; 1]%float [] !! k = Some p /\
                 eigenPair_at [2; 1; 2; 1]%float [] i = Some p) /\
    (forall k l i j p q, (k < l)%nat ->
       order !! k = Some i -> order !! l = Some j ->
       BeachBallDiagram.sorted [2; 1; 2; 1]%float [] !! k = Some p ->
       BeachBallDiagram.sorted [2; 1; 2; 1]%float [] !! l = Some q ->
       PrimFloat.leb (BeachBallDiagram.val p) (BeachBallDiagram.val q) = true /\
       (PrimFloat.eqb (BeachBallDiagram.val p) (BeachBallDiagram.val q) = true ->
        (i < j)%nat)).
Proof.
  apply (sorted_ascending_stable [2; 1; 2; 1]%float []). reflexivity.
Defined.

(** * The azimuth field and the receiver distance *)

Section Float_compare.
Local Open Scope float_scope.

Lemma leb_ltb_eqb (x y : float) : (x <=? y) = (x <? y) || (x =? y).
Proof.
  rewrite FloatAxioms.leb_spec, FloatAxioms.ltb_spec, FloatAxioms.eqb_spec.
  unfold SFleb, SFltb, SFeqb. by destruct (SFcompare _ _) as [[| |]|].
Qed.

Lemma eqb_sym (x y : float) : (x =? y) = (y =? x).
Proof.
  rewrite !FloatAxioms.eqb_spec. unfold SFeqb.
  rewrite (SFcompare_antisym (Prim2SF x) (Prim2SF y)).
  by destruct (SFcompare _ _) as [[| |]|].
Qed.

Lemma eqb_refl (x : float) : is_nan x = false -> (x =? x) = true.
Proof. unfold is_nan. by intros ->%negb_false_iff. Qed.

Lemma ltb_is_number (x y : float) :
  (x <? y) = true -> is_nan x = false /\ is_nan y = false.
Proof.
  rewrite FloatAxioms.ltb_spec. intros Hlt. split.
  - destruct (is_nan x) eqn:Hx; [|done]. apply is_nan_eq in Hx. subst.
    discriminate Hlt.
  - destruct (is_nan y) eqn:Hy; [|done]. apply is_nan_eq in Hy. subst.
    change (Prim2SF nan) with S754_nan in Hlt. by destruct (Prim2SF x).
Qed.

Lemma leb_is_number (x y : float) :
  (x <=? y) = true -> is_nan x = false /\ is_nan y = false.
Proof.
  rewrite FloatAxioms.leb_spec. intros Hle. split.
  - destruct (is_nan x) eqn:Hx; [|done]. apply is_nan_eq in Hx. subst.
    discriminate Hle.
  - destruct (is_nan y) eqn:Hy; [|done]. apply is_nan_eq in Hy. subst.
    change (Prim2SF nan) with S754_nan in Hle. by destruct (Prim2SF x).
Qed.
End Float_compare.

Section Clamp.
Local Open Scope float_scope.

(** [Math.min(360, w)] and [Math.max(0, m)], step by step. *)
Lemma Math_min_360 (w : float) :
  Js.Math_min [360; w] = if is_nan w then nan else if w <? 360 then w else 360.
Proof.
  unfold Js.Math_min. cbn [Js.min_from].
  change (is_nan 360) with false. cbv iota.
  change (Js.is_negative_zero 360 && Js.is_positive_zero infinity) with false.
  cbv iota. change (360 <? infinity) with true. cbv iota.
  change (Js.is_positive_zero 360) with false. by rewrite andb_false_r.
Qed.

Lemma Math_max_0 (m : float) :
  Js.Math_max [0; m] = if is_nan m then nan else if 0 <? m then m else 0.
Proof.
  unfold Js.Math_max. cbn [Js.max_from].
  change (is_nan 0) with false. cbv iota.
  change (Js.is_positive_zero 0 && Js.is_negative_zero neg_infinity) with false.
  cbv iota. change (neg_infinity <? 0) with true. cbv iota.
  change (Js.is_negative_zero 0) with false. by rewrite andb_false_r.
Qed.
End Clamp.

Section Clamp_range.
Local Open Scope float_scope.

Lemma or_zero_is_number (value : float) : is_nan (Js.or value 0) = false.
Proof.
  unfold Js.or, Js.ToBoolean.
  destruct (is_zero value); [done|]. cbn [orb negb]. by destruct (is_nan value) eqn:Hn.
Qed.

(** The handler as a case distinction on its argument. *)
Lemma onChange_azimuth_cases (value : float) :
  CrossSection3D.onChange_azimuth value =
    let w := Js.or value 0 in
    let m := if w <? 360 then w else 360 in
    if 0 <? m then m else 0.
Proof.
  unfold CrossSection3D.onChange_azimuth.
  rewrite Math_max_0, Math_min_360, or_zero_is_number. cbv zeta.
  destruct (Js.or value 0 <? 360) eqn:Hlt.
  - by rewrite or_zero_is_number.
  - reflexivity.
Qed.

(** X12. Whatever Number the azimuth field yields (NaN for text that is
    no number, an infinity, a negative value), the azimuth stored is a
    Number between 0 and 360: a value in that range is kept ([==]), NaN
    and negative values become 0, values above 360 become 360. *)
Theorem azimuth_is_clamped (value : float) :
  let azimuth := CrossSection3D.onChange_azimuth value in
  (0 <=? azimuth) = true /\ (azimuth <=? 360) = true /\
  ((0 <=? value) = true -> (value <=? 360) = true -> (azimuth =? value) = true) /\
  (is_nan value = true -> azimuth = 0) /\
  ((value <? 0) = true -> azimuth = 0) /\
  ((360 <? value) = true -> azimuth = 360).
Proof.
  cbv zeta. rewrite onChange_azimuth_cases. cbv zeta.
  pose proof (or_zero_is_number value) as Hw.
  unfold Js.or, Js.ToBoolean in *.
  destruct (is_zero value) eqn:Hz; cbn [orb negb] in *.
  { (* a zero *)
    change (0 <? 360) with true. cbv iota. change (0 <? 0) with false. cbv iota.
    repeat split; try reflexivity.
    - intros _ _. rewrite eqb_sym. exact Hz.
    - intros H360. exfalso. unfold is_zero in Hz.
      rewrite FloatAxioms.ltb_spec in H360. rewrite FloatAxioms.eqb_spec in Hz.
      change (Prim2SF 360) with (S754_finite false 6333186975989760 (-44)) in H360.
      change (Prim2SF zero) with (S754_zero false) in Hz.
      destruct (Prim2SF value) as [s|s| |s m e]; try discriminate;
        destruct s; discriminate. }
  destruct (is_nan value) eqn:Hn; cbn [negb] in *.
  { (* NaN *)
    change (0 <? 360) with true. cbv iota. change (0 <? 0) with false. cbv iota.
    apply is_nan_eq in Hn. subst value.
    repeat split; try reflexivity; intros H; discriminate H. }
  assert (Hnz : (0 =? value) = false) by (rewrite eqb_sym; exact Hz).
  destruct (value <? 360) eqn:H360.
  - destruct (0 <? value) eqn:H0.
    + repeat split; try discriminate.
      * by apply ltb_leb.
      * by apply ltb_leb.
      * intros _ _. by apply eqb_refl.
      * intros Hneg. apply ltb_leb in Hneg. exfalso. clear -H0 Hneg.
        rewrite FloatAxioms.ltb_spec in H0. rewrite FloatAxioms.leb_spec in Hneg.
        unfold SFltb, SFleb in *.
        rewrite (SFcompare_antisym (Prim2SF value) (Prim2SF 0)) in Hneg.
        destruct (SFcompare (Prim2SF 0) (Prim2SF value)) as [[| |]|]; discriminate.
      * intros Hgt. exfalso. clear -H360 Hgt.
        rewrite FloatAxioms.ltb_spec in H360, Hgt. unfold SFltb in *.
        rewrite (SFcompare_antisym (Prim2SF 360) (Prim2SF value)) in Hgt.
        destruct (SFcompare (Prim2SF value) (Prim2SF 360)) as [[| |]|]; discriminate.
    + repeat split; try reflexivity; try discriminate.
      * intros Hle _. rewrite leb_ltb_eqb, H0, Hnz in Hle. discriminate.
      * intros Hgt. exfalso. clear -H360 Hgt.
        rewrite FloatAxioms.ltb_spec in H360, Hgt. unfold SFltb in *.
        rewrite (SFcompare_antisym (Prim2SF 360) (Prim2SF value)) in Hgt.
        destruct (SFcompare (Prim2SF value) (Prim2SF 360)) as [[| |]|]; discriminate.
  - change (0 <? 360) with true. cbv iota.
    repeat split; try reflexivity; try discriminate.
    + intros _ Hle. rewrite leb_ltb_eqb, H360 in Hle. by rewrite eqb_sym.
    + intros Hneg. exfalso.
      assert (Hlt : (value <? 360) = true); [|congruence].
      apply ltb_leb in Hneg.
      assert (H0360 : (0 <? 360) = true) by reflexivity.
      clear -Hneg H0360.
      rewrite FloatAxioms.ltb_spec, FloatAxioms.leb_spec in *.
      change (Prim2SF 360) with (S754_finite false 6333186975989760 (-44)) in *.
      change (Prim2SF 0) with (S754_zero false) in *.
      destruct (Prim2SF value) as [s|s| |s m e]; try discriminate; try reflexivity;
        destruct s; try discriminate; reflexivity.
Qed.
End Clamp_range.

Section Safe_distance.
Local Open Scope float_scope.

Lemma safeDistance_cases (distance : float) :
  is_nan distance = false ->
  CrossSection3D.safeDistance distance =
    let lowest := if distance <? infinity then distance else infinity in
    if 300 <? lowest then 300 else lowest.
Proof.
  intros Hn. unfold CrossSection3D.safeDistance, Js.Math_min. cbn [Js.min_from].
  rewrite Hn. change (Js.is_positive_zero infinity) with false.
  rewrite andb_false_r.
  change CrossSection3D.maxReceiverDistance with 300.
  change (is_nan 300) with false. change (Js.is_negative_zero 300) with false.
  reflexivity.
Qed.

(** X13. For every distance that is a Number, the receiver distance used
    is at most half the crust width, 300, and it is the given distance
    ([==]) whenever that is at most 300. *)
Theorem safeDistance_within_crust (distance : float) :
  is_nan distance = false ->
  (CrossSection3D.safeDistance distance <=? CrossSection3D.maxReceiverDistance) = true /\
  ((distance <=? CrossSection3D.maxReceiverDistance) = true ->
   (CrossSection3D.safeDistance distance =? distance) = true).
Proof.
  intros Hn. rewrite safeDistance_cases by assumption. cbv zeta.
  change CrossSection3D.maxReceiverDistance with 300.
  destruct (distance <? infinity) eqn:Hfin.
  - destruct (300 <? distance) eqn:Hgt.
    + split; [reflexivity|]. intros Hle. exfalso. clear -Hgt Hle.
      rewrite FloatAxioms.ltb_spec in Hgt. rewrite FloatAxioms.leb_spec in Hle.
      unfold SFltb, SFleb in *.
      rewrite (SFcompare_antisym (Prim2SF distance) (Prim2SF 300)) in Hle.
      destruct (SFcompare (Prim2SF 300) (Prim2SF distance)) as [[| |]|]; discriminate.
    + split; [by apply not_ltb_leb|]. intros _. by apply eqb_refl.
  - change (300 <? infinity) with true. cbv iota. split; [reflexivity|].
    intros Hle. exfalso. clear -Hfin Hle.
    rewrite FloatAxioms.ltb_spec in Hfin. rewrite FloatAxioms.leb_spec in Hle.
    change (Prim2SF 300) with (S754_finite false 5277655813324800 (-44)) in Hle.
    change (Prim2SF infinity) with (S754_infinity false) in Hfin.
    destruct (Prim2SF distance) as [s|s| |s m e]; try discriminate;
      destruct s; discriminate.
Qed.
End Safe_distance.

Lemma safeDistance_within_crust_witness :
  PrimFloat.leb (CrossSection3D.safeDistance 200) CrossSection3D.maxReceiverDistance
    = true /\
  (PrimFloat.leb 200 CrossSection3D.maxReceiverDistance = true ->
   PrimFloat.eqb (CrossSection3D.safeDistance 200) 200 = true).
Proof. apply (safeDistance_within_crust 200). reflexivity. Defined.

(** * Rounding does not fall below a power of two *)

Section IEEE_round_lower.
Local Open Scope Z_scope.

Lemma binary_round_aux_lower s m e :
  0 < m -> emin <= Zdigits2 m + e - 1 ->
  exists M E : Z,
    binary_round_aux prec emax s m e loc_Exact = SF_of_rounded s M E /\
    e <= E /\ 2 ^ (Zdigits2 m - 1) <= M * 2 ^ (E - e).
Proof.
  intros Hm Hmin. unfold binary_round_aux, shr_fexp.
  assert (Hprec : prec = 53) by reflexivity.
  assert (Hemax : emax = 1024) by reflexivity.
  assert (Hemin : emin = -1074) by reflexivity.
  assert (Hlow : 2 ^ (Zdigits2 m - 1) <= m).
  { destruct m as [|p|p]; try lia. apply digits2_pos_bounds. }
  assert (Hd0 : 0 < Zdigits2 m) by (destruct m; simpl; lia).
  set (d := Zdigits2 m) in *.
  set (n1 := fexp prec emax (d + e) - e).
  assert (Hn1 : n1 = Z.max (d + e - prec) emin - e) by reflexivity.
  destruct (Z_le_gt_dec n1 0) as [Hexact|Hround].
  - assert (Hshr : shr (shr_record_of_loc m loc_Exact) e n1 =
                   (shr_record_of_loc m loc_Exact, e)).
    { unfold shr. destruct n1; try reflexivity. lia. }
    rewrite Hshr. cbn [shr_record_of_loc loc_of_shr_record shr_m shr_r shr_s
                       round_nearest_even].
    assert (Hshr' := Hshr). unfold n1, d in Hshr'.
    cbn [shr_record_of_loc] in Hshr'. rewrite Hshr'. cbn [shr_m].
    exists m, e. split; [|rewrite Z.sub_diag; simpl; lia].
    unfold SF_of_rounded. destruct m; try lia. reflexivity.
  - destruct (shr_m_value (shr_record_of_loc m loc_Exact) e n1) as [Hm1 He1];
      [rewrite shr_record_of_loc_m; lia|].
    rewrite shr_record_of_loc_m in Hm1.
    destruct (shr (shr_record_of_loc m loc_Exact) e n1) as [mrs' e1].
    cbn [fst snd] in Hm1, He1. rewrite Z.max_r in Hm1, He1 by lia.
    assert (Hn1d : n1 <= d - 1) by lia.
    assert (Hp1 : 0 < 2 ^ n1) by (apply Z.pow_pos_nonneg; lia).
    assert (Hm1lo : 2 ^ (d - 1 - n1) <= shr_m mrs').
    { rewrite Hm1. apply Z.div_le_lower_bound; [assumption|].
      rewrite <- Z.pow_add_r by lia. replace (n1 + (d - 1 - n1)) with (d - 1) by lia.
      assumption. }
    assert (Hm'0 : 0 <= shr_m mrs') by (rewrite Hm1; apply div_pow2_nonneg; lia).
    pose proof (round_nearest_even_bounds (shr_m mrs') (loc_of_shr_record mrs')) as Hr.
    set (m1 := round_nearest_even (shr_m mrs') (loc_of_shr_record mrs')) in *.
    assert (Hmd : m < 2 ^ d) by (apply Zdigits2_le; unfold d; lia).
    assert (Hm'p : shr_m mrs' < 2 ^ prec).
    { rewrite Hm1. apply div_pow2_lt; try lia.
      eapply Z.lt_le_trans; [exact Hmd|]. apply Z.pow_le_mono_r; lia. }
    assert (Hpp : 2 ^ prec < 2 ^ (prec + 1)) by (apply Z.pow_lt_mono_r; lia).
    assert (Hd1p : Zdigits2 m1 <= prec + 1) by (apply Zdigits2_le; lia).
    set (n2 := fexp prec emax (Zdigits2 m1 + e1) - e1).
    assert (Hn2 : n2 = Z.max (Zdigits2 m1 + e1 - prec) emin - e1) by reflexivity.
    destruct (shr_m_value (shr_record_of_loc m1 loc_Exact) e1 n2) as [Hm2 He2];
      [rewrite shr_record_of_loc_m; lia|].
    rewrite shr_record_of_loc_m in Hm2.
    destruct (shr (shr_record_of_loc m1 loc_Exact) e1 n2) as [mrs'' e2].
    cbn [fst snd] in Hm2, He2.
    set (N2 := Z.max 0 n2) in *.
    assert (HN2 : 0 <= N2 <= 1) by lia.
    exists (shr_m mrs''), e2. split; [reflexivity|]. split; [lia|].
    replace (e2 - e) with (N2 + n1) by lia. rewrite Z.pow_add_r by lia.
    destruct (Z.eq_dec N2 0) as [H0|H1].
    + rewrite H0 in *. change (2 ^ 0) with 1 in *. rewrite Z.div_1_r in Hm2.
      assert (2 ^ (d - 1) = 2 ^ (d - 1 - n1) * 2 ^ n1)
        by (rewrite <- Z.pow_add_r by lia; f_equal; lia).
      nia.
    + assert (HN21 : N2 = 1) by lia. rewrite HN21 in *. change (2 ^ 1) with 2 in *.
      assert (Hbig : 2 ^ prec <= m1).
      { destruct (Z_lt_le_dec m1 (2 ^ prec)) as [Hlt|]; [|assumption].
        assert (Zdigits2 m1 <= prec) by (apply Zdigits2_le; lia). lia. }
      assert (Hhalf : 2 ^ (prec - 1) <= shr_m mrs'').
      { rewrite Hm2. apply Z.div_le_lower_bound; [lia|].
        replace (2 * 2 ^ (prec - 1)) with (2 ^ prec); [assumption|].
        rewrite Hprec. reflexivity. }
      assert (Hpow : 2 ^ (d - 1) <= 2 ^ (prec - 1) * (2 * 2 ^ n1)).
      { replace (2 ^ (prec - 1) * (2 * 2 ^ n1)) with (2 ^ (prec + n1)).
        - apply Z.pow_le_mono_r; lia.
        - replace (prec + n1) with ((prec - 1) + 1 + n1) by lia.
          rewrite !Z.pow_add_r by lia. change (2 ^ 1) with 2. ring. }
      nia.
Qed.
End IEEE_round_lower.

Section IEEE_sum_at_least_one.
Local Open Scope R_scope.

Lemma bpow_0 : bpow 0 = 1.
Proof. reflexivity. Qed.

(** A positive value of at least 1 rounds to at least 1, or overflows. *)
Lemma binary_round_aux_ge_1 (m e : Z) :
  (0 < m)%Z -> 1 <= IZR m * bpow e ->
  binary_round_aux prec emax false m e loc_Exact = S754_infinity false \/
  (SF_finite (binary_round_aux prec emax false m e loc_Exact) = true /\
   1 <= SF2R (binary_round_aux prec emax false m e loc_Exact)).
Proof.
  intros Hm Hge.
  assert (Hd : (0 < Zdigits2 m + e)%Z).
  { destruct (Z_lt_le_dec 0 (Zdigits2 m + e)) as [|Hle]; [assumption|exfalso].
    assert (Hmd : (m < 2 ^ Zdigits2 m)%Z)
      by (apply Zdigits2_le; try lia; apply Zdigits2_nonneg).
    apply IZR_lt in Hmd. rewrite <- bpow_IZR in Hmd by apply Zdigits2_nonneg.
    pose proof (bpow_pos e). pose proof (bpow_le _ _ Hle) as Hb.
    rewrite bpow_add, bpow_0 in Hb. nra. }
  destruct (binary_round_aux_lower false m e Hm)
    as (M & E & -> & HE & Hlow); [change emin with (-1074)%Z; lia|].
  assert (Hd1 : (1 <= Zdigits2 m)%Z) by (destruct m; simpl; lia).
  assert (HM : (0 < M)%Z).
  { assert (0 < 2 ^ (Zdigits2 m - 1))%Z by (apply Z.pow_pos_nonneg; lia).
    assert (0 < 2 ^ (E - e))%Z by (apply Z.pow_pos_nonneg; lia).
    destruct (Z_lt_le_dec 0 M) as [|Hle]; [assumption|exfalso].
    assert (M * 2 ^ (E - e) <= 0)%Z by (apply Z.mul_nonpos_nonneg; lia). lia. }
  unfold SF_of_rounded. destruct M as [|p|p]; try lia.
  destruct (E <=? emax - prec)%Z; [right|by left].
  split; [reflexivity|]. cbn [SF2R cond_Zopp].
  apply IZR_le in Hlow. rewrite mult_IZR, <- !bpow_IZR in Hlow by lia.
  replace E with ((E - e) + e)%Z at 1 by lia. rewrite bpow_add.
  pose proof (bpow_pos e).
  assert (Hone : 1 <= bpow (Zdigits2 m - 1) * bpow e).
  { rewrite <- bpow_add, <- bpow_0. apply bpow_le. lia. }
  nra.
Qed.

Lemma binary_round_ge_1 (m : positive) (e : Z) :
  1 <= IZR (Zpos m) * bpow e ->
  binary_round prec emax false m e = S754_infinity false \/
  (SF_finite (binary_round prec emax false m e) = true /\
   1 <= SF2R (binary_round prec emax false m e)).
Proof.
  unfold binary_round.
  pose proof (shl_align_R m e (fexp prec emax (Zpos (digits2_pos m) + e))) as Hv.
  destruct (shl_align m e _) as [mz ez]. cbn [fst snd] in Hv.
  intros Hge. rewrite <- Hv in Hge.
  apply binary_round_aux_ge_1; [lia|assumption].
Qed.

(** [1 + p], for a positive finite [p], is at least 1 or overflows. *)
Lemma SFadd_one_ge_1 (m : positive) (e : Z) :
  valid_binary (S754_finite false m e) = true ->
  let r := SF64add (S754_finite false 4503599627370496 (-52)) (S754_finite false m e) in
  r = S754_infinity false \/ (SF_finite r = true /\ 1 <= SF2R r).
Proof.
  intros Vp r. subst r. unfold SF64add, SFadd.
  cbn [valid_binary] in Vp.
  fold (aligned (Z.min (-52) e) false 4503599627370496 (-52)).
  fold (aligned (Z.min (-52) e) false m e).
  pose proof (aligned_R (Z.min (-52) e) false 4503599627370496 (-52) ltac:(lia)) as H1.
  pose proof (aligned_R (Z.min (-52) e) false m e ltac:(lia)) as Hp.
  rewrite SF2R_pow2 in H1. change (52 + -52)%Z with 0%Z in H1. rewrite bpow_0 in H1.
  cbn [SF2R cond_Zopp] in Hp.
  set (X := aligned (Z.min (-52) e) false 4503599627370496 (-52)) in *.
  set (Y := aligned (Z.min (-52) e) false m e) in *.
  pose proof (bpow_pos (Z.min (-52) e)) as Hb. pose proof (bpow_pos e).
  assert (HY : (0 < Y)%Z).
  { apply lt_IZR. assert (0 < IZR (Zpos m)) by (apply IZR_lt; lia). nra. }
  assert (HX : (0 < X)%Z) by (apply lt_IZR; nra).
  destruct (X + Y)%Z as [|s|s] eqn:Hs; try lia. cbn [binary_normalize].
  apply binary_round_ge_1. rewrite <- Hs, plus_IZR.
  apply IZR_lt in HY. nra.
Qed.
End IEEE_sum_at_least_one.

Section Lobe_radius.
Local Open Scope float_scope.

Lemma SF_of_rounded_nonneg (M E : Z) :
  (0 <= M)%Z -> SF_nonneg (SF_of_rounded false M E) = true.
Proof.
  intros HM. unfold SF_of_rounded. destruct M as [|p|p]; [reflexivity| |lia].
  by destruct (E <=? emax - prec)%Z.
Qed.

(** A positive finite factor times a magnitude is positive, zero or
    [+Infinity]. *)
Lemma mul_abs_nonneg (scale u : float) :
  is_finite scale = true -> (0 <? scale) = true -> is_nan u = false ->
  SF_nonneg (Prim2SF (scale * abs u)) = true.
Proof.
  intros Hf%Prim2SF_finite Hpos Hn%Prim2SF_not_nan.
  rewrite ltb_spec in Hpos. rewrite mul_spec, abs_spec.
  change (Prim2SF 0) with (S754_zero false) in Hpos.
  destruct (Prim2SF scale) as [s|s| |s m e]; try discriminate;
    try (by destruct s).
  destruct s; [discriminate Hpos|].
  destruct (Prim2SF u) as [s'|s'| |s' m' e']; [reflexivity|reflexivity|done|].
  cbn [SFabs]. unfold SF64mul, SFmul. cbn [xorb].
  destruct (binary_round_aux_rounded false (Zpos (m * m')) (e + e') ltac:(lia))
    as (M & E & -> & HM & _).
  by apply SF_of_rounded_nonneg.
Qed.

Lemma one_add_nonneg (p : float) :
  SF_nonneg (Prim2SF p) = true -> (1 <=? 1 + p) = true.
Proof.
  intros Hp. rewrite leb_spec, add_spec, Prim2SF_one.
  pose proof (Prim2SF_valid p) as Vp.
  pose proof (Prim2SF_valid (1 + p)) as Vr.
  rewrite add_spec, Prim2SF_one in Vr.
  destruct (Prim2SF p) as [[]|[]| |[] m e]; try discriminate Hp;
    try (vm_compute; reflexivity).
  destruct (SFadd_one_ge_1 m e Vp) as [Hinf|[Hfin Hge]].
  - rewrite Hinf. reflexivity.
  - apply SFleb_R; [reflexivity|exact Vr|reflexivity|exact Hfin|].
    rewrite SF2R_pow2. exact Hge.
Qed.
End Lobe_radius.

(** X14. In [generateRadiationLobe], [r = 1 + scale * Math.abs(u)] is at
    least 1 (possibly [Infinity]) for every finite positive [scale] and
    every [u] that is not [NaN]: the lobe surface never goes inside the
    unit sphere. *)
Theorem lobe_radius_at_least_one (scale u : float) :
  is_finite scale = true -> (0 <? scale)%float = true -> is_nan u = false ->
  (1 <=? BeachBall.lobe_radius scale u)%float = true.
Proof.
  intros Hf Hpos Hn. unfold BeachBall.lobe_radius.
  apply one_add_nonneg. by apply mul_abs_nonneg.
Qed.

Lemma lobe_radius_at_least_one_witness :
  (1 <=? BeachBall.lobe_radius 1.5 (-0.25))%float = true.
Proof. apply lobe_radius_at_least_one; reflexivity. Defined.

Section Shaded_dots.
Variable L : Libm.
Variable Math_acos : float -> float.
Variable normalize : THREE.Vector3 float -> THREE.Vector3 float.
Variable random : nat -> float.
Local Open Scope float_scope.

Lemma opp_abs_not_positive (c : float) : (0 <? - abs c) = false.
Proof.
  rewrite ltb_spec, opp_spec, abs_spec.
  change (Prim2SF 0) with (S754_zero false).
  by destruct (Prim2SF c).
Qed.

Lemma amplitude_nan (mt : MomentTensor float) (dir : THREE.Vector3 float) :
  is_nan (Mrr mt) || is_nan (Mtt mt) || is_nan (Mpp mt)
    || is_nan (Mrt mt) || is_nan (Mrp mt) || is_nan (Mtp mt) = true ->
  BeachBallDiagram.amplitude mt dir = nan.
Proof.
  rewrite !orb_true_iff. unfold BeachBallDiagram.amplitude.
  cbn [js_add js_mul num Float64].
  intros [[[[[H|H]|H]|H]|H]|H]; apply is_nan_eq in H; rewrite H;
    by nan_absorb.
Qed.
End Shaded_dots.

(** X15. [generateShadedDots] returns [count] dots, and none of them lies
    above the equatorial plane: the third coordinate [-Math.abs(...)] of a
    dot is never greater than zero, whatever [Math.random], [Math.acos],
    [Math.sin] and [Math.cos] return. *)
Theorem shaded_dots_lower_hemisphere
    (L : Libm) (Math_acos : float -> float)
    (normalize : THREE.Vector3 float -> THREE.Vector3 float)
    (random : nat -> float) (mt : MomentTensor float) (count : nat) :
  let dots := BeachBall.generateShadedDots L Math_acos normalize random mt count in
  length dots = count /\
  Forall (fun d => (0 <? (BeachBall.pos d).2)%float = false) dots.
Proof.
  cbv zeta. unfold BeachBall.generateShadedDots. split.
  - by rewrite length_fmap, length_seq.
  - apply Forall_forall. intros d (i & -> & _)%list_elem_of_fmap.
    cbn [BeachBall.shadedDot BeachBall.pos snd]. apply opp_abs_not_positive.
Qed.

(** X16. A NaN among the six components of the tensor colours every dot
    white: the amplitude is NaN, and [u >= 0] is false for NaN. *)
Theorem nan_tensor_gives_white_dots
    (L : Libm) (Math_acos : float -> float)
    (normalize : THREE.Vector3 float -> THREE.Vector3 float)
    (random : nat -> float) (mt : MomentTensor float) (count : nat) :
  PrimFloat.is_nan (Mrr mt) || PrimFloat.is_nan (Mtt mt) || PrimFloat.is_nan (Mpp mt)
    || PrimFloat.is_nan (Mrt mt) || PrimFloat.is_nan (Mrp mt)
    || PrimFloat.is_nan (Mtp mt) = true ->
  Forall (fun d => BeachBall.color d = "white"%string)
    (BeachBall.generateShadedDots L Math_acos normalize random mt count).
Proof.
  intros Hnan. apply Forall_forall. intros d (i & -> & _)%list_elem_of_fmap.
  cbn [BeachBall.shadedDot BeachBall.color].
  by rewrite (amplitude_nan mt _ Hnan).
Qed.

Lemma nan_tensor_gives_white_dots_witness :
  Forall (fun d => BeachBall.color d = "white"%string)
    (BeachBall.generateShadedDots libm_at_zero (fun x => x) (fun v => v)
       (fun _ => 0.5%float)
       {| Mrr := nan; Mtt := 0%float; Mpp := 0%float;
          Mrt := 0%float; Mrp := 0%float; Mtp := 0%float |} 3).
Proof. apply nan_tensor_gives_white_dots. reflexivity. Defined.
